(** * Adaptive learners: integrator and triangulator

    A shallow embedding of [adaptive/learner/integrator_learner.py] and
    [adaptive/learner/triangulating_learner.py].

    Python floats and numpy float64 values are binary64 numbers: they are
    modelled by Rocq's primitive floats, with the same rounding.  Python
    objects that are shared and mutated ([Interval] nodes) live in an
    object store addressed by handles.  A method is a computation over the
    learner state that may return, raise, or run out of fuel. *)

From Stdlib Require Import ZArith Lia Floats.
From stdpp Require Import base option list.

Set Default Proof Using "Type".

(** ** Python-level values and helpers *)

Module Py.

Abbreviation float := PrimFloat.float.
Definition vec := list float.
Definition matrix := list vec.

(** [np.inf], [np.nan], [np.isfinite], [np.isinf]. *)
Definition inf : float := PrimFloat.infinity.
Definition nan : float := PrimFloat.nan.
Definition isfinite (x : float) : bool := PrimFloat.is_finite x.
Definition isinf (x : float) : bool := PrimFloat.is_infinity x.

(** [eps = np.spacing(1)], that is 2^-52. *)
Definition eps : float := 0x1p-52%float.

(** [sqrt(2)] of the [math] module: the correctly rounded square root. *)
Definition sqrt2 : float := PrimFloat.sqrt 2%float.

(** The literal [0.1], the double nearest to one tenth. *)
Definition tenth : float := 0x1.999999999999ap-4%float.

(** [x > y] on floats. *)
Definition gtb (x y : float) : bool := (y <? x)%float.

(** Built-in [sum] over floats: it starts from the integer 0 and adds from
    the left. *)
Definition sum (l : list float) : float := foldl PrimFloat.add 0%float l.

(** Built-in [max(x, y)]: [y] replaces [x] only when [y > x]. *)
Definition max2 (x y : float) : float := if gtb y x then y else x.

(** Built-in [max] of a non-empty iterable; [None] stands for the
    [ValueError] on an empty one. *)
Definition max_of (l : list float) : option float :=
  match l with
  | [] => None
  | x :: l' => Some (foldl max2 x l')
  end.

(** Reading entry [i] of an array.  The coefficient tables and the arrays
    built from them have the shapes the source gives them, so that reads
    are in range; a read out of range (an [IndexError] in Python) reads
    zero here. *)
Definition at_ (l : vec) (i : nat) : float := default 0%float (l !! i).
Definition row (m : matrix) (i : nat) : vec := default [] (m !! i).

(** Element-wise [x - y] of two arrays of one shape. *)
Definition vsub (x y : vec) : vec := zip_with PrimFloat.sub x y.

(** [row[:len(v)] = v]: the slice assignment [c[d, :ns[d]] = v]. *)
Definition set_prefix (v r : vec) : vec := v ++ drop (length v) r.

(** The slice [v[::2]]. *)
Fixpoint every_other (v : vec) : vec :=
  match v with
  | x :: _ :: v' => x :: every_other v'
  | _ => v
  end.

(** [np.zeros(n)]. *)
Definition zeros (n : nat) : vec := replicate n 0%float.

(** Exceptions raised by the modelled code. *)
Inductive exn : Type :=
| ValueError_no_tolerance          (* One of `tol` or `rtol` must be provided. *)
| ValueError_unknown_point (x : float) (* Point {} doesn't belong to any interval *)
| ValueError_empty_max             (* max() of an empty sequence *)
| ValueError_unpack                (* not enough values to unpack *)
| DivergentIntegralError (ival : nat)
| TypeError
| AssertionError
| IndexError
| KeyError
| AttributeError
| CallableError                    (* raised inside a user-supplied callable *)
| ZeroDivisionError
| LinAlgError.                     (* Singular matrix *)

(** A call returns a value in a new state, raises in the state it had
    reached, or exhausts the fuel of a loop. *)
Inductive outcome (S A : Type) : Type :=
| Ok (s : S) (x : A)
| Raise (s : S) (e : exn)
| OutOfFuel.
Arguments Ok {S A} s x.
Arguments Raise {S A} s e.
Arguments OutOfFuel {S A}.

Definition M (S A : Type) : Type := S -> outcome S A.

Definition ret {S A} (x : A) : M S A := fun s => Ok s x.
Definition bind {S A B} (m : M S A) (k : A -> M S B) : M S B :=
  fun s => match m s with
           | Ok s' x => k x s'
           | Raise s' e => Raise s' e
           | OutOfFuel => OutOfFuel
           end.
Definition raise {S A} (e : exn) : M S A := fun s => Raise s e.
Definition get {S} : M S S := fun s => Ok s s.
Definition gets {S A} (f : S -> A) : M S A := fun s => Ok s (f s).
Definition modify {S} (f : S -> S) : M S unit := fun s => Ok (f s) tt.
Definition out_of_fuel {S A} : M S A := fun _ => OutOfFuel.

(** [for x in l: body x]. *)
Fixpoint for_each {S A} (l : list A) (body : A -> M S unit) : M S unit :=
  match l with
  | [] => ret tt
  | x :: l' => bind (body x) (fun _ => for_each l' body)
  end.

(** [for x in l: acc = body acc x]. *)
Fixpoint fold_m {S A B} (body : B -> A -> M S B) (acc : B) (l : list A) : M S B :=
  match l with
  | [] => ret acc
  | x :: l' => bind (body acc x) (fun acc => fold_m body acc l')
  end.

(** [[f(x) for x in l]] for a computation [f]. *)
Fixpoint map_m {S A B} (f : A -> M S B) (l : list A) : M S (list B) :=
  match l with
  | [] => ret []
  | x :: l' => bind (f x) (fun y => bind (map_m f l') (fun ys => ret (y :: ys)))
  end.

End Py.

Export Py.

Declare Scope py_scope.
Delimit Scope py_scope with py.
Notation "'let*' x ':=' m 'in' k" := (bind m (fun x => k))
  (at level 10, x strict pattern, m at level 100, k at level 200) : py_scope.
Notation "m ';;' k" := (bind m (fun _ => k))
  (at level 100, k at level 200, right associativity) : py_scope.
Open Scope py_scope.

(** ** Coefficient tables and linear algebra

    The module [integrator_coeffs] (the precomputed Clenshaw-Curtis tables)
    is constant numeric data outside the source files at hand, and [@] and
    [norm] are numpy's and scipy's; the integrator is stated over any
    tables and any linear-algebra routines. *)

Class Coeffs : Type := {
  xi : nat -> vec;        (* xi[depth]: abscissae in [-1, 1] *)
  V_inv : nat -> matrix;  (* inverse Vandermonde matrix per depth *)
  Vcond : nat -> float;   (* condition number per depth *)
  T_left : matrix;        (* basis shift, left child of a split *)
  T_right : matrix;       (* basis shift, right child of a split *)
  alpha : vec;
  gamma : vec;
  b_def : nat -> vec
}.

Class LinAlg : Type := {
  matvec : matrix -> vec -> vec;  (* [A @ x] *)
  norm : vec -> float             (* [scipy.linalg.norm] *)
}.

(** Modelled from the spec: the table [ns] of [integrator_coeffs], the
    number of sample points per depth ([N[depth] ∈ {5, 9, 17, 33}]; the
    docstring of [Interval] gives the same sizes). *)
Definition ns : list nat := [5; 9; 17; 33].
Definition ns_at (depth : nat) : nat := default 0 (ns !! depth).

Section Numerics.
Context {CO : Coeffs} {LA : LinAlg}.

(** The inner loop of [_downdate]: [for j in range(m - 1, 0, -1)]. *)
Fixpoint downdate_inner (j : nat) (xii : float) (b : vec) : vec :=
  match j with
  | 0 => b
  | S j' =>
      downdate_inner j' xii
        (<[j := ((at_ b j + xii * at_ b (j + 1) - at_ gamma (j + 1) * at_ b (j + 2))
                 / at_ alpha (j - 1))%float]> b)
  end.

(** One pass of the outer loop of [_downdate] for the index [i] of a
    non-finite sample; the state is [(c, b, m)].  The source reads
    [alpha[m - 1]] with [m >= 1]: at most [ns[depth] - 1] samples are
    downdated. *)
Definition downdate_step (depth : nat) (st : vec * vec * nat) (i : nat)
  : vec * vec * nat :=
  let '(c, b, m) := st in
  let b := <[m + 1 := (at_ b (m + 1) / at_ alpha m)%float]> b in
  let xii := at_ (xi depth) i in
  let b := <[m := ((at_ b m + xii * at_ b (m + 1)) / at_ alpha (m - 1))%float]> b in
  let b := downdate_inner (m - 1) xii b in
  let b := drop 1 b in
  let s := (at_ c m / at_ b m)%float in
  let c := imap (fun j x => if (j <? m)%nat then (x - s * at_ b j)%float else x) c in
  let c := <[m := 0%float]> c in
  (c, b, m - 1).

Definition _downdate (c : vec) (nans : list nat) (depth : nat) : vec :=
  (foldl (downdate_step depth) (c, b_def depth, ns_at depth - 1) nans).1.1.

(** [_zero_nans(fx)]: the indices of the non-finite entries, and [fx] with
    these entries set to zero (the source modifies [fx] in place). *)
Fixpoint zero_nans_from (i : nat) (fx : vec) : list nat * vec :=
  match fx with
  | [] => ([], [])
  | x :: fx' =>
      let '(nans, out) := zero_nans_from (S i) fx' in
      if isfinite x then (nans, x :: out) else (i :: nans, 0%float :: out)
  end.
Definition _zero_nans (fx : vec) : list nat * vec := zero_nans_from 0 fx.

(** [fx[nans] = np.nan]. *)
Definition set_nans (fx : vec) (nans : list nat) : vec :=
  foldl (fun fx i => <[i := nan]> fx) fx nans.

(** [_calc_coeffs(fx, depth)]: the new coefficients, and [fx] as the call
    leaves it. *)
Definition _calc_coeffs (fx : vec) (depth : nat) : vec * vec :=
  let '(nans, fx0) := _zero_nans fx in
  let c_new := matvec (V_inv depth) fx0 in
  match nans with
  | [] => (c_new, fx0)
  | _ => (_downdate c_new nans depth, set_nans fx0 nans)
  end.

End Numerics.

(** ** Interval nodes *)

Module Interval.

(** The slots of an [Interval].  [parent] and [children] are handles into
    the object store; [fx] is absent until the interval is processed
    ([hasattr(self, 'fx')]), [igral] is [None] until then; [tol] is the
    learner's [tol], which may be [None]. *)
Record t : Type := mk {
  a : float;
  b : float;
  c : matrix;
  c_old : vec;
  depth : nat;
  fx : option vec;
  igral : option float;
  err : float;
  tol : option float;
  rdepth : nat;
  ndiv : nat;
  parent : option nat;
  children : list nat;
  done_points : list (float * float);
  est_err : float;
  discard : bool
}.

Definition set_c (x : matrix) (i : t) : t :=
  mk (a i) (b i) x (c_old i) (depth i) (fx i) (igral i) (err i) (tol i)
     (rdepth i) (ndiv i) (parent i) (children i) (done_points i) (est_err i) (discard i).
Definition set_c_old (x : vec) (i : t) : t :=
  mk (a i) (b i) (c i) x (depth i) (fx i) (igral i) (err i) (tol i)
     (rdepth i) (ndiv i) (parent i) (children i) (done_points i) (est_err i) (discard i).
Definition set_fx (x : option vec) (i : t) : t :=
  mk (a i) (b i) (c i) (c_old i) (depth i) x (igral i) (err i) (tol i)
     (rdepth i) (ndiv i) (parent i) (children i) (done_points i) (est_err i) (discard i).
Definition set_igral (x : option float) (i : t) : t :=
  mk (a i) (b i) (c i) (c_old i) (depth i) (fx i) x (err i) (tol i)
     (rdepth i) (ndiv i) (parent i) (children i) (done_points i) (est_err i) (discard i).
Definition set_err (x : float) (i : t) : t :=
  mk (a i) (b i) (c i) (c_old i) (depth i) (fx i) (igral i) x (tol i)
     (rdepth i) (ndiv i) (parent i) (children i) (done_points i) (est_err i) (discard i).
Definition set_ndiv (x : nat) (i : t) : t :=
  mk (a i) (b i) (c i) (c_old i) (depth i) (fx i) (igral i) (err i) (tol i)
     (rdepth i) x (parent i) (children i) (done_points i) (est_err i) (discard i).
Definition set_children (x : list nat) (i : t) : t :=
  mk (a i) (b i) (c i) (c_old i) (depth i) (fx i) (igral i) (err i) (tol i)
     (rdepth i) (ndiv i) (parent i) x (done_points i) (est_err i) (discard i).
Definition set_done_points (x : list (float * float)) (i : t) : t :=
  mk (a i) (b i) (c i) (c_old i) (depth i) (fx i) (igral i) (err i) (tol i)
     (rdepth i) (ndiv i) (parent i) (children i) x (est_err i) (discard i).
Definition set_est_err (x : float) (i : t) : t :=
  mk (a i) (b i) (c i) (c_old i) (depth i) (fx i) (igral i) (err i) (tol i)
     (rdepth i) (ndiv i) (parent i) (children i) (done_points i) x (discard i).
Definition set_discard (x : bool) (i : t) : t :=
  mk (a i) (b i) (c i) (c_old i) (depth i) (fx i) (igral i) (err i) (tol i)
     (rdepth i) (ndiv i) (parent i) (children i) (done_points i) (est_err i) x.

(** [Interval(a, b)] as [__init__] leaves it, with the slots that every
    caller assigns right after construction passed along. *)
Definition new (a b : float) (c : matrix) (c_old : vec) (depth : nat)
    (err : float) (tol : option float) (rdepth ndiv : nat) (parent : option nat) : t :=
  mk a b c c_old depth None None err tol rdepth ndiv parent [] [] inf false.

(** [np.zeros((len(ns), ns[-1]))]. *)
Definition c_zeros : matrix := replicate (length ns) (zeros (default 0 (last ns))).

(** A [SortedDict] keyed by abscissa: [d[x] = y] replaces the value of an
    equal key and otherwise inserts in key order. *)
Fixpoint sd_set (x y : float) (d : list (float * float)) : list (float * float) :=
  match d with
  | [] => [(x, y)]
  | (x', y') :: d' =>
      if (x' =? x)%float then (x', y) :: d'
      else if (x <? x')%float then (x, y) :: d
      else (x', y') :: sd_set x y d'
  end.

(** The object store: an interval is addressed by its position. *)
Definition heap : Type := list t.
Definition dummy : t := new 0 0 [] [] 0 0 None 0 0 None.
Definition lookup (hp : heap) (h : nat) : t := default dummy (hp !! h).
Definition alloc (i : t) (hp : heap) : nat * heap := (length hp, hp ++ [i]).

Section Methods.
Context {CO : Coeffs} {LA : LinAlg}.

(** [points(depth)]: [(a+b)/2 + (b-a)*xi[depth]/2]. *)
Definition points (i : t) (d : nat) : vec :=
  map (fun x => ((a i + b i) / 2 + (b i - a i) * x / 2)%float) (xi d).

Definition complete (i : t) : bool :=
  (length (done_points i) =? ns_at (depth i))%nat.

Definition done (i : t) : bool :=
  match fx i with Some _ => complete i | None => false end.

(** The property [T]; the caller has checked that there is a parent.
    [None] is the failure of [assert left != right]. *)
Definition T (p i : t) : option matrix :=
  let left := (a i =? a p)%float in
  let right := (b i =? b p)%float in
  if Bool.eqb left right then None else Some (if left then T_left else T_right).

(** [refine()]: the child, before it is stored; the caller stores it
    and sets [self.children]. *)
Definition refine_child (self : nat) (i : t) : t :=
  new (a i) (b i) (c i) (c_old i) (depth i + 1) (err i) (tol i)
      (rdepth i) (ndiv i) (Some self).

(** [split()]: the midpoint and the two children as the loop of
    [split] completes them; the caller stores them and sets
    [self.children]. *)
Definition split_point (i : t) : float :=
  let pts := points i (depth i) in at_ pts (length pts / 2).

Definition split_child (self : nat) (i : t) (tl : float) (lo hi : float) : t :=
  new lo hi c_zeros (c_old i) 0 (err i / sqrt2)%float
      (Some (tl / sqrt2)%float) (rdepth i + 1) (ndiv i) (Some self).

(** [Interval(lo, hi)] right after [__init__], as [split] leaves a child
    when [self.tol / sqrt(2)] raises: the slots that are not assigned
    yet hold placeholders. *)
Definition bare (lo hi : float) : t :=
  new lo hi c_zeros [] 0 0%float None 0 0 None.

(** [process_make_first()]: the interval as the call leaves it, and the
    exception if it raises.  [norm] returns a Python float, and the
    quotient [c_diff / norm(self.c[3])] of two Python floats raises
    [ZeroDivisionError] when the divisor is zero, after [err] and [igral]
    have been assigned. *)
Definition process_make_first (i : t) : t * option exn :=
  let fx := (done_points i).*2 in
  let '(nans, fx) := _zero_nans fx in
  let c := <[3 := matvec (V_inv 3) fx]> (c i) in
  let c2 := matvec (V_inv 2) (every_other (take (ns_at 3) fx)) in
  let c := <[2 := set_prefix c2 (row c 2)]> c in
  let fx := set_nans fx nans in
  let c_diff := norm (vsub (row c (depth i)) (row c 2)) in
  let err := ((b i - a i) * c_diff)%float in
  let igral := ((b i - a i) * at_ (row c (depth i)) 0 / sqrt2)%float in
  let i := set_igral (Some igral) (set_err err
             (set_c_old (zeros (length fx)) (set_fx (Some fx) (set_c c i)))) in
  if (norm (row c 3) =? 0)%float then (i, Some ZeroDivisionError)
  else if gtb (c_diff / norm (row c 3))%float tenth
       then (set_err (max2 err ((b i - a i) * norm (row c 3))%float) i, None)
       else (i, None).

(** The update of [ndiv] in [process_split]:
    [parent.ndiv + (abs(parent.c[0, 0]) > 0 and self.c[0, 0] / parent.c[0, 0] > 2)]. *)
Definition ndiv_increment (parent_c00 c00 : float) : bool :=
  gtb (PrimFloat.abs parent_c00) 0 && gtb (c00 / parent_c00)%float 2.

Definition ndiv_max : nat := 20.

(** [process_split()] of an interval with parent [p]: the interval as
    the call leaves it, and the exception if it raises. *)
Definition process_split (self : nat) (p i : t) : t * option exn :=
  let fx := (done_points i).*2 in
  let '(c_new, fx) := _calc_coeffs fx (depth i) in
  let c := <[depth i := set_prefix c_new (row (c i) (depth i))]> (c i) in
  let i := set_fx (Some fx) (set_c c i) in
  match T p i with
  | None => (i, Some AssertionError)
  | Some shift =>
      let c_old := matvec shift (row (Interval.c p) (depth p)) in
      let c_diff := norm (vsub (row c (depth i)) c_old) in
      let err := ((b i - a i) * c_diff)%float in
      let igral := ((b i - a i) * at_ (row c (depth i)) 0 / sqrt2)%float in
      let ndiv := (ndiv p
                   + if ndiv_increment (at_ (row (Interval.c p) 0) 0) (at_ (row c 0) 0)
                     then 1 else 0)%nat in
      let i := set_ndiv ndiv (set_igral (Some igral) (set_err err (set_c_old c_old i))) in
      if ((ndiv_max <? ndiv) && (rdepth i <? 2 * ndiv))%nat
      then (i, Some (DivergentIntegralError self))
      else (i, None)
  end.

(** [process_refine()]: the interval as the call leaves it, and
    [force_split]. *)
Definition process_refine (i : t) : t * bool :=
  let fx := (done_points i).*2 in
  let '(c_new, fx) := _calc_coeffs fx (depth i) in
  let c := <[depth i := set_prefix c_new (row (c i) (depth i))]> (c i) in
  let c_diff := norm (vsub (row c (depth i - 1)) (row c (depth i))) in
  let err := ((b i - a i) * c_diff)%float in
  let igral := ((b i - a i) * at_ c_new 0 / sqrt2)%float in
  let nc := norm c_new in
  let force_split := gtb nc 0 && gtb (c_diff / nc)%float tenth in
  (set_igral (Some igral) (set_err err (set_fx (Some fx) (set_c c i))), force_split).

(** The property [branch_complete]; [hp] is the store in which the
    children live. *)
Definition branch_complete (hp : heap) (i : t) : bool :=
  if (match children i with [] => true | _ => false end) && complete i then true
  else isfinite (sum (map (fun k => est_err (lookup hp k)) (children i))).

End Methods.
End Interval.

(** ** Python containers *)

Module Coll.

(** Python's [==] on the keys used by the learners: floats (IEEE
    equality), integers, and tuples (equal lengths and equal entries). *)
Class PyEq (K : Type) : Type := py_eqb : K -> K -> bool.
#[export] Instance float_pyeq : PyEq float := PrimFloat.eqb.
#[export] Instance nat_pyeq : PyEq nat := Nat.eqb.
Fixpoint tuple_eqb {K} `{PyEq K} (x y : list K) : bool :=
  match x, y with
  | [], [] => true
  | a :: x', b :: y' => py_eqb a b && tuple_eqb x' y'
  | _, _ => false
  end.
#[export] Instance tuple_pyeq {K} `{PyEq K} : PyEq (list K) := tuple_eqb.

(** A [dict], in insertion order.  A key that is looked up is compared
    with the stored keys. *)
Definition dict (K V : Type) : Type := list (K * V).

Section Dict.
Context {K V : Type} `{PyEq K}.

Definition dict_mem (k : K) (d : dict K V) : bool :=
  existsb (fun kv => py_eqb kv.1 k) d.

Definition dict_get (k : K) (d : dict K V) : option V :=
  snd <$> find (fun kv => py_eqb kv.1 k) d.

(** [d[k] = v]. *)
Fixpoint dict_set (k : K) (v : V) (d : dict K V) : dict K V :=
  match d with
  | [] => [(k, v)]
  | (k', v') :: d' =>
      if py_eqb k' k then (k', v) :: d' else (k', v') :: dict_set k v d'
  end.

(** [d.pop(k, None)], the dictionary that is left. *)
Definition dict_remove (k : K) (d : dict K V) : dict K V :=
  List.filter (fun kv => negb (py_eqb kv.1 k)) d.
End Dict.

Section Set_.
Context {K : Type} `{PyEq K}.

(** A [set]. *)
Definition set_mem (x : K) (s : list K) : bool :=
  existsb (fun y => py_eqb y x) s.
Definition set_add (x : K) (s : list K) : list K :=
  if set_mem x s then s else s ++ [x].
Definition set_discard (x : K) (s : list K) : list K :=
  List.filter (fun y => negb (py_eqb y x)) s.
(** [s.update(l)] and [set.union]. *)
Definition set_update (s l : list K) : list K := foldl (fun s x => set_add x s) s l.

(** [list.remove(x)]: drops the first entry equal to [x]. *)
Fixpoint list_remove (x : K) (l : list K) : list K :=
  match l with
  | [] => []
  | y :: l' => if py_eqb y x then l' else y :: list_remove x l'
  end.
End Set_.

(** Objects are compared by identity: membership of a handle. *)
Definition obj_mem (h : nat) (l : list nat) : bool := existsb (Nat.eqb h) l.
Definition obj_discard (h : nat) (l : list nat) : list nat :=
  List.filter (fun k => negb (k =? h)%nat) l.

(** [SortedSet(key=...)] of objects: [add] inserts a new object after the
    entries whose key is not greater (the [bisect_right] position). *)
Fixpoint sorted_insert {K} (lt : K -> K -> bool) (key : nat -> K) (h : nat)
    (l : list nat) : list nat :=
  match l with
  | [] => [h]
  | k :: l' => if lt (key h) (key k) then h :: l else k :: sorted_insert lt key h l'
  end.
Definition sorted_add {K} (lt : K -> K -> bool) (key : nat -> K) (h : nat)
    (l : list nat) : list nat :=
  if obj_mem h l then l else sorted_insert lt key h l.

End Coll.

Export Coll.

(** ** The integrator learner *)

Module IntegratorLearner.

(** The attributes of an [IntegratorLearner], and the store of its
    [Interval] objects.  [function] is never called by the learner and is
    left out.  [ivals] is the [SortedSet] of intervals in ascending [err];
    [x_mapping] maps an abscissa to its intervals in ascending [rdepth]. *)
Record t : Type := mk {
  bounds : float * float;
  tol : option float;
  rtol : option float;
  priority_split : list nat;
  ivals : list nat;
  done_points : dict float float;
  not_done_points : list float;
  _stack : list float;
  _err_final : float;
  _igral_final : float;
  x_mapping : dict float (list nat);
  first_ival : nat;
  _complete_branches : list nat;
  heap : Interval.heap
}.

Definition set_priority_split (x : list nat) (s : t) : t :=
  mk (bounds s) (tol s) (rtol s) x (ivals s) (done_points s) (not_done_points s)
     (_stack s) (_err_final s) (_igral_final s) (x_mapping s) (first_ival s)
     (_complete_branches s) (heap s).
Definition set_ivals (x : list nat) (s : t) : t :=
  mk (bounds s) (tol s) (rtol s) (priority_split s) x (done_points s) (not_done_points s)
     (_stack s) (_err_final s) (_igral_final s) (x_mapping s) (first_ival s)
     (_complete_branches s) (heap s).
Definition set_done_points (x : dict float float) (s : t) : t :=
  mk (bounds s) (tol s) (rtol s) (priority_split s) (ivals s) x (not_done_points s)
     (_stack s) (_err_final s) (_igral_final s) (x_mapping s) (first_ival s)
     (_complete_branches s) (heap s).
Definition set_not_done_points (x : list float) (s : t) : t :=
  mk (bounds s) (tol s) (rtol s) (priority_split s) (ivals s) (done_points s) x
     (_stack s) (_err_final s) (_igral_final s) (x_mapping s) (first_ival s)
     (_complete_branches s) (heap s).
Definition set__stack (x : list float) (s : t) : t :=
  mk (bounds s) (tol s) (rtol s) (priority_split s) (ivals s) (done_points s)
     (not_done_points s) x (_err_final s) (_igral_final s) (x_mapping s) (first_ival s)
     (_complete_branches s) (heap s).
Definition set__err_final (x : float) (s : t) : t :=
  mk (bounds s) (tol s) (rtol s) (priority_split s) (ivals s) (done_points s)
     (not_done_points s) (_stack s) x (_igral_final s) (x_mapping s) (first_ival s)
     (_complete_branches s) (heap s).
Definition set__igral_final (x : float) (s : t) : t :=
  mk (bounds s) (tol s) (rtol s) (priority_split s) (ivals s) (done_points s)
     (not_done_points s) (_stack s) (_err_final s) x (x_mapping s) (first_ival s)
     (_complete_branches s) (heap s).
Definition set_x_mapping (x : dict float (list nat)) (s : t) : t :=
  mk (bounds s) (tol s) (rtol s) (priority_split s) (ivals s) (done_points s)
     (not_done_points s) (_stack s) (_err_final s) (_igral_final s) x (first_ival s)
     (_complete_branches s) (heap s).
Definition set_first_ival (x : nat) (s : t) : t :=
  mk (bounds s) (tol s) (rtol s) (priority_split s) (ivals s) (done_points s)
     (not_done_points s) (_stack s) (_err_final s) (_igral_final s) (x_mapping s) x
     (_complete_branches s) (heap s).
Definition set__complete_branches (x : list nat) (s : t) : t :=
  mk (bounds s) (tol s) (rtol s) (priority_split s) (ivals s) (done_points s)
     (not_done_points s) (_stack s) (_err_final s) (_igral_final s) (x_mapping s)
     (first_ival s) x (heap s).
Definition set_heap (x : Interval.heap) (s : t) : t :=
  mk (bounds s) (tol s) (rtol s) (priority_split s) (ivals s) (done_points s)
     (not_done_points s) (_stack s) (_err_final s) (_igral_final s) (x_mapping s)
     (first_ival s) (_complete_branches s) x.

(** Access to the interval objects. *)
Definition get_ival (h : nat) : M t Interval.t :=
  gets (fun s => Interval.lookup (heap s) h).
Definition upd_ival (h : nat) (f : Interval.t -> Interval.t) : M t unit :=
  modify (fun s => set_heap (alter f h (heap s)) s).
Definition put_ival (h : nat) (i : Interval.t) : M t unit := upd_ival h (fun _ => i).
Definition new_ival (i : Interval.t) : M t nat :=
  fun s => let '(h, hp) := Interval.alloc i (heap s) in Ok (set_heap hp s) h.

(** The keys of the two sorted sets, read from the objects. *)
Definition err_of (s : t) (h : nat) : float := Interval.err (Interval.lookup (heap s) h).
Definition rdepth_of (s : t) (h : nat) : nat := Interval.rdepth (Interval.lookup (heap s) h).

(** [self.ivals.add(ival)] and [self.ivals.discard(ival)]. *)
Definition ivals_add (h : nat) : M t unit :=
  modify (fun s => set_ivals (sorted_add PrimFloat.ltb (err_of s) h (ivals s)) s).
Definition ivals_discard (h : nat) : M t unit :=
  modify (fun s => set_ivals (obj_discard h (ivals s)) s).

(** [self.x_mapping[x]]: the [defaultdict] creates an empty entry for a
    key that is missing. *)
Definition x_mapping_get (x : float) : M t (list nat) :=
  let* xm := gets x_mapping in
  match dict_get x xm with
  | Some ivs => ret ivs
  | None => modify (set_x_mapping (dict_set x [] xm)) ;; ret []
  end.

(** [self.x_mapping[x].add(ival)]. *)
Definition x_mapping_add (x : float) (h : nat) : M t unit :=
  let* ivs := x_mapping_get x in
  modify (fun s =>
    set_x_mapping (dict_set x (sorted_add Nat.ltb (rdepth_of s) h ivs) (x_mapping s)) s).

Section Methods.
Context {CO : Coeffs} {LA : LinAlg}.

(** The loop of [complete_process] that updates the error estimates of
    the ancestors; the fuel bounds the length of the chain of parents. *)
Fixpoint update_ancestors (fuel : nat) (o : option nat) {struct fuel} : M t unit :=
  match o with
  | None => ret tt
  | Some p =>
      match fuel with
      | 0 => out_of_fuel
      | S fuel' =>
          let* pv := get_ival p in
          let* hp := gets heap in
          let children_err :=
            sum (map (fun k => Interval.est_err (Interval.lookup hp k))
                     (Interval.children pv)) in
          if isfinite children_err
          then upd_ival p (Interval.set_est_err children_err) ;;
               update_ancestors fuel' (Interval.parent pv)
          else ret tt
      end
  end.

(** [Interval.complete_process()]: returns [(force_split, remove)]. *)
Definition complete_process (h : nat) : M t (bool * bool) :=
  let* iv := get_ival h in
  let* force_split :=
    match Interval.parent iv with
    | None =>
        let '(iv', e) := Interval.process_make_first iv in
        put_ival h iv' ;;
        match e with Some e => raise e | None => ret false end
    | Some p =>
        let* pv := get_ival p in
        if (Interval.rdepth pv <? Interval.rdepth iv)%nat
        then
          let '(iv', e) := Interval.process_split h pv iv in
          put_ival h iv' ;;
          match e with Some e => raise e | None => ret false end
        else
          let '(iv', fs) := Interval.process_refine iv in
          put_ival h iv' ;; ret fs
    end in
  let* iv := get_ival h in
  (if isinf (Interval.est_err iv)
   then upd_ival h (Interval.set_est_err (Interval.err iv)) else ret tt) ;;
  let* n := gets (fun s => length (heap s)) in
  update_ancestors n (Interval.parent iv) ;;
  let* iv := get_ival h in
  match Interval.igral iv with
  | None => raise TypeError
  | Some ig =>
      let remove :=
        (Interval.err iv <? PrimFloat.abs ig * eps * Vcond (Interval.depth iv))%float in
      ret (if remove then false else force_split, remove)
  end.

(** The body of the loop of [add_point] for one interval of
    [x_mapping[point]]. *)
Definition deposit (point value : float) (h : nat) : M t unit :=
  upd_ival h (fun iv =>
    Interval.set_done_points (Interval.sd_set point value (Interval.done_points iv)) iv) ;;
  let* iv := get_ival h in
  if Interval.complete iv && negb (Interval.done iv) && negb (Interval.discard iv)
  then
    let* in_ivals := gets (fun s => obj_mem h (ivals s)) in
    ivals_discard h ;;
    let* (force_split, remove) := complete_process h in
    (if remove : bool
     then
       let* iv := get_ival h in
       modify (fun s => set__err_final (_err_final s + Interval.err iv)%float s) ;;
       match Interval.igral iv with
       | Some ig => modify (fun s => set__igral_final (_igral_final s + ig)%float s)
       | None => raise TypeError
       end
     else if in_ivals : bool then ivals_add h else ret tt) ;;
    (if force_split : bool
     then modify (fun s => set_priority_split (priority_split s ++ [h]) s)
     else ret tt)
  else ret tt.

(** The assignments of [add_point] that record the value of a known
    point. *)
Definition record_point (point value : float) (s : t) : t :=
  set_not_done_points (set_discard point (not_done_points s))
    (set_done_points (dict_set point value (done_points s)) s).

(** [add_point(point, value)], the integrator's [tell]. *)
Definition add_point (point value : float) : M t unit :=
  let* xm := gets x_mapping in
  if negb (dict_mem point xm) then raise (ValueError_unknown_point point) else
  modify (record_point point value) ;;
  let* ivs := x_mapping_get point in
  for_each ivs (deposit point value).

(** The body of the loop of [_update_ival] for one abscissa. *)
Definition register (h : nat) (x : float) : M t unit :=
  x_mapping_add x h ;;
  let* dp := gets done_points in
  match dict_get x dp with
  | Some v => add_point x v
  | None =>
      let* nd := gets not_done_points in
      if set_mem x nd then ret tt
      else modify (fun s => set__stack (_stack s ++ [x])
                              (set_not_done_points (set_add x (not_done_points s)) s))
  end.

(** [_update_ival(ival, points)]. *)
Definition _update_ival (h : nat) (points : vec) : M t unit :=
  let* iv := get_ival h in
  if Interval.discard iv then raise AssertionError else
  for_each points (register h) ;;
  ivals_add h.

(** The loop [for point in self._stack] of [_discard], which removes
    entries of the list it iterates over: the list iterator advances by
    position, so the entry that follows a removed one is skipped. *)
Fixpoint prune_stack (fuel : nat) (pos : nat) : M t unit :=
  match fuel with
  | 0 => out_of_fuel
  | S fuel' =>
      let* st := gets _stack in
      match st !! pos with
      | None => ret tt
      | Some point =>
          let* ivs := x_mapping_get point in
          let* hp := gets heap in
          (if forallb (fun k => Interval.discard (Interval.lookup hp k)) ivs
           then modify (set__stack (list_remove point st)) else ret tt) ;;
          prune_stack fuel' (S pos)
      end
  end.

(** The local function [_discard] of [set_discard]; the fuel bounds the
    depth of the recursion through the children. *)
Fixpoint _discard (fuel : nat) (h : nat) : M t unit :=
  match fuel with
  | 0 => out_of_fuel
  | S fuel' =>
      upd_ival h (Interval.set_discard true) ;;
      ivals_discard h ;;
      (let* st := gets _stack in prune_stack (S (length st)) 0) ;;
      let* iv := get_ival h in
      for_each (Interval.children iv) (_discard fuel')
  end.

Definition set_discard (h : nat) : M t unit :=
  let* n := gets (fun s => length (heap s)) in
  _discard (S n) h.

(** [pop_from_stack(n)]. *)
Definition pop_from_stack (n : nat) : M t (vec * vec) :=
  let* st := gets _stack in
  let points := take n st in
  modify (set__stack (drop n st)) ;;
  let* loss_improvements :=
    map_m (fun x =>
             let* ivs := x_mapping_get x in
             let* s := get in
             match max_of (map (err_of s) ivs) with
             | Some m => ret m
             | None => raise ValueError_empty_max
             end) points in
  ret (points, loss_improvements).

(** [remove_unfinished()]: the body is [pass]. *)
Definition remove_unfinished : M t unit := ret tt.

(** [Interval.refine()]: the new child and its points. *)
Definition refine (h : nat) : M t (nat * vec) :=
  let* iv := get_ival h in
  let child := Interval.refine_child h iv in
  let* k := new_ival child in
  upd_ival h (Interval.set_children [k]) ;;
  ret (k, Interval.points child (Interval.depth child)).

(** [Interval.split()]: the two new children.  [self.children] is
    assigned before the loop in which [self.tol / sqrt(2)] may raise. *)
Definition split (h : nat) : M t (list nat) :=
  let* iv := get_ival h in
  let m := Interval.split_point iv in
  match Interval.tol iv with
  | None =>
      let* k1 := new_ival (Interval.bare (Interval.a iv) m) in
      let* k2 := new_ival (Interval.bare m (Interval.b iv)) in
      upd_ival h (Interval.set_children [k1; k2]) ;;
      raise TypeError
  | Some tl =>
      let* k1 := new_ival (Interval.split_child h iv tl (Interval.a iv) m) in
      let* k2 := new_ival (Interval.split_child h iv tl m (Interval.b iv)) in
      upd_ival h (Interval.set_children [k1; k2]) ;;
      ret [k1; k2]
  end.

(** [points[1] <= points[0] or points[-1] <= points[-2]]. *)
Definition reached_machine_tol (points : vec) : bool :=
  let n := length points in
  (at_ points 1 <=? at_ points 0)%float
  || (at_ points (n - 1) <=? at_ points (n - 2))%float.

(** [_fill_stack()]. *)
Definition _fill_stack : M t unit :=
  let* ps := gets priority_split in
  let* (h, force_split) :=
    match last ps with
    | Some h =>
        modify (set_priority_split (removelast ps)) ;;
        let* iv := get_ival h in
        for_each (Interval.children iv) set_discard ;;
        ret (h, true)
    | None =>
        let* ivs := gets ivals in
        match last ivs with
        | None => raise IndexError
        | Some h =>
            let* iv := get_ival h in
            match Interval.children iv with
            | [] => ret (h, false)
            | _ => raise AssertionError
            end
        end
    end in
  ivals_discard h ;;
  let* iv := get_ival h in
  let points := Interval.points iv (Interval.depth iv) in
  (if negb (Interval.discard iv) && negb (reached_machine_tol points)
   then
     if (Interval.depth iv =? 3)%nat || force_split
     then
       let* ks := split h in
       for_each ks (fun k =>
         let* kv := get_ival k in
         _update_ival k (Interval.points kv 0))
     else
       let* (k, pts) := refine h in
       _update_ival k pts
   else ret tt) ;;
  let* ivs := gets ivals in
  if (1000 <? length ivs)%nat then modify (set_ivals (drop 1 ivs)) else ret tt.

(** [choose_points(n)], the integrator's [ask]; the fuel bounds the
    number of passes of the [while] loop. *)
Fixpoint choose_loop (fuel : nat) (n_left : nat) (acc : vec * vec) : M t (vec * vec) :=
  match n_left with
  | 0 => ret acc
  | _ =>
      match fuel with
      | 0 => out_of_fuel
      | S fuel' =>
          _fill_stack ;;
          let* (new_points, new_loss_improvements) := pop_from_stack n_left in
          choose_loop fuel' (n_left - length new_points)
            (acc.1 ++ new_points, acc.2 ++ new_loss_improvements)
      end
  end.

Definition choose_points (fuel : nat) (n : nat) : M t (vec * vec) :=
  let* (points, loss_improvements) := pop_from_stack n in
  choose_loop fuel (n - length points) (points, loss_improvements).

(** The local function [_find_deepest] of [deepest_complete_branches],
    returning the intervals it appends; the store is only read.  [None]
    when the fuel, which bounds the depth of the recursion, runs out. *)
Fixpoint _find_deepest (fuel : nat) (hp : Interval.heap) (h : nat) : option (list nat) :=
  match fuel with
  | 0 => None
  | S fuel' =>
      let iv := Interval.lookup hp h in
      let children_err :=
        match Interval.children iv with
        | [] => inf
        | ks => sum (map (fun k => Interval.est_err (Interval.lookup hp k)) ks)
        end in
      if isfinite (Interval.est_err iv) && isinf children_err
      then Some [h]
      else @concat nat <$> mapM (_find_deepest fuel' hp) (Interval.children iv)
  end.

Definition deepest_complete_branches (hp : Interval.heap) (h : nat) : option (list nat) :=
  _find_deepest (S (length hp)) hp h.

(** The loop of the property [complete_branches] over the cached
    branches. *)
Fixpoint branches_loop (hp : Interval.heap) (first : nat) (cached acc : list nat)
  : option (list nat) :=
  match cached with
  | [] => Some acc
  | h :: cached' =>
      let iv := Interval.lookup hp h in
      if Interval.discard iv then deepest_complete_branches hp first
      else
        match Interval.children iv with
        | [] => branches_loop hp first cached' (acc ++ [h])
        | _ =>
            match deepest_complete_branches hp h with
            | Some r => branches_loop hp first cached' (acc ++ r)
            | None => None
            end
        end
  end.

(** The property [complete_branches]; it updates the cache
    [_complete_branches]. *)
Definition complete_branches : M t (list nat) :=
  let* s := get in
  if negb (Interval.done (Interval.lookup (heap s) (first_ival s))) then ret [] else
  (match _complete_branches s with
   | [] => modify (set__complete_branches [first_ival s])
   | _ => ret tt
   end) ;;
  let* cached := gets _complete_branches in
  match branches_loop (heap s) (first_ival s) cached [] with
  | None => out_of_fuel
  | Some r => modify (set__complete_branches r) ;; ret r
  end.

(** The property [nr_points]. *)
Definition nr_points (s : t) : nat := length (done_points s).

(** The property [igral]: [sum(i.igral for i in self.complete_branches)]. *)
Definition igral : M t float :=
  let* brs := complete_branches in
  let* hp := gets heap in
  match mapM (fun h => Interval.igral (Interval.lookup hp h)) brs with
  | Some l => ret (sum l)
  | None => raise TypeError
  end.

(** The property [err]. *)
Definition err : M t float :=
  let* brs := complete_branches in
  match brs with
  | [] => ret inf
  | _ => let* s := get in ret (sum (map (err_of s) brs))
  end.

(** One of the two tests of [done()], for the threshold [th]. *)
Definition within (s : t) (err th : float) : bool :=
  (err =? 0)%float
  || (err <? th)%float
  || (gtb (_err_final s) th && (err - _err_final s <? th)%float)
  || match ivals s with [] => true | _ => false end.

(** [done()]. *)
Definition done : M t bool :=
  let* err := err in
  let* igral := igral in
  let* s := get in
  let is_done :=
    match tol s with Some tl => within s err tl | None => true end in
  let is_rdone :=
    match rtol s with
    | Some rt => within s err (PrimFloat.abs igral * rt)%float
    | None => true
    end in
  ret (is_done && is_rdone).

(** [loss(real=True)]: [abs(abs(self.igral) * self.tol - self.err)]. *)
Definition loss : M t float :=
  let* ig := igral in
  let* tl := gets tol in
  match tl with
  | None => raise TypeError
  | Some tl => let* e := err in ret (PrimFloat.abs (PrimFloat.abs ig * tl - e)%float)
  end.

(** The learner after the assignments of [__init__] that precede
    [make_first]. *)
Definition empty (bounds : float * float) (tol rtol : option float) : t :=
  mk bounds tol rtol [] [] [] [] [] 0%float 0%float [] 0 [] [].

(** [Interval.make_first(a, b, tol)]. *)
Definition make_first (a b : float) (tol : option float) : M t (nat * vec) :=
  let iv := Interval.new a b Interval.c_zeros (zeros (ns_at 3)) 3 inf tol 1 0 None in
  let* h := new_ival iv in
  ret (h, Interval.points iv 3).

(** [IntegratorLearner(function, bounds, tol, rtol)]. *)
Definition init (bounds : float * float) (tol rtol : option float) : outcome t unit :=
  match tol, rtol with
  | None, None => Raise (empty bounds tol rtol) ValueError_no_tolerance
  | _, _ =>
      (let* (h, points) := make_first bounds.1 bounds.2 tol in
       _update_ival h points ;;
       modify (set_first_ival h) ;;
       modify (set__complete_branches [])) (empty bounds tol rtol)
  end.

End Methods.
End IntegratorLearner.

(** ** The triangulating learner: values and external routines *)

Module Geometry.

(** A point is a tuple of floats, a simplex a tuple of vertex indices. *)
Definition point : Type := list float.
Definition simplex : Type := list nat.

(** A value of the learnt function, and more generally a numpy result: a
    real number or an array. *)
Inductive value : Type :=
| Scalar (x : float)
| Vector (v : vec).

(** [float(x)]: defined on a scalar and on an array of one entry. *)
Definition float_ (x : value) : option float :=
  match x with
  | Scalar x => Some x
  | Vector [x] => Some x
  | Vector _ => None
  end.

(** The conversion of a Python integer to a float, rounded to nearest. *)
Definition float_of_nat (n : nat) : float :=
  FloatOps.SF2Prim (binary_normalize FloatOps.prec FloatOps.emax (Z.of_nat n) 0 false).

(** Modelled from the spec: the geometric primitive [Triangulation] of the
    module [triangulation], with the operations of its contract.  The
    object is mutable in the source; here [add_point] returns the
    triangulation it leaves together with [(to_delete, to_add)]. *)
Class Primitive : Type := {
  Tri : Type;
  Triangulation : list point -> Tri;
  tri_add_point : Tri -> point -> option simplex -> option matrix
                  -> Tri * (list simplex * list simplex);
  locate_point : Tri -> point -> simplex;
  point_in_simplex : Tri -> point -> simplex -> bool;
  get_vertices : Tri -> simplex -> list point;
  vertex_to_simplices : Tri -> nat -> list simplex;
  tri_volume : Tri -> simplex -> float;
  simplices : Tri -> list simplex;
  vertices : Tri -> list point
}.

(** The routines of numpy and scipy that the learner calls. *)
Class Numpy : Type := {
  linalg_det : matrix -> float;          (* np.linalg.det *)
  linalg_norm : value -> float;          (* np.linalg.norm *)
  np_std : list value -> value;          (* np.std(ys, axis=0) *)
  np_power : float -> float -> float;    (* np.power *)
  linalg_matrix_rank : matrix -> nat;    (* np.linalg.matrix_rank *)
  delaunay_first : list point -> simplex; (* Delaunay(pts).simplices[0] *)
  np_dot : matrix -> matrix -> matrix;   (* np.dot *)
  pdist : matrix -> vec;                 (* scipy.spatial.distance.pdist *)
  linalg_solve : matrix -> vec -> vec;   (* np.linalg.solve *)
  linalg_inv : matrix -> option matrix   (* np.linalg.inv; None: LinAlgError *)
}.

(** [random.Random]: the generator seeded by an integer, and [random()]. *)
Class Random : Type := {
  rng : Type;
  Random_seed : Z -> rng;
  random : rng -> float * rng
}.

Section Functions.
Context {NP : Numpy}.

(** [find_initial_simplex(pts, ndim)]. *)
Definition find_initial_simplex (pts : list point) (ndim : nat) : option simplex :=
  let origin := default [] (head pts) in
  let vecs := map (fun p => vsub p origin) (tail pts) in
  if (linalg_matrix_rank vecs <? ndim)%nat then None
  else Some (delaunay_first pts).

(** numpy accepts the list of vertices as a [dim x dim] matrix of edge
    vectors only if there are [dim + 1 >= 2] vertices of [dim]
    coordinates each; otherwise [volume] raises. *)
Definition well_shaped (simplex : list point) : bool :=
  let dim := (length simplex - 1)%nat in
  (0 <? dim)%nat && forallb (fun v => (length v =? dim)%nat) simplex.

(** [volume(simplex)]; [None] when it raises. *)
Definition volume (simplex : list point) : option float :=
  if well_shaped simplex then
    let v_last := default [] (last simplex) in
    let matrix := map (fun v => vsub v v_last) (removelast simplex) in
    let dim := (length simplex - 1)%nat in
    Some (PrimFloat.abs (linalg_det matrix) / float_of_nat (fact dim))%float
  else None.

(** [uniform_loss(simplex, ys)]. *)
Definition uniform_loss (simplex : list point) (ys : list value) : option value :=
  Scalar <$> volume simplex.

(** [std_loss(simplex, ys)].  The product with [r.flat] makes the result
    an array of one entry. *)
Definition std_loss (simplex : list point) (ys : list value) : option value :=
  let r := linalg_norm (np_std ys) in
  match volume simplex with
  | None => None
  | Some vol =>
      let dim := (length simplex - 1)%nat in
      Some (Vector [(r * np_power vol (1 / float_of_nat dim) + vol)%float])
  end.

Definition default_loss (simplex : list point) (ys : list value) : option value :=
  std_loss simplex ys.

(** [squareform(distances)[i, j]] for [n] points. *)
Definition squareform_at (n : nat) (distances : vec) (i j : nat) : float :=
  if (i =? j)%nat then 0%float
  else
    let lo := Nat.min i j in
    let hi := Nat.max i j in
    at_ distances (n * lo - lo * (lo + 1) / 2 + (hi - lo - 1)).

(** [np.argmax] of a flat array: the first index of a maximal entry, a
    NaN counting as maximal. *)
Fixpoint argmax_from (i best : nat) (bv : float) (l : vec) : nat :=
  match l with
  | [] => best
  | x :: l' =>
      if PrimFloat.is_nan bv then best
      else if PrimFloat.is_nan x || (bv <? x)%float then argmax_from (S i) i x l'
      else argmax_from (S i) best bv l'
  end.
Definition argmax (l : vec) : nat :=
  match l with
  | [] => 0
  | x :: l' => argmax_from 1 0 x l'
  end.

(** [choose_point_in_simplex(simplex, transform)], with the transform
    that the learner always passes. *)
Definition choose_point_in_simplex (simplex : list point) (transform : matrix) : point :=
  let simplex := np_dot simplex transform in
  let n := length simplex in
  let distances := pdist simplex in
  let flat := flat_map (fun i => map (squareform_at n distances i) (seq 0 n)) (seq 0 n) in
  let k := argmax flat in
  let i := (k / n)%nat in
  let j := (k mod n)%nat in
  let point := zip_with (fun x y => ((x + y) / 2)%float) (row simplex i) (row simplex j) in
  linalg_solve transform point.

(** The default loss in the words of the specification:
    [‖std(values, axis=0)‖₂ · volume^(1/dim) + volume], where
    [volume = |det(M)| / dim!] and [M] is the [dim × dim] matrix of the
    edge vectors from the last vertex (vertex [dim]) to the vertices
    [0 .. dim-1]. *)
Definition edge_matrix_spec (dim : nat) (simplex : list point) : matrix :=
  map (fun i => vsub (default [] (simplex !! i)) (default [] (simplex !! dim)))
      (seq 0 dim).

Definition volume_spec (dim : nat) (simplex : list point) : float :=
  (PrimFloat.abs (linalg_det (edge_matrix_spec dim simplex)) / float_of_nat (fact dim))%float.

Definition std_loss_spec (dim : nat) (simplex : list point) (values : list value) : float :=
  (linalg_norm (np_std values)
   * np_power (volume_spec dim simplex) (1 / float_of_nat dim)
   + volume_spec dim simplex)%float.

End Functions.
End Geometry.

Export Geometry.

(** ** The triangulating learner *)

Module TriangulatingLearner.

(** [sorted(simplex)] on vertex indices. *)
Fixpoint insert_sorted (x : nat) (l : list nat) : list nat :=
  match l with
  | [] => [x]
  | y :: l' => if (x <=? y)%nat then x :: l else y :: insert_sorted x l'
  end.
Definition sorted (l : list nat) : list nat := foldr insert_sorted [] l.

(** Python's [<] on tuples of integers. *)
Fixpoint simplex_ltb (x y : simplex) : bool :=
  match x, y with
  | [], [] => false
  | [], _ :: _ => true
  | _ :: _, [] => false
  | a :: x', b :: y' => if (a =? b)%nat then simplex_ltb x' y' else (a <? b)%nat
  end.

(** [heapq] on a list of tuples: only the least entry is ever read or
    popped, so a heap is kept as the list of its entries, and the least
    entry is the first one that no other entry is below. *)
Section Heap.
Context {A : Type} (lt : A -> A -> bool).
Definition heap_top (h : list A) : option A :=
  match h with
  | [] => None
  | x :: h' => Some (foldl (fun m y => if lt y m then y else m) x h')
  end.
Fixpoint remove_first (eqb : A -> A -> bool) (x : A) (h : list A) : list A :=
  match h with
  | [] => []
  | y :: h' => if eqb y x then h' else y :: remove_first eqb x h'
  end.
End Heap.

(** The entries [(-v, k)] of [losses] and [(pend_loss, simplex,
    pend_simplex)] of [pending_losses], with the order of tuples. *)
Definition loss_entry : Type := float * simplex.
Definition loss_entry_ltb (x y : loss_entry) : bool :=
  if (x.1 =? y.1)%float then simplex_ltb x.2 y.2 else (x.1 <? y.1)%float.
Definition loss_entry_same (x y : loss_entry) : bool :=
  negb (loss_entry_ltb x y) && negb (loss_entry_ltb y x).
Definition heappop (h : list loss_entry) : option (loss_entry * list loss_entry) :=
  match heap_top loss_entry_ltb h with
  | None => None
  | Some x => Some (x, remove_first loss_entry_same x h)
  end.

Definition pend_entry : Type := float * simplex * simplex.
Definition pend_entry_ltb (x y : pend_entry) : bool :=
  if (x.1.1 =? y.1.1)%float
  then if py_eqb x.1.2 y.1.2 then simplex_ltb x.2 y.2 else simplex_ltb x.1.2 y.1.2
  else (x.1.1 <? y.1.1)%float.

(** [itertools.product] of the bounds of all dimensions. *)
Fixpoint product (ls : list (list float)) : list point :=
  match ls with
  | [] => [[]]
  | l :: ls' => flat_map (fun x => map (cons x) (product ls')) l
  end.

Section Learner.
Context {PR : Primitive} {NP : Numpy} {RN : Random}.

(** The attributes of a [TriangulatingLearner].  [function] is never
    called by the learner, and [_vdim] is read by the plots only; both
    are left out. *)
Record t : Type := mk {
  ndim : nat;
  loss_per_simplex : list point -> list value -> option value;
  bounds : list (float * float);
  data : dict point value;
  _pending : list point;
  _bounds_points : list point;
  _tri : option Tri;
  _losses : dict simplex float;
  _pending_to_simplex : dict point simplex;
  _subtriangulations : dict simplex Tri;
  _transform : matrix;
  _random : rng
}.

Definition set_data (x : dict point value) (s : t) : t :=
  mk (ndim s) (loss_per_simplex s) (bounds s) x (_pending s) (_bounds_points s)
     (_tri s) (_losses s) (_pending_to_simplex s) (_subtriangulations s)
     (_transform s) (_random s).
Definition set__pending (x : list point) (s : t) : t :=
  mk (ndim s) (loss_per_simplex s) (bounds s) (data s) x (_bounds_points s)
     (_tri s) (_losses s) (_pending_to_simplex s) (_subtriangulations s)
     (_transform s) (_random s).
Definition set__tri (x : option Tri) (s : t) : t :=
  mk (ndim s) (loss_per_simplex s) (bounds s) (data s) (_pending s) (_bounds_points s)
     x (_losses s) (_pending_to_simplex s) (_subtriangulations s)
     (_transform s) (_random s).
Definition set__losses (x : dict simplex float) (s : t) : t :=
  mk (ndim s) (loss_per_simplex s) (bounds s) (data s) (_pending s) (_bounds_points s)
     (_tri s) x (_pending_to_simplex s) (_subtriangulations s)
     (_transform s) (_random s).
Definition set__pending_to_simplex (x : dict point simplex) (s : t) : t :=
  mk (ndim s) (loss_per_simplex s) (bounds s) (data s) (_pending s) (_bounds_points s)
     (_tri s) (_losses s) x (_subtriangulations s) (_transform s) (_random s).
Definition set__subtriangulations (x : dict simplex Tri) (s : t) : t :=
  mk (ndim s) (loss_per_simplex s) (bounds s) (data s) (_pending s) (_bounds_points s)
     (_tri s) (_losses s) (_pending_to_simplex s) x (_transform s) (_random s).
Definition set__random (x : rng) (s : t) : t :=
  mk (ndim s) (loss_per_simplex s) (bounds s) (data s) (_pending s) (_bounds_points s)
     (_tri s) (_losses s) (_pending_to_simplex s) (_subtriangulations s)
     (_transform s) x.

(** [np.diag(np.diff(bounds).flat)]: the widths of the bounds on the
    diagonal. *)
Definition diag_of_widths (bounds : list (float * float)) : matrix :=
  imap (fun i b => <[i := (b.2 - b.1)%float]> (zeros (length bounds))) bounds.

(** The learner that [__init__] leaves, given the inverse [transform] of
    [diag_of_widths]. *)
Definition make (bounds : list (float * float))
    (loss_per_simplex : option (list point -> list value -> option value))
    (transform : matrix) : t :=
  mk (length bounds)
     (default default_loss loss_per_simplex)
     bounds
     [] []
     (product (map (fun b => [b.1; b.2]) bounds))
     None [] [] []
     transform
     (Random_seed 1).

(** [TriangulatingLearner(func, bounds, loss_per_simplex)]: the learner,
    or the [LinAlgError] that [np.linalg.inv] raises for a singular
    matrix (a dimension of width zero); no learner exists then. *)
Definition init (bounds : list (float * float))
    (loss_per_simplex : option (list point -> list value -> option value)) : exn + t :=
  match linalg_inv (diag_of_widths bounds) with
  | Some transform => inr (make bounds loss_per_simplex transform)
  | None => inl LinAlgError
  end.

(** The property [bounds_are_done]. *)
Definition bounds_are_done (s : t) : bool :=
  forallb (fun p => dict_mem p (data s)) (_bounds_points s).

(** The property [points]. *)
Definition points (s : t) : list point := (data s).*1.

(** The property [tri].  When it builds the triangulation it stores it
    in [_tri] and falls off the end of the function: the value of that
    access is [None]. *)
Definition tri : M t (option Tri) :=
  let* s := get in
  match _tri s with
  | Some T => ret (Some T)
  | None =>
      if (length (data s) <? 2)%nat then ret None else
      match find_initial_simplex (points s) (ndim s) with
      | None => ret None
      | Some initial_simplex =>
          let pts := map (fun i => default [] (points s !! i)) initial_simplex in
          let to_add :=
            (List.filter (fun ip => negb (set_mem ip.1 initial_simplex))
                         (imap (fun i p => (i, p)) (points s))).*2 in
          let T :=
            foldl (fun T p => (tri_add_point T p None (Some (_transform s))).1)
                  (Triangulation pts) to_add in
          modify (set__tri (Some T)) ;;
          ret None
      end
  end.

(** [self.tri.attr] where the property may have evaluated to [None]:
    the attribute access then raises. *)
Definition the_tri : M t Tri :=
  let* T := tri in
  match T with
  | Some T => ret T
  | None => raise AttributeError
  end.

(** [_simplex_exists(simplex)]. *)
Definition _simplex_exists (simplex : simplex) : M t bool :=
  let simplex := sorted simplex in
  let* T := the_tri in
  ret (set_mem simplex (simplices T)).

(** The body of the loop of [_tell_pending] for one neighbour.  A new
    triangulation has one simplex, which [next(iter(tr.simplices))]
    reads. *)
Definition place_pending (point : point) (simpl : simplex) : M t unit :=
  let* T := the_tri in
  if point_in_simplex T point simpl then
    let* subtri := gets _subtriangulations in
    match dict_get simpl subtri with
    | None =>
        let* T := the_tri in
        let vertices := get_vertices T simpl in
        let tr := Triangulation vertices in
        let tr := (tri_add_point tr point (head (simplices tr)) None).1 in
        modify (fun s => set__subtriangulations (dict_set simpl tr (_subtriangulations s)) s)
    | Some tr =>
        let tr := (tri_add_point tr point None None).1 in
        modify (fun s => set__subtriangulations (dict_set simpl tr (_subtriangulations s)) s)
    end
  else ret tt.

(** [_tell_pending(point, simplex)].  The set [neighbours] is visited in
    the order in which its members are met. *)
Definition _tell_pending (point : point) (simplex : option simplex) : M t unit :=
  modify (fun s => set__pending (set_add point (_pending s)) s) ;;
  let* T := tri in
  match T with
  | None => ret tt
  | Some _ =>
      let* simplex :=
        match simplex with
        | Some (i :: sx) => ret (i :: sx)
        | _ => let* T := the_tri in ret (locate_point T point)
        end in
      match simplex with
      | [] => ret tt
      | _ =>
          let* simplices := map_m (fun i => let* T := the_tri in
                                           ret (vertex_to_simplices T i)) simplex in
          let neighbours := foldl set_update [] simplices in
          for_each neighbours (place_pending point)
      end
  end.

(** [update_losses(to_delete, to_add)]. *)
Definition update_losses (to_delete to_add : list simplex) : M t unit :=
  let* unbound :=
    fold_m (fun unbound simplex =>
              let* s := get in
              modify (set__losses (dict_remove simplex (_losses s))) ;;
              match dict_get simplex (_subtriangulations s) with
              | None => ret unbound
              | Some subtri =>
                  modify (fun s => set__subtriangulations
                                     (dict_remove simplex (_subtriangulations s)) s) ;;
                  ret (set_update unbound (vertices subtri))
              end) [] to_delete in
  let* s := get in
  let unbound := List.filter (fun p => negb (dict_mem p (data s))) unbound in
  for_each to_add (fun simplex =>
    let* T := the_tri in
    let vertices := get_vertices T simplex in
    let* s := get in
    match mapM (fun v => dict_get v (data s)) vertices with
    | None => raise KeyError
    | Some values =>
        match loss_per_simplex s vertices values with
        | None => raise CallableError
        | Some loss =>
            match float_ loss with
            | None => raise TypeError
            | Some loss =>
                modify (fun s => set__losses (dict_set simplex loss (_losses s)) s) ;;
                for_each unbound (fun p =>
                  let* T := the_tri in
                  if point_in_simplex T p simplex then
                    let* subtri := gets _subtriangulations in
                    let* tr :=
                      match dict_get simplex subtri with
                      | Some tr => ret tr
                      | None => let* T := the_tri in
                                ret (Triangulation (get_vertices T simplex))
                      end in
                    let tr := (tri_add_point tr p None None).1 in
                    modify (fun s =>
                      set__pending_to_simplex (dict_set p simplex (_pending_to_simplex s))
                        (set__subtriangulations
                           (dict_set simplex tr (_subtriangulations s)) s))
                  else ret tt)
            end
        end
    end).

(** The assignments of [tell] that record the value of a new point. *)
Definition record_value (point : point) (value : value) (s : t) : t :=
  set_data (dict_set point value (data s))
    (set__pending (set_discard point (_pending s)) s).

(** [tell(point, value)]; a [None] value marks the point as pending. *)
Definition tell (point : point) (value : option value) : M t unit :=
  let* s := get in
  if dict_mem point (data s) then ret tt else
  match value with
  | None => _tell_pending point None
  | Some value =>
      modify (record_value point value) ;;
      let* T := tri in
      match T with
      | None => ret tt
      | Some _ =>
          let* hint := gets (fun s => dict_get point (_pending_to_simplex s)) in
          let* hint :=
            match hint with
            | None => ret None
            | Some simplex =>
                let* ex := _simplex_exists simplex in
                ret (if ex then Some simplex else None)
            end in
          let* s := get in
          match _tri s with
          | None => raise AttributeError
          | Some T =>
              let '(T, (to_delete, to_add)) :=
                tri_add_point T point hint (Some (_transform s)) in
              modify (set__tri (Some T)) ;;
              update_losses to_delete to_add
          end
      end
  end.

(** [losses()]. *)
Definition losses : M t (dict simplex float) :=
  let* T := tri in
  match T with
  | None => ret []
  | Some _ => gets _losses
  end.

(** [loss(real=True)]. *)
Definition loss : M t float :=
  let* ls := losses in
  ret (default inf (max_of ls.*2)).

(** [remove_unfinished()]. *)
Definition remove_unfinished : M t unit :=
  modify (set__pending []) ;;
  modify (set__subtriangulations []) ;;
  modify (set__pending_to_simplex []).

(** The random point of [_ask]: [r * a + b] with one draw per
    dimension. *)
Definition random_point : M t point :=
  let* s := get in
  let* r := map_m (fun _ : float * float =>
                     let* g := gets _random in
                     let '(x, g) := random g in
                     modify (set__random g) ;; ret x) (bounds s) in
  ret (zip_with (fun x b => (x * (b.2 - b.1) + b.1)%float) r (bounds s)).

(** The end of a pass of the [while] loop of [_ask], once the simplex
    to sample is known: the new point and its loss improvement. *)
Definition sample_simplex (loss : float) (simplex : simplex)
    (pending_losses : list pend_entry) : M t (point * float) :=
  let* T := the_tri in
  let points := get_vertices T simplex in
  let loss := PrimFloat.abs loss in
  let* (points, simplex, loss) :=
    match heap_top pend_entry_ltb pending_losses with
    | None => ret (points, simplex, loss)
    | Some (pend_loss, real_simp, pend_simp) =>
        let pend_loss := PrimFloat.abs pend_loss in
        if gtb pend_loss loss then
          let* subtris := gets _subtriangulations in
          match dict_get real_simp subtris with
          | None => raise KeyError
          | Some subtri => ret (get_vertices subtri pend_simp, real_simp, pend_loss)
          end
        else ret (points, simplex, loss)
    end in
  let* transform := gets _transform in
  let point_new := choose_point_in_simplex points transform in
  modify (fun s =>
    set__pending_to_simplex (dict_set point_new simplex (_pending_to_simplex s)) s) ;;
  _tell_pending point_new (Some simplex) ;;
  ret (point_new, (- loss)%float).

(** The [while] loop of [_ask] for [n = 1]; every pass that does not
    return pops an entry of [losses], which bounds the fuel. *)
Fixpoint ask_loop (fuel : nat) (losses : list loss_entry)
    (pending_losses : list pend_entry) : M t (point * float) :=
  match heappop losses with
  | None => sample_simplex 0 [] pending_losses
  | Some ((loss, simplex), losses) =>
      let* ex := _simplex_exists simplex in
      if negb ex then raise AssertionError else
      let* subtris := gets _subtriangulations in
      match dict_get simplex subtris with
      | None => sample_simplex loss simplex pending_losses
      | Some subtri =>
          match fuel with
          | 0 => out_of_fuel
          | S fuel' =>
              let* T := the_tri in
              let loss_density := (loss / tri_volume T simplex)%float in
              let pushed :=
                map (fun pend_simplex =>
                       ((tri_volume subtri pend_simplex * loss_density)%float,
                        simplex, pend_simplex))
                    (simplices subtri) in
              ask_loop fuel' losses (pending_losses ++ pushed)
          end
      end
  end.

(** [_ask(n=1)]. *)
Definition _ask : M t (point * float) :=
  let* s := get in
  let* new_points :=
    if negb (bounds_are_done s) then
      let bounds_to_do :=
        List.filter (fun p => negb (dict_mem p (data s)) && negb (set_mem p (_pending s)))
                    (_bounds_points s) in
      let new_points := take 1 bounds_to_do in
      for_each new_points (fun p => _tell_pending p None) ;;
      ret new_points
    else ret [] in
  match new_points with
  | p :: _ => ret (p, inf)
  | [] =>
      let* ls := losses in
      let losses := map (fun kv => ((- kv.2)%float, kv.1)) ls in
      match losses with
      | [] => let* p := random_point in ret (p, inf)
      | _ => ask_loop (length losses) losses []
      end
  end.

(** [ask(n)]: [n] calls of [_ask]; unpacking the empty [zip] of
    [ask(0)] raises. *)
Definition ask (n : nat) : M t (list point * vec) :=
  let* rs := map_m (fun _ : nat => _ask) (seq 0 n) in
  match rs with
  | [] => raise ValueError_unpack
  | _ => ret (rs.*1, rs.*2)
  end.

(** The property [npoints]. *)
Definition npoints (s : t) : nat := length (data s).

End Learner.
End TriangulatingLearner.

(** ** Replaying a trace of calls *)

Module Trace.

(** The state in which a call ends, if it ends. *)
Definition final {S A} (o : outcome S A) : option S :=
  match o with
  | Ok s _ => Some s
  | Raise s _ => Some s
  | OutOfFuel => None
  end.

(** What the caller observes of a call. *)
Inductive reply (A : Type) : Type :=
| Returned (x : A)
| Raised (e : exn)
| Diverged.
Arguments Returned {A} x.
Arguments Raised {A} e.
Arguments Diverged {A}.

Definition observe {S A} (o : outcome S A) : reply A :=
  match o with
  | Ok _ x => Returned x
  | Raise _ e => Raised e
  | OutOfFuel => Diverged
  end.

(** A trace is replayed call by call on the learner object; a call that
    raises leaves the object as it was when the exception left it, and
    nothing follows a call that does not end. *)
Fixpoint replay {S C R} (step : C -> S -> outcome S R) (s : S) (calls : list C)
  : list (reply R) * option S :=
  match calls with
  | [] => ([], Some s)
  | c :: calls' =>
      let o := step c s in
      match final o with
      | None => ([observe o], None)
      | Some s' =>
          let '(rs, s'') := replay step s' calls' in
          (observe o :: rs, s'')
      end
  end.

(** The calls of the learner contract on the integrator. *)
Inductive integrator_call : Type :=
| IAsk (fuel : nat) (n : nat)
| ITell (x y : float)
| IRemoveUnfinished
| ILoss
| IDone
| IIgral
| IErr.

Inductive integrator_result : Type :=
| IPoints (points loss_improvements : vec)
| IUnit
| IFloat (x : float)
| IBool (b : bool).

Definition and_then {S A B} (f : A -> B) (m : M S A) : M S B :=
  let* x := m in ret (f x).

Definition integrator_step {CO : Coeffs} {LA : LinAlg} (c : integrator_call)
  : M IntegratorLearner.t integrator_result :=
  match c with
  | IAsk fuel n => and_then (fun r => IPoints r.1 r.2) (IntegratorLearner.choose_points fuel n)
  | ITell x y => and_then (fun _ => IUnit) (IntegratorLearner.add_point x y)
  | IRemoveUnfinished => and_then (fun _ => IUnit) IntegratorLearner.remove_unfinished
  | ILoss => and_then IFloat IntegratorLearner.loss
  | IDone => and_then IBool IntegratorLearner.done
  | IIgral => and_then IFloat IntegratorLearner.igral
  | IErr => and_then IFloat IntegratorLearner.err
  end.

(** The calls of the learner contract on the triangulator. *)
Inductive triangulator_call : Type :=
| TAsk (n : nat)
| TTell (p : point) (v : option value)
| TRemoveUnfinished
| TLoss.

Inductive triangulator_result : Type :=
| TPoints (points : list point) (loss_improvements : vec)
| TUnit
| TFloat (x : float).

Definition triangulator_step {PR : Primitive} {NP : Numpy} {RN : Random}
    (c : triangulator_call) : M TriangulatingLearner.t triangulator_result :=
  match c with
  | TAsk n => and_then (fun r => TPoints r.1 r.2) (TriangulatingLearner.ask n)
  | TTell p v => and_then (fun _ => TUnit) (TriangulatingLearner.tell p v)
  | TRemoveUnfinished => and_then (fun _ => TUnit) TriangulatingLearner.remove_unfinished
  | TLoss => and_then TFloat TriangulatingLearner.loss
  end.

End Trace.

(** ** Instances of the external interfaces

    The statements below hold for all coefficient tables, linear-algebra
    routines, geometric primitives and generators.  To run the model on a
    concrete input, these instances compute with tables of no entries and
    with a one-simplex triangulation that records the points it is given. *)

Module Sample.

#[export] Instance coeffs : Coeffs :=
  {| xi := fun _ => []; V_inv := fun _ => []; Vcond := fun _ => 1%float;
     T_left := []; T_right := []; alpha := []; gamma := []; b_def := fun _ => [] |}.

(** [A @ x] by rows, and the Euclidean norm, summed from the left. *)
#[export] Instance linalg : LinAlg :=
  {| matvec := fun A x => map (fun r => sum (zip_with PrimFloat.mul r x)) A;
     norm := fun x => PrimFloat.sqrt (sum (map (fun a => (a * a)%float) x)) |}.

#[export] Instance primitive : Primitive :=
  {| Tri := list point;
     Triangulation := fun vs => vs;
     tri_add_point := fun T p _ _ => (T ++ [p], ([], []));
     locate_point := fun _ _ => [];
     point_in_simplex := fun _ _ _ => false;
     get_vertices := fun T sx => map (fun i => default [] (T !! i)) sx;
     vertex_to_simplices := fun _ _ => [];
     tri_volume := fun _ _ => 0%float;
     simplices := fun T => [seq 0 (length T)];
     vertices := fun T => T |}.

#[export] Instance numpy : Numpy :=
  {| linalg_det := fun _ => 0%float;
     linalg_norm := fun v => match v with
                             | Scalar x => PrimFloat.abs x
                             | Vector x => norm x
                             end;
     np_std := fun _ => Scalar 0%float;
     np_power := fun x _ => x;
     linalg_matrix_rank := fun m => length m;
     delaunay_first := fun pts => seq 0 (Nat.min (length pts) 3);
     np_dot := fun a _ => a;
     pdist := fun _ => [];
     linalg_solve := fun _ x => x;
     linalg_inv := fun m =>
       if existsb (fun i => (at_ (row m i) i =? 0)%float) (seq 0 (length m)) then None
       else Some (imap (fun i r => <[i := (1 / at_ r i)%float]> (zeros (length m))) m) |}.

(** A generator that counts its draws. *)
#[export] Instance generator : Random :=
  {| rng := Z; Random_seed := fun z => z; random := fun g => (0.5%float, (g + 1)%Z) |}.

End Sample.

Module IL := IntegratorLearner.
Module TL := TriangulatingLearner.

(** ** Example states *)

Module Examples.
Import Sample.
Open Scope float_scope.

(** An integrator on [0, 1] with tolerance 2^-20 before any value is
    told: of the abscissae of its first interval, 0 has been dispensed and
    0.5 and 1 are on the stack. *)
Definition waiting_root : Interval.t :=
  Interval.new 0 1 Interval.c_zeros (zeros 33) 3 inf (Some 0x1p-20) 1 0 None.
Definition waiting : IL.t :=
  IL.mk (0, 1) (Some 0x1p-20) None [] [0%nat] [] [0; 0.5; 1] [0.5; 1] 0 0
        [(0, [0%nat]); (0.5, [0%nat]); (1, [0%nat])] 0 [] [waiting_root].

(** An integrator on [0, 1] whose first interval has all its 33 values
    (the integrand is the constant 1), has been processed with integral
    1 and error 2^-60, and has been retired by [add_point]: the interval
    has left [ivals] and its error and integral have been added to
    [_err_final] and [_igral_final]. *)
Definition samples : list (float * float) :=
  map (fun i => (float_of_nat i / 32, 1)) (seq 0 33).
Definition retired_root : Interval.t :=
  Interval.mk 0 1 (<[3%nat := <[0%nat := sqrt2]> (zeros 33)]> Interval.c_zeros) (zeros 33) 3
              (Some (replicate 33 1)) (Some 1) 0x1p-60 (Some 0x1p-20) 1 0 None []
              samples 0x1p-60 false.
Definition retired : IL.t :=
  IL.mk (0, 1) (Some 0x1p-20) None [] [] samples [] [] 0x1p-60 1
        (map (fun kv => (kv.1, [0%nat])) samples) 0 [] [retired_root].

(** The integrator that the constructor returns for the tables of no
    entries: its first interval has no abscissae. *)
Definition sample_fresh : IL.t :=
  IL.mk (0, 1) (Some 0x1p-20) None [] [0%nat] [] [] [] 0 0 [] 0 []
        [Interval.new 0 1 Interval.c_zeros (zeros 33) 3 inf (Some 0x1p-20) 1 0 None].

(** A triangulator on the unit square, fresh and after the values of two
    corners have been told. *)
Definition square : TL.t := TL.make [(0, 1); (0, 1)] None [[1; 0]; [0; 1]].
Definition two_corners : TL.t :=
  TL.set_data [([0; 0], Scalar 0); ([0; 1], Scalar 0)] square.

End Examples.

(** * Predicates on computations and states *)

Section Computations.
Context {S : Type} (P : S -> Prop).

(** [stable m]: if [P] holds before [m], it holds in the state in which
    [m] returns or raises. *)
Record stable {A} (m : M S A) : Prop := Stable {
  stable_run : forall s, P s ->
    match m s with
    | Ok s' _ => P s'
    | Raise s' _ => P s'
    | OutOfFuel => True
    end
}.

(** [returns m]: from a state where [P] holds, [m] returns (it neither
    raises nor runs out of fuel), in a state where [P] holds. *)
Record returns {A} (m : M S A) : Prop := Returns {
  returns_run : forall s, P s -> exists s' x, m s = Ok s' x /\ P s'
}.

(** [yields Q m]: if [P] holds before [m] and [m] returns [x], then
    [Q x] holds in the state in which it returns. *)
Record yields {A} (Q : A -> S -> Prop) (m : M S A) : Prop := Yields {
  yields_run : forall s, P s ->
    match m s with
    | Ok s' x => Q x s'
    | _ => True
    end
}.

End Computations.

Arguments stable_run {S P A m} _ s _.
Arguments returns_run {S P A m} _ s _.
Arguments yields_run {S P A Q m} _ s _.

Section IntegratorStates.
Context {CO : Coeffs} {LA : LinAlg}.

(** The two attributes and [tol] have the given contents. *)
Definition keeps_points (d : dict float float) (nd : list float) (tl : option float)
    (s : IL.t) : Prop :=
  IL.done_points s = d /\ IL.not_done_points s = nd /\ IL.tol s = tl.

(** No abscissa of [not_done_points] equals a key of [done_points]. *)
Definition disjoint (s : IL.t) : Prop :=
  forall k r, k ∈ (IL.done_points s).*1 -> r ∈ IL.not_done_points s ->
              (k =? r)%float = false.

(** The invariant of the learner: disjointness, and the tolerance it was
    constructed with. *)
Definition inv (tl : option float) (s : IL.t) : Prop :=
  disjoint s /\ IL.tol s = tl.

Variable tl : option float.

(** The states of a learner: the one that the constructor returns, and
    the state in which a call of the learner contract ends. *)
Inductive reachable : IL.t -> Prop :=
| reachable_init bounds rtol s :
    IL.init bounds tl rtol = Ok s tt -> reachable s
| reachable_step c s s' :
    reachable s -> Trace.final (Trace.integrator_step c s) = Some s' -> reachable s'.

(** No value is known yet, and the tolerances are the given ones. *)
Definition fresh (tl rtol : option float) (s : IL.t) : Prop :=
  IL.done_points s = [] /\ IL.tol s = tl /\ IL.rtol s = rtol.

(** Children are created after their parent: the handles of the children
    of an interval are larger than its own, and they are in the store. *)
Definition tree_ok (hp : Interval.heap) : Prop :=
  forall h iv, hp !! h = Some iv ->
    forall k, k ∈ Interval.children iv -> h < k < length hp.

(** The integral of a reported interval. *)
Definition igral_at (hp : Interval.heap) (k : nat) : option float :=
  Interval.igral (Interval.lookup hp k).

Definition finite_est (hp : Interval.heap) (k : nat) : Prop :=
  isfinite (Interval.est_err (Interval.lookup hp k)) = true.

(** The intervals that may be reported have their integral: those with a
    finite error estimate, the cached branches, and the first interval
    once it is done. *)
Definition igral_ready (s : IL.t) : Prop :=
  forall k,
    isfinite (Interval.est_err (Interval.lookup (IL.heap s) k)) = true
    \/ k ∈ IL._complete_branches s
    \/ (k = IL.first_ival s /\ Interval.done (Interval.lookup (IL.heap s) k) = true) ->
    is_Some (Interval.igral (Interval.lookup (IL.heap s) k)).

(** The reported values do not read the accumulators [_err_final] and
    [_igral_final]: replacing them changes no result. *)
Definition with_finals (e g : float) (s : IL.t) : IL.t :=
  IL.set__igral_final g (IL.set__err_final e s).

Definition in_state {A} (f : IL.t -> IL.t) (o : outcome IL.t A) : outcome IL.t A :=
  match o with
  | Ok s x => Ok (f s) x
  | Raise s e => Raise (f s) e
  | OutOfFuel => OutOfFuel
  end.

End IntegratorStates.

Section TriangulatorStates.
Context {PR : Primitive} {NP : Numpy} {RN : Random}.

(** Both attributes have the given contents. *)
Definition keeps_data (d : dict point value) (p : list point) (s : TL.t) : Prop :=
  TL.data s = d /\ TL._pending s = p.

(** What [_ask] leaves when it returns [r], from [data = d] and
    [_pending = p]: [data] as it was, and [_pending] as it was or with the
    returned point added. *)
Definition asked (d : dict point value) (p : list point) (r : point * float) (s : TL.t)
  : Prop :=
  TL.data s = d /\ (TL._pending s = p \/ TL._pending s = set_add r.1 p).

(** No point of [_pending] equals a key of [data]. *)
Definition pending_disjoint (s : TL.t) : Prop :=
  forall k r, k ∈ (TL.data s).*1 -> r ∈ TL._pending s -> py_eqb k r = false.

(** The triangulation that the property [tri] builds from the data. *)
Definition built_tri (s : TL.t) (initial_simplex : simplex) : Tri :=
  let pts := map (fun i => default [] (TL.points s !! i)) initial_simplex in
  let to_add :=
    (List.filter (fun ip => negb (set_mem ip.1 initial_simplex))
                 (imap (fun i p => (i, p)) (TL.points s))).*2 in
  foldl (fun T p => (tri_add_point T p None (Some (TL._transform s))).1)
        (Triangulation pts) to_add.

(** The triangulation exists, and [data] and [_pending] are given. *)
Definition has_tri (d : dict point value) (p : list point) (s : TL.t) : Prop :=
  is_Some (TL._tri s) /\ TL.data s = d /\ TL._pending s = p.

(** The corners of the bounds that are neither known nor pending, in the
    order of [_bounds_points]. *)
Definition bounds_to_do (s : TL.t) : list point :=
  List.filter (fun p => negb (dict_mem p (TL.data s)) && negb (set_mem p (TL._pending s)))
              (TL._bounds_points s).

End TriangulatorStates.

(** All attributes but the cache [_complete_branches] are those of [s0]. *)
Definition same_but_cache (s0 s : IL.t) : Prop :=
  IL.set__complete_branches [] s = IL.set__complete_branches [] s0.

(** The interval that [Interval.make_first(a, b, tol)] returns. *)
Definition first_interval (bounds : float * float) (tl : option float) : Interval.t :=
  Interval.new bounds.1 bounds.2 Interval.c_zeros (zeros (ns_at 3)) 3 inf tl 1 0 None.

(** The learner during and after [__init__]: no value is known, the only
    interval is the first one, [iv] is [ivals], and [nd] is both
    [not_done_points] and [_stack]. *)
Definition initial (bounds : float * float) (tl rtol : option float)
    (iv : list nat) (nd : list float) (s : IL.t) : Prop :=
  IL.bounds s = bounds /\ IL.tol s = tl /\ IL.rtol s = rtol
  /\ IL.done_points s = [] /\ IL.not_done_points s = nd /\ IL._stack s = nd
  /\ IL.heap s = [first_interval bounds tl]
  /\ IL.ivals s = iv /\ IL.priority_split s = []
  /\ IL._err_final s = 0%float /\ IL._igral_final s = 0%float.

(** The state [(c, b, m)] of the loop of [_downdate] on [n] coefficients:
    the coefficients above the running degree [m] are zero. *)
Definition downdated (n : nat) (st : vec * vec * nat) : Prop :=
  length st.1.1 = n /\ forall j, st.2 < j < n -> st.1.1 !! j = Some 0%float.

(** ** Computations with pre- and postconditions, and well-formed learners *)

Section Triples.
Context {S : Type}.

(** [triple F P m Q E]: from a state where [P] holds, [m] returns a value
    [x] in a state where [Q x] holds, or raises in a state where [E]
    holds; [F] is what is claimed of a run that exhausts its fuel:
    [True] when nothing is, [False] when there is no such run. *)
Record triple (F : Prop) {A} (P : S -> Prop) (m : M S A) (Q : A -> S -> Prop)
    (E : S -> Prop) : Prop := Triple {
  triple_run : forall s, P s ->
    match m s with
    | Ok s' x => Q x s'
    | Raise s' _ => E s'
    | OutOfFuel => F
    end
}.
End Triples.

Arguments triple_run {S F A P m Q E} _ s _.

(** The parent of an interval was created before it. *)
Definition parents_older (hp : list Interval.t) : Prop :=
  forall h iv, hp !! h = Some iv ->
    forall p, Interval.parent iv = Some p -> p < h.

(** The links of the interval tree: the children of an interval are
    younger intervals of the store, and its parent is older. *)
Definition links_ok (hp : list Interval.t) : Prop :=
  tree_ok hp /\ parents_older hp.

(** The intervals that the learner refers to: those of [ivals], of
    [priority_split] and of [x_mapping]. *)
Definition referred (s : IL.t) (h : nat) : Prop :=
  h ∈ IL.ivals s \/ h ∈ IL.priority_split s
  \/ exists x ivs, (x, ivs) ∈ IL.x_mapping s /\ h ∈ ivs.

(** The intervals of [D] are not discarded. *)
Definition not_discarded (D : list nat) (s : IL.t) : Prop :=
  forall k, k ∈ D -> Interval.discard (Interval.lookup (IL.heap s) k) = false.

(** The interval tree is well formed, every interval the learner refers
    to is in the store, and no interval of [ivals] is discarded. *)
Definition well_formed (s : IL.t) : Prop :=
  links_ok (IL.heap s)
  /\ (forall h, referred s h -> h < length (IL.heap s))
  /\ not_discarded (IL.ivals s) s.

(** The intervals listed in [D] have the given values of [discard]. *)
Definition discard_is (D : list (nat * bool)) (s : IL.t) : Prop :=
  forall k b, (k, b) ∈ D -> Interval.discard (Interval.lookup (IL.heap s) k) = b.

(** A well-formed learner in which the intervals of [R] are in the store
    and [discard] is as [D] says. *)
Definition well_formed_with (R : list nat) (D : list (nat * bool)) (s : IL.t) : Prop :=
  well_formed s
  /\ (forall h, h ∈ R -> h < length (IL.heap s))
  /\ discard_is D s.

(** The slots of an interval that [well_formed] reads. *)
Definition same_links (i' i : Interval.t) : Prop :=
  Interval.children i' = Interval.children i
  /\ Interval.parent i' = Interval.parent i
  /\ Interval.discard i' = Interval.discard i.
(** The learner [Examples.waiting] after its first interval has been
    discarded and has left [ivals], and then after the value 1 has been
    told at 0.5. *)
Definition abandoned : IL.t :=
  IL.set_ivals []
    (IL.set_heap [Interval.set_discard true Examples.waiting_root] Examples.waiting).
Definition abandoned_told : IL.t :=
  IL.set_heap [Interval.set_done_points [(0.5, 1)%float]
                 (Interval.set_discard true Examples.waiting_root)]
    (IL.record_point 0.5 1 abandoned).

(** ** Traces without their reports *)

(** The reports of the integrator, which the learner contract does not
    record in a trace of [ask] and [tell]. *)
Definition is_report (c : Trace.integrator_call) : bool :=
  match c with
  | Trace.ILoss | Trace.IDone | Trace.IIgral | Trace.IErr => true
  | _ => false
  end.

Definition is_loss (c : Trace.triangulator_call) : bool :=
  match c with
  | Trace.TLoss => true
  | _ => false
  end.

(** The replies of a run to the calls that [keep] selects. *)
Fixpoint kept_replies {C R} (keep : C -> bool) (calls : list C) (rs : list R) : list R :=
  match calls, rs with
  | c :: calls', r :: rs' =>
      if keep c then r :: kept_replies keep calls' rs' else kept_replies keep calls' rs'
  | _, _ => []
  end.

(** [m] neither reads nor writes what [f] changes: [m] run after [f] is
    [m] followed by [f]. *)
Definition commutes {A} (f : IL.t -> IL.t) (m : M IL.t A) : Prop :=
  forall s, m (f s) = in_state f (m s).

(** Two runs end alike, up to the cache of the integrator. *)
Definition same_end (o1 o2 : option IL.t) : Prop :=
  match o1, o2 with
  | Some s1, Some s2 => same_but_cache s1 s2
  | None, None => True
  | _, _ => False
  end.

(** An access to the property [tri] changes nothing: the triangulation
    exists, or it cannot be built from [data]. *)
Definition settled {PR : Primitive} {NP : Numpy} {RN : Random} (s : TL.t) : Prop :=
  match TL._tri s with
  | Some _ => True
  | None =>
      (length (TL.data s) <? 2)%nat = true
      \/ find_initial_simplex (TL.points s) (TL.ndim s) = None
  end.
(** Tables with as many abscissae as the real ones, 5, 9, 17 and 33,
    evenly spaced on [-1, 1], and one-entry matrices: a constant
    integrand is resolved by the first interval. *)
Definition even_tables : Coeffs :=
  {| xi := fun d => map (fun i => (float_of_nat i * 2 / float_of_nat (ns_at d - 1) - 1)%float)
                        (seq 0 (ns_at d));
     V_inv := fun _ => [[1%float]];
     Vcond := fun _ => 1%float;
     T_left := []; T_right := []; alpha := []; gamma := []; b_def := fun _ => [] |}.

(** A session on a new integrator on [0, 1]: [ask(33)], and the value 1
    told at each of the 33 abscissae of the first interval. *)
Definition constant_session : list Trace.integrator_call :=
  Trace.IAsk 1 33
  :: map (fun i => Trace.ITell (float_of_nat i / 32)%float 1%float) (seq 0 33).

(** * Properties *)

(** ** Floats *)

Lemma SFeqb_sym (x y : spec_float) : SFeqb x y = SFeqb y x.
Proof.
  unfold SFeqb, SFcompare.
  destruct x as [sx|sx| |sx mx ex], y as [sy|sy| |sy my ey]; try reflexivity;
    try (destruct sx; reflexivity); try (destruct sy; reflexivity);
    try (destruct sx, sy; reflexivity).
  rewrite (Z.compare_antisym ex ey).
  change (Pos.compare_cont Eq my mx) with (Pos.compare my mx).
  change (Pos.compare_cont Eq mx my) with (Pos.compare mx my).
  rewrite (Pos.compare_antisym mx my).
  destruct sx, sy; try reflexivity;
    destruct (ex ?= ey)%Z; simpl; try reflexivity;
    destruct (mx ?= my)%positive; reflexivity.
Qed.

(** [==] on floats is symmetric. *)
Lemma float_eqb_sym (x y : float) : (x =? y)%float = (y =? x)%float.
Proof. rewrite !FloatAxioms.eqb_spec. apply SFeqb_sym. Qed.

(** Two floats that a comparison tells apart are different. *)
Lemma float_neq_by_ltb (x y z : float) :
  (x <? z)%float = true -> (y <? z)%float = false -> x <> y.
Proof. intros Hx Hy ->. congruence. Qed.

(** ** Properties that a computation keeps *)

Section Stable.
Context {S : Type} (P : S -> Prop).

Lemma stable_ret {A} (x : A) : stable P (ret x).
Proof. constructor. intros s Hs. exact Hs. Qed.

Lemma stable_raise {A} (e : exn) : stable P (raise (A:=A) e).
Proof. constructor. intros s Hs. exact Hs. Qed.

Lemma stable_get : stable P get.
Proof. constructor. intros s Hs. exact Hs. Qed.

Lemma stable_gets {A} (f : S -> A) : stable P (gets f).
Proof. constructor. intros s Hs. exact Hs. Qed.

Lemma stable_out_of_fuel {A} : stable P (out_of_fuel (A:=A)).
Proof. constructor. intros s Hs. exact I. Qed.

Lemma stable_modify (f : S -> S) : (forall s, P s -> P (f s)) -> stable P (modify f).
Proof. intros Hf. constructor. intros s Hs. apply Hf, Hs. Qed.

Lemma stable_bind {A B} (m : M S A) (k : A -> M S B) :
  stable P m -> (forall x, stable P (k x)) -> stable P (bind m k).
Proof.
  intros Hm Hk. constructor. intros s Hs. unfold bind.
  pose proof (stable_run Hm s Hs) as H.
  destruct (m s) as [s' x|s' e|]; [apply (stable_run (Hk x) _), H| exact H | exact I].
Qed.

Lemma stable_for_each {A} (l : list A) (body : A -> M S unit) :
  (forall x, stable P (body x)) -> stable P (for_each l body).
Proof.
  intros Hb. induction l as [|x l IH]; simpl.
  - apply stable_ret.
  - apply stable_bind; [apply Hb | intros _; exact IH].
Qed.

Lemma stable_map_m {A B} (f : A -> M S B) (l : list A) :
  (forall x, stable P (f x)) -> stable P (map_m f l).
Proof.
  intros Hf. induction l as [|x l IH]; simpl.
  - apply stable_ret.
  - apply stable_bind; [apply Hf | intros y].
    apply stable_bind; [exact IH | intros ys; apply stable_ret].
Qed.

Lemma stable_fold_m {A B} (body : B -> A -> M S B) (l : list A) (acc : B) :
  (forall acc x, stable P (body acc x)) -> stable P (fold_m body acc l).
Proof.
  intros Hb. revert acc. induction l as [|x l IH]; intros acc; simpl.
  - apply stable_ret.
  - apply stable_bind; [apply Hb | intros acc'; apply IH].
Qed.

End Stable.

(** The routine steps of a proof of [stable]: the monad laws above, chosen
    by the shape of the computation, and a case analysis on what the
    computation branches on. *)
Ltac stable_step :=
  lazymatch goal with
  | |- stable _ (ret _) => apply stable_ret
  | |- stable _ (raise _) => apply stable_raise
  | |- stable _ get => apply stable_get
  | |- stable _ (gets _) => apply stable_gets
  | |- stable _ out_of_fuel => apply stable_out_of_fuel
  | |- stable _ (bind _ _) => apply stable_bind; [|intros ?]
  | |- stable _ (for_each _ _) => apply stable_for_each; intros ?
  | |- stable _ (map_m _ _) => apply stable_map_m; intros ?
  | |- stable _ (fold_m _ _ _) => apply stable_fold_m; intros ? ?
  | |- stable _ (match ?x with _ => _ end) => destruct x eqn:?
  end.

(** ** What a computation leaves when it returns *)

Section Yields.
Context {S : Type} (P : S -> Prop).

Lemma yields_ret {A} (Q : A -> S -> Prop) (x : A) :
  (forall s, P s -> Q x s) -> yields P Q (ret x).
Proof. intros H. constructor. exact H. Qed.

Lemma yields_raise {A} (Q : A -> S -> Prop) (e : exn) : yields P Q (raise e).
Proof. constructor. intros s _. exact I. Qed.

Lemma yields_out_of_fuel {A} (Q : A -> S -> Prop) : yields P Q out_of_fuel.
Proof. constructor. intros s _. exact I. Qed.

(** A prefix that keeps [P] can be skipped. *)
Lemma yields_bind {A B} (Q : B -> S -> Prop) (m : M S A) (k : A -> M S B) :
  stable P m -> (forall x, yields P Q (k x)) -> yields P Q (bind m k).
Proof.
  intros Hm Hk. constructor. intros s Hs. unfold bind.
  pose proof (stable_run Hm s Hs) as H.
  destruct (m s) as [s' x|s' e|]; [apply (yields_run (Hk x) _), H | exact I | exact I].
Qed.

End Yields.

Ltac yields_step :=
  lazymatch goal with
  | |- yields _ _ (raise _) => apply yields_raise
  | |- yields _ _ out_of_fuel => apply yields_out_of_fuel
  | |- yields _ _ (bind _ _) => apply yields_bind; [|intros ?]
  | |- yields _ _ (match ?x with _ => _ end) => destruct x eqn:?
  end.

(** ** The integrator: which calls touch [done_points] and [not_done_points] *)

Create HintDb keeps.

Section IntegratorFrame.
Context {CO : Coeffs} {LA : LinAlg}.

Ltac frame_modify :=
  lazymatch goal with
  | |- stable _ (modify _) =>
      apply stable_modify; intros ? (? & ? & ?); repeat split; simpl; assumption
  end.
Ltac frame := repeat first [stable_step | frame_modify | assumption].

Variables (d : dict float float) (nd : list float) (tl : option float).
Local Abbreviation kept := (stable (keeps_points d nd tl)).

Lemma keeps_new_ival i : kept (IL.new_ival i).
Proof.
  constructor. intros s (H1 & H2 & H3). unfold IL.new_ival. simpl.
  repeat split; assumption.
Qed.

Lemma keeps_get_ival h : kept (IL.get_ival h).
Proof. unfold IL.get_ival. frame. Qed.

Lemma keeps_upd_ival h f : kept (IL.upd_ival h f).
Proof. unfold IL.upd_ival. frame. Qed.

Lemma keeps_put_ival h i : kept (IL.put_ival h i).
Proof. apply keeps_upd_ival. Qed.

Lemma keeps_ivals_add h : kept (IL.ivals_add h).
Proof. unfold IL.ivals_add. frame. Qed.

Lemma keeps_ivals_discard h : kept (IL.ivals_discard h).
Proof. unfold IL.ivals_discard. frame. Qed.

Lemma keeps_x_mapping_get x : kept (IL.x_mapping_get x).
Proof. unfold IL.x_mapping_get. frame. Qed.

Lemma keeps_x_mapping_add x h : kept (IL.x_mapping_add x h).
Proof. unfold IL.x_mapping_add. frame. apply keeps_x_mapping_get. Qed.

Hint Resolve keeps_new_ival keeps_get_ival keeps_upd_ival keeps_put_ival
  keeps_ivals_add keeps_ivals_discard keeps_x_mapping_get keeps_x_mapping_add : keeps.

Ltac frame' := repeat first [stable_step | frame_modify | assumption | solve [auto with keeps]].

Lemma keeps_update_ancestors fuel o : kept (IL.update_ancestors fuel o).
Proof.
  revert o. induction fuel as [|fuel IH]; intros o; simpl; destruct o; frame'.
Qed.
Hint Resolve keeps_update_ancestors : keeps.

Lemma keeps_complete_process h : kept (IL.complete_process h).
Proof. unfold IL.complete_process. frame'. Qed.
Hint Resolve keeps_complete_process : keeps.

Lemma keeps_deposit point value h : kept (IL.deposit point value h).
Proof. unfold IL.deposit. frame'. Qed.
Hint Resolve keeps_deposit : keeps.

Lemma keeps_prune_stack fuel pos : kept (IL.prune_stack fuel pos).
Proof.
  revert pos. induction fuel as [|fuel IH]; intros pos; simpl; frame'.
Qed.
Hint Resolve keeps_prune_stack : keeps.

Lemma keeps__discard fuel h : kept (IL._discard fuel h).
Proof.
  revert h. induction fuel as [|fuel IH]; intros h; simpl; frame'.
Qed.
Hint Resolve keeps__discard : keeps.

Lemma keeps_set_discard h : kept (IL.set_discard h).
Proof. unfold IL.set_discard. frame'. Qed.

Lemma keeps_pop_from_stack n : kept (IL.pop_from_stack n).
Proof. unfold IL.pop_from_stack. frame'. Qed.

Lemma keeps_refine h : kept (IL.refine h).
Proof. unfold IL.refine. frame'. Qed.

Lemma keeps_split h : kept (IL.split h).
Proof. unfold IL.split. frame'. Qed.

Lemma keeps_complete_branches : kept IL.complete_branches.
Proof. unfold IL.complete_branches. frame'. Qed.
Hint Resolve keeps_complete_branches : keeps.

Lemma keeps_igral : kept IL.igral.
Proof. unfold IL.igral. frame'. Qed.

Lemma keeps_err : kept IL.err.
Proof. unfold IL.err. frame'. Qed.
Hint Resolve keeps_igral keeps_err : keeps.

Lemma keeps_done : kept IL.done.
Proof. unfold IL.done. frame'. Qed.

Lemma keeps_loss : kept IL.loss.
Proof. unfold IL.loss. frame'. Qed.

Lemma keeps_remove_unfinished : kept IL.remove_unfinished.
Proof. unfold IL.remove_unfinished. frame'. Qed.

End IntegratorFrame.

(** ** Containers *)

Section DictFacts.
Context {K V : Type} `{PyEq K}.
Implicit Types (d : dict K V) (k : K).

Lemma dict_mem_false k d :
  dict_mem k d = false -> forall k', k' ∈ d.*1 -> py_eqb k' k = false.
Proof.
  unfold dict_mem. induction d as [|[k0 v0] d IH]; simpl; intros Hm k' Hk'.
  - inversion Hk'.
  - apply orb_false_iff in Hm as [H0 Hm].
    apply elem_of_cons in Hk' as [->|Hk']; [exact H0 | exact (IH Hm k' Hk')].
Qed.

Lemma dict_get_None k d : dict_get k d = None -> dict_mem k d = false.
Proof.
  unfold dict_get, dict_mem. induction d as [|[k0 v0] d IH]; simpl; [reflexivity|].
  destruct (py_eqb k0 k); simpl; [discriminate | exact IH].
Qed.

Lemma dict_get_Some k d v : dict_get k d = Some v -> dict_mem k d = true.
Proof.
  unfold dict_get, dict_mem. induction d as [|[k0 v0] d IH]; simpl; [discriminate|].
  destruct (py_eqb k0 k); simpl; [reflexivity | exact IH].
Qed.

(** The keys after [d[k] = v]: the stored keys, and [k] if it is new. *)
Lemma dict_set_keys k v d k' :
  k' ∈ (dict_set k v d).*1 -> k' ∈ d.*1 \/ (k' = k /\ dict_mem k d = false).
Proof.
  unfold dict_mem. induction d as [|[k0 v0] d IH]; simpl; intros Hk.
  - apply list_elem_of_singleton in Hk. right. split; [exact Hk | reflexivity].
  - destruct (py_eqb k0 k) eqn:E; simpl in *.
    + left. exact Hk.
    + apply elem_of_cons in Hk as [->|Hk]; [left; apply elem_of_cons; left; reflexivity|].
      destruct (IH Hk) as [H'|[-> H']]; [left; apply elem_of_cons; right; exact H'|].
      right. split; [reflexivity | exact H'].
Qed.

Lemma set_discard_elem (x r : K) (s : list K) :
  r ∈ set_discard x s -> r ∈ s /\ py_eqb r x = false.
Proof.
  unfold set_discard. rewrite !list_elem_of_In, filter_In.
  intros [H1 H2]. split; [exact H1|].
  destruct (py_eqb r x); [discriminate | reflexivity].
Qed.

Lemma set_add_elem (x r : K) (s : list K) :
  r ∈ set_add x s -> r ∈ s \/ r = x.
Proof.
  unfold set_add. destruct (set_mem x s); [left; assumption|].
  intros Hr. apply elem_of_app in Hr as [Hr|Hr]; [left; exact Hr|].
  right. apply list_elem_of_singleton in Hr. exact Hr.
Qed.
End DictFacts.

(** [==] on tuples of floats is symmetric. *)
Lemma point_eqb_sym (p q : point) : py_eqb p q = py_eqb q p.
Proof.
  unfold py_eqb, tuple_pyeq. revert q.
  induction p as [|a p IH]; intros [|b q]; simpl; try reflexivity.
  f_equal; [apply float_eqb_sym | apply IH].
Qed.

(** ** The integrator: pending abscissae are not known abscissae *)

Section IntegratorDisjoint.
Context {CO : Coeffs} {LA : LinAlg}.

Variable tl : option float.

(** A computation that leaves the attributes alone keeps the invariant. *)
Lemma kept_inv {A} (m : M IL.t A) :
  (forall d nd, stable (keeps_points d nd tl) m) -> stable (inv tl) m.
Proof.
  intros H. constructor. intros s [Hs Ht].
  pose proof (stable_run (H (IL.done_points s) (IL.not_done_points s)) s
                (conj eq_refl (conj eq_refl Ht))) as Hk.
  destruct (m s) as [s' x|s' e|]; [| |exact I];
    destruct Hk as (Hd & Hn & Ht'); (split; [|exact Ht']);
    unfold disjoint; rewrite Hd, Hn; exact Hs.
Qed.

Lemma inv_record_point point value s :
  inv tl s -> inv tl (IL.record_point point value s).
Proof.
  intros [Hs Ht]. split; [|exact Ht].
  intros k r Hk Hr. unfold IL.record_point in *. simpl in *.
  apply set_discard_elem in Hr as [Hr Hne].
  apply dict_set_keys in Hk as [Hk|[-> _]].
  - exact (Hs k r Hk Hr).
  - rewrite float_eqb_sym. exact Hne.
Qed.

Lemma inv_add_point point value : stable (inv tl) (IL.add_point point value).
Proof.
  unfold IL.add_point. repeat stable_step.
  - apply stable_modify. intros s. apply inv_record_point.
  - apply kept_inv. intros. apply keeps_x_mapping_get.
  - apply kept_inv. intros. apply keeps_deposit.
Qed.

Lemma inv_register h x : stable (inv tl) (IL.register h x).
Proof.
  constructor. intros s Hs. unfold IL.register, bind at 1.
  pose proof (stable_run (kept_inv _ (fun d nd => keeps_x_mapping_add d nd tl x h)) s Hs)
    as H1.
  destruct (IL.x_mapping_add x h s) as [s1 []|s1 e|]; [|exact H1|exact I].
  unfold bind, gets.
  destruct (dict_get x (IL.done_points s1)) as [v|] eqn:Hg.
  - exact (stable_run (inv_add_point x v) s1 H1).
  - destruct (set_mem x (IL.not_done_points s1)); simpl; [exact H1|].
    destruct H1 as [H1 Ht]. split; [|exact Ht].
    intros k r Hk Hr. simpl in *.
    apply set_add_elem in Hr as [Hr| ->]; [exact (H1 k r Hk Hr)|].
    apply (dict_mem_false x (IL.done_points s1)); [|exact Hk].
    apply dict_get_None, Hg.
Qed.

Lemma inv__update_ival h points : stable (inv tl) (IL._update_ival h points).
Proof.
  unfold IL._update_ival. repeat stable_step.
  - apply kept_inv. intros. apply keeps_get_ival.
  - apply inv_register.
  - apply kept_inv. intros. apply keeps_ivals_add.
Qed.

Ltac keep :=
  apply kept_inv; intros;
  first [ apply keeps_get_ival | apply keeps_ivals_discard | apply keeps_set_discard
        | apply keeps_split | apply keeps_refine | apply keeps_pop_from_stack
        | apply keeps_remove_unfinished | apply keeps_loss | apply keeps_done
        | apply keeps_igral | apply keeps_err | apply keeps_new_ival
        | apply stable_modify; intros ? (? & ? & ?); repeat split; simpl; assumption ].

Lemma inv__fill_stack : stable (inv tl) IL._fill_stack.
Proof.
  unfold IL._fill_stack.
  repeat first [ stable_step | apply inv__update_ival | keep ].
Qed.

Lemma inv_choose_loop fuel n acc : stable (inv tl) (IL.choose_loop fuel n acc).
Proof.
  revert n acc. induction fuel as [|fuel IH]; intros n acc; simpl;
    repeat first [ stable_step | apply IH | apply inv__fill_stack | keep ].
Qed.

Lemma inv_choose_points fuel n : stable (inv tl) (IL.choose_points fuel n).
Proof.
  unfold IL.choose_points.
  repeat first [ stable_step | apply inv_choose_loop | keep ].
Qed.

(** Every call of the learner contract keeps the invariant. *)
Lemma inv_integrator_step c : stable (inv tl) (Trace.integrator_step c).
Proof.
  destruct c; unfold Trace.integrator_step, Trace.and_then;
    repeat first [ stable_step | apply inv_choose_points | apply inv_add_point | keep ].
Qed.

Lemma inv_init bounds rtol s :
  IL.init bounds tl rtol = Ok s tt -> inv tl s.
Proof.
  unfold IL.init. intros H.
  assert (Hm : forall m : M IL.t unit,
             stable (inv tl) m -> m (IL.empty bounds tl rtol) = Ok s tt -> inv tl s).
  { intros m Hm E. pose proof (stable_run Hm (IL.empty bounds tl rtol)) as Hr.
    rewrite E in Hr. apply Hr. split; [|reflexivity].
    intros k r Hk. inversion Hk. }
  assert (Hp : stable (inv tl)
            (let* (h, points) := IL.make_first bounds.1 bounds.2 tl in
             IL._update_ival h points ;;
             modify (IL.set_first_ival h) ;;
             modify (IL.set__complete_branches []))).
  { unfold IL.make_first.
    repeat first [ stable_step | apply inv__update_ival | keep ]. }
  destruct tl, rtol; try discriminate; exact (Hm _ Hp H).
Qed.

Lemma reachable_inv s : reachable tl s -> inv tl s.
Proof.
  induction 1 as [bounds rtol s Hi|c s s' _ IH Hc].
  - exact (inv_init bounds rtol s Hi).
  - pose proof (stable_run (inv_integrator_step c) s IH) as Hs.
    destruct (Trace.integrator_step c s); simpl in Hc; inversion Hc; subst; exact Hs.
Qed.

End IntegratorDisjoint.

(** ** The triangulator: which calls touch [data] and [_pending] *)

Section TriangulatorFrame.
Context {PR : Primitive} {NP : Numpy} {RN : Random}.

Ltac frame_modify :=
  lazymatch goal with
  | |- stable _ (modify _) =>
      apply stable_modify; intros ? [? ?]; split; simpl; assumption
  end.

Variables (d : dict point value) (p : list point).
Local Abbreviation kept := (stable (keeps_data d p)).

Lemma data_kept_tri : kept TL.tri.
Proof. unfold TL.tri. repeat first [stable_step | frame_modify]. Qed.

Lemma data_kept_the_tri : kept TL.the_tri.
Proof. unfold TL.the_tri. repeat first [stable_step | apply data_kept_tri]. Qed.

Ltac frame :=
  repeat first [stable_step | frame_modify | apply data_kept_tri | apply data_kept_the_tri].

Lemma data_kept__simplex_exists sx : kept (TL._simplex_exists sx).
Proof. unfold TL._simplex_exists. frame. Qed.

Lemma data_kept_place_pending point simpl : kept (TL.place_pending point simpl).
Proof. unfold TL.place_pending. frame. Qed.

Lemma data_kept_update_losses to_delete to_add : kept (TL.update_losses to_delete to_add).
Proof. unfold TL.update_losses. frame. Qed.

Lemma data_kept_losses : kept TL.losses.
Proof. unfold TL.losses. frame. Qed.

Lemma data_kept_loss : kept TL.loss.
Proof. unfold TL.loss. repeat first [stable_step | apply data_kept_losses]. Qed.

Lemma data_kept_random_point : kept TL.random_point.
Proof. unfold TL.random_point. frame. Qed.

End TriangulatorFrame.

(** ** The triangulator: pending points are not known points *)

Section TriangulatorDisjoint.
Context {PR : Primitive} {NP : Numpy} {RN : Random}.

Lemma kept_pending_disjoint {A} (m : M TL.t A) :
  (forall d p, stable (keeps_data d p) m) -> stable pending_disjoint m.
Proof.
  intros H. constructor. intros s Hs.
  pose proof (stable_run (H (TL.data s) (TL._pending s)) s (conj eq_refl eq_refl)) as Hk.
  destruct (m s) as [s' x|s' e|]; [| |exact I];
    destruct Hk as [Hd Hn]; unfold pending_disjoint; rewrite Hd, Hn; exact Hs.
Qed.

Lemma pending_disjoint_record_value point value s :
  pending_disjoint s -> pending_disjoint (TL.record_value point value s).
Proof.
  intros Hs k r Hk Hr. unfold TL.record_value in *. simpl in *.
  apply set_discard_elem in Hr as [Hr Hne].
  apply dict_set_keys in Hk as [Hk|[-> _]].
  - exact (Hs k r Hk Hr).
  - rewrite point_eqb_sym. exact Hne.
Qed.

(** After the first statement of [_tell_pending], nothing touches [data]
    or [_pending]. *)
Lemma pending_disjoint__tell_pending point simplex s :
  pending_disjoint s -> dict_mem point (TL.data s) = false ->
  match TL._tell_pending point simplex s with
  | Ok s' _ | Raise s' _ => pending_disjoint s'
  | OutOfFuel => True
  end.
Proof.
  intros Hs Hnew. unfold TL._tell_pending, bind at 1, modify.
  match goal with
  | |- match ?m ?s1 with _ => _ end =>
      assert (Hm : stable pending_disjoint m); [|apply (stable_run Hm)]
  end.
  - repeat first
      [ stable_step
      | apply kept_pending_disjoint; intros;
        first [ apply data_kept_tri | apply data_kept_the_tri | apply data_kept_place_pending ] ].
  - intros k r Hk Hr. simpl in *.
    apply set_add_elem in Hr as [Hr| ->]; [exact (Hs k r Hk Hr)|].
    exact (dict_mem_false point (TL.data s) Hnew k Hk).
Qed.

Lemma pending_disjoint_tell point value : stable pending_disjoint (TL.tell point value).
Proof.
  constructor. intros s Hs. unfold TL.tell. unfold bind at 1. unfold get at 1.
  destruct (dict_mem point (TL.data s)) eqn:Hmem; [exact Hs|].
  destruct value as [value|]; [|apply pending_disjoint__tell_pending; assumption].
  match goal with
  | |- match ?m s with _ => _ end =>
      assert (Hm : stable pending_disjoint m); [|apply (stable_run Hm), Hs]
  end.
  repeat first
    [ stable_step
    | apply stable_modify; intros ?; apply pending_disjoint_record_value
    | apply kept_pending_disjoint; intros;
      first [ apply data_kept_tri | apply data_kept__simplex_exists | apply data_kept_update_losses
            | apply stable_modify; intros ? [? ?]; split; simpl; assumption ] ].
Qed.

End TriangulatorDisjoint.

(** ** The integrator: the reported integral and error *)

Section IntegratorReporting.

Lemma lookup_children_ok hp h k :
  tree_ok hp -> k ∈ Interval.children (Interval.lookup hp h) -> h < k < length hp.
Proof.
  intros Hok. unfold Interval.lookup. destruct (hp !! h) as [iv|] eqn:E; simpl.
  - apply (Hok h iv E).
  - intros Hk. inversion Hk.
Qed.

Lemma find_deepest_total hp :
  tree_ok hp ->
  forall fuel h, length hp - h < fuel ->
    exists r, IL._find_deepest fuel hp h = Some r /\ Forall (finite_est hp) r.
Proof.
  intros Hok. induction fuel as [|fuel IH]; intros h Hf; [lia|]. simpl.
  destruct (isfinite _ && isinf _) eqn:E.
  - exists [h]. split; [reflexivity|]. constructor; [|constructor].
    apply andb_prop in E as [E _]. exact E.
  - clear E.
    assert (Hch : Forall (fun k => exists r, IL._find_deepest fuel hp k = Some r
                                             /\ Forall (finite_est hp) r)
                         (Interval.children (Interval.lookup hp h))).
    { apply Forall_forall. intros k Hk. apply IH.
      pose proof (lookup_children_ok hp h k Hok Hk). lia. }
    induction Hch as [|k ks [r [Hr1 Hr2]] _ IHks]; simpl.
    + exists []. split; [reflexivity | constructor].
    + destruct IHks as [rs [H1 H2]]. rewrite Hr1. simpl.
      destruct (mapM (IL._find_deepest fuel hp) ks) as [l|]; simpl in *; [|discriminate].
      inversion H1; subst. exists (r ++ concat l). split; [reflexivity|].
      apply Forall_app. split; assumption.
Qed.

Lemma deepest_complete_branches_total hp h :
  tree_ok hp ->
  exists r, IL.deepest_complete_branches hp h = Some r /\ Forall (finite_est hp) r.
Proof. intros Hok. apply find_deepest_total; [exact Hok | lia]. Qed.

Lemma branches_loop_total hp first cached acc :
  tree_ok hp ->
  exists r, IL.branches_loop hp first cached acc = Some r
            /\ Forall (fun k => k ∈ acc \/ k ∈ cached \/ finite_est hp k) r.
Proof.
  intros Hok. revert acc. induction cached as [|h cached IH]; intros acc; simpl.
  - exists acc. split; [reflexivity|]. apply Forall_forall. intros k Hk. left. exact Hk.
  - destruct (Interval.discard (Interval.lookup hp h)).
    { destruct (deepest_complete_branches_total hp first Hok) as [r [H1 H2]].
      exists r. split; [exact H1|]. eapply Forall_impl; [exact H2|].
      intros k Hk. right. right. exact Hk. }
    destruct (Interval.children (Interval.lookup hp h)) as [|c cs] eqn:Ech.
    + destruct (IH (acc ++ [h])) as [r [H1 H2]]. exists r. split; [exact H1|].
      eapply Forall_impl; [exact H2|]. intros k [Hk|[Hk|Hk]].
      * apply elem_of_app in Hk as [Hk|Hk]; [left; exact Hk|].
        apply list_elem_of_singleton in Hk. subst. right. left. apply elem_of_cons. left.
        reflexivity.
      * right. left. apply elem_of_cons. right. exact Hk.
      * right. right. exact Hk.
    + destruct (deepest_complete_branches_total hp h Hok) as [r0 [H0 H0']].
      rewrite H0. destruct (IH (acc ++ r0)) as [r [H1 H2]]. exists r. split; [exact H1|].
      eapply Forall_impl; [exact H2|]. intros k [Hk|[Hk|Hk]].
      * apply elem_of_app in Hk as [Hk|Hk]; [left; exact Hk|].
        right. right. rewrite Forall_forall in H0'. exact (H0' k Hk).
      * right. left. apply elem_of_cons. right. exact Hk.
      * right. right. exact Hk.
Qed.

Lemma mapM_igral_ready hp (brs : list nat) :
  Forall (fun k => is_Some (igral_at hp k)) brs ->
  exists l, mapM (igral_at hp) brs = Some l.
Proof.
  intros H. destruct (mapM (igral_at hp) brs) as [l|] eqn:E; [exists l; reflexivity|].
  exfalso. apply (mapM_is_Some_2 (igral_at hp) brs) in H. rewrite E in H.
  destruct H as [? H]. discriminate.
Qed.

(** On a well-formed tree the property [complete_branches] returns; it
    changes the cache only, and its branches have their integral. *)
Lemma complete_branches_total s :
  tree_ok (IL.heap s) -> igral_ready s ->
  exists brs s',
    IL.complete_branches s = Ok s' brs
    /\ (s' = s \/ s' = IL.set__complete_branches brs s)
    /\ Forall (fun k => is_Some (igral_at (IL.heap s) k)) brs.
Proof.
  intros Hok Hr. unfold IL.complete_branches. unfold bind at 1. unfold get at 1.
  destruct (Interval.done (Interval.lookup (IL.heap s) (IL.first_ival s))) eqn:Hd; simpl;
    [|exists [], s; split; [reflexivity|]; split; [left; reflexivity | constructor]].
  assert (Hcache : exists cached,
             (cached = IL._complete_branches s \/ cached = [IL.first_ival s])
             /\ forall (k : M IL.t (list nat)) ,
                 bind (match IL._complete_branches s with
                       | [] => modify (IL.set__complete_branches [IL.first_ival s])
                       | _ :: _ => ret tt
                       end) (fun _ => k) s
                 = k (IL.set__complete_branches cached s)).
  { destruct (IL._complete_branches s) as [|c cs] eqn:Ec.
    - exists [IL.first_ival s]. split; [right; reflexivity|]. intros k. reflexivity.
    - exists (c :: cs). split; [left; reflexivity|]. intros k.
      unfold bind, ret. f_equal. destruct s; simpl in *. subst. reflexivity. }
  destruct Hcache as [cached [Hc Hk]]. rewrite Hk. clear Hk.
  unfold bind, gets. simpl.
  destruct (branches_loop_total (IL.heap s) (IL.first_ival s) cached [] Hok) as [r [H1 H2]].
  rewrite H1. simpl. exists r. eexists. split; [reflexivity|]. split.
  - right. destruct s; reflexivity.
  - eapply Forall_impl; [exact H2|]. intros k [Hk|[Hk|Hk]].
    + inversion Hk.
    + apply Hr. destruct Hc as [-> | ->].
      * right. left. exact Hk.
      * apply list_elem_of_singleton in Hk. subst. right. right.
        split; [reflexivity | exact Hd].
    + apply Hr. left. exact Hk.
Qed.

(** The state after [complete_branches] is as ready as the state before. *)
Lemma complete_branches_ready s brs s' :
  tree_ok (IL.heap s) -> igral_ready s ->
  IL.complete_branches s = Ok s' brs ->
  tree_ok (IL.heap s') /\ igral_ready s' /\ IL.heap s' = IL.heap s /\ IL.tol s' = IL.tol s.
Proof.
  intros Hok Hr Hcb.
  destruct (complete_branches_total s Hok Hr) as [brs' [s'' [H1 [H2 H3]]]].
  rewrite H1 in Hcb. inversion Hcb; subst brs' s''. clear Hcb.
  destruct H2 as [E|E]; subst s'.
  { split; [exact Hok|]. split; [exact Hr|]. split; reflexivity. }
  simpl. split; [exact Hok|]. split; [|split; reflexivity].
  intros k [Hk|[Hk|Hk]]; simpl in *.
  - apply Hr. left. exact Hk.
  - rewrite Forall_forall in H3. exact (H3 k Hk).
  - apply Hr. right. right. exact Hk.
Qed.

Lemma igral_total s :
  tree_ok (IL.heap s) -> igral_ready s ->
  exists brs s' l,
    IL.complete_branches s = Ok s' brs
    /\ mapM (igral_at (IL.heap s)) brs = Some l
    /\ IL.igral s = Ok s' (sum l).
Proof.
  intros Hok Hr.
  destruct (complete_branches_total s Hok Hr) as [brs [s' [H1 [H2 H3]]]].
  destruct (mapM_igral_ready _ _ H3) as [l Hl].
  exists brs, s', l. split; [exact H1|]. split; [exact Hl|].
  unfold IL.igral, bind. rewrite H1. unfold gets.
  assert (Hh : IL.heap s' = IL.heap s) by (destruct H2 as [-> | ->]; reflexivity).
  rewrite Hh. fold (igral_at (IL.heap s)). rewrite Hl. reflexivity.
Qed.

Lemma err_total s :
  tree_ok (IL.heap s) -> igral_ready s ->
  exists brs s',
    IL.complete_branches s = Ok s' brs
    /\ IL.err s = Ok s' (match brs with
                         | [] => inf
                         | _ => sum (map (IL.err_of s) brs)
                         end).
Proof.
  intros Hok Hr.
  destruct (complete_branches_total s Hok Hr) as [brs [s' [H1 [H2 H3]]]].
  exists brs, s'. split; [exact H1|].
  unfold IL.err, bind. rewrite H1.
  destruct brs as [|b brs]; [reflexivity|]. unfold get, ret.
  assert (Hh : IL.err_of s' = IL.err_of s).
  { unfold IL.err_of. destruct H2 as [-> | ->]; reflexivity. }
  rewrite Hh. reflexivity.
Qed.

Lemma complete_branches_finals e g s :
  IL.complete_branches (with_finals e g s)
  = in_state (with_finals e g) (IL.complete_branches s).
Proof.
  unfold IL.complete_branches, bind, get, gets, modify, ret, out_of_fuel.
  cbn -[IL.branches_loop].
  destruct (Interval.done _); cbn -[IL.branches_loop]; [|reflexivity].
  destruct (IL._complete_branches s); cbn -[IL.branches_loop];
    match goal with |- context [IL.branches_loop ?a ?b ?c ?d] =>
      destruct (IL.branches_loop a b c d) end; reflexivity.
Qed.

Lemma igral_finals e g s :
  IL.igral (with_finals e g s) = in_state (with_finals e g) (IL.igral s).
Proof.
  unfold IL.igral, bind. rewrite complete_branches_finals.
  destruct (IL.complete_branches s) as [s' brs|s' ex|]; simpl; try reflexivity.
  unfold gets. simpl.
  destruct (mapM _ brs); reflexivity.
Qed.

Lemma err_finals e g s :
  IL.err (with_finals e g s) = in_state (with_finals e g) (IL.err s).
Proof.
  unfold IL.err, bind. rewrite complete_branches_finals.
  destruct (IL.complete_branches s) as [s' brs|s' ex|]; simpl; try reflexivity.
  destruct brs; reflexivity.
Qed.

Lemma observe_in_state {A} f (o : outcome IL.t A) :
  Trace.observe (in_state f o) = Trace.observe o.
Proof. destruct o; reflexivity. Qed.

End IntegratorReporting.

(** ** Computations that return *)

Section Returns.
Context {S : Type} (P : S -> Prop).

Lemma returns_ret {A} (x : A) : returns P (ret x).
Proof. constructor. intros s Hs. exists s, x. split; [reflexivity | exact Hs]. Qed.

Lemma returns_get : returns P get.
Proof. constructor. intros s Hs. exists s, s. split; [reflexivity | exact Hs]. Qed.

Lemma returns_gets {A} (f : S -> A) : returns P (gets f).
Proof. constructor. intros s Hs. exists s, (f s). split; [reflexivity | exact Hs]. Qed.

Lemma returns_modify (f : S -> S) : (forall s, P s -> P (f s)) -> returns P (modify f).
Proof.
  intros Hf. constructor. intros s Hs. exists (f s), tt.
  split; [reflexivity | apply Hf, Hs].
Qed.

Lemma returns_bind {A B} (m : M S A) (k : A -> M S B) :
  returns P m -> (forall x, returns P (k x)) -> returns P (bind m k).
Proof.
  intros Hm Hk. constructor. intros s Hs. unfold bind.
  destruct (returns_run Hm s Hs) as [s1 [x [E1 H1]]]. rewrite E1.
  exact (returns_run (Hk x) s1 H1).
Qed.

Lemma returns_for_each {A} (l : list A) (body : A -> M S unit) :
  (forall x, returns P (body x)) -> returns P (for_each l body).
Proof.
  intros Hb. induction l as [|x l IH]; simpl.
  - apply returns_ret.
  - apply returns_bind; [apply Hb | intros _; exact IH].
Qed.

Lemma returns_map_m {A B} (f : A -> M S B) (l : list A) :
  (forall x, returns P (f x)) -> returns P (map_m f l).
Proof.
  intros Hf. induction l as [|x l IH]; simpl.
  - apply returns_ret.
  - apply returns_bind; [apply Hf | intros y].
    apply returns_bind; [exact IH | intros ys; apply returns_ret].
Qed.

End Returns.

Ltac returns_step :=
  lazymatch goal with
  | |- returns _ (ret _) => apply returns_ret
  | |- returns _ get => apply returns_get
  | |- returns _ (gets _) => apply returns_gets
  | |- returns _ (bind _ _) => apply returns_bind; [|intros ?]
  | |- returns _ (for_each _ _) => apply returns_for_each; intros ?
  | |- returns _ (map_m _ _) => apply returns_map_m; intros ?
  | |- returns _ (match ?x with _ => _ end) => destruct x eqn:?
  end.

(** ** The triangulator: the property [tri] and the corners *)

Section TriangulatorTri.
Context {PR : Primitive} {NP : Numpy} {RN : Random}.

Lemma tri_existing s T : TL._tri s = Some T -> TL.tri s = Ok s (Some T).
Proof. intros H. unfold TL.tri, bind, get. rewrite H. reflexivity. Qed.

(** An access to [tri] returns; it changes [_tri] at most, and when its
    value is a triangulation, that is the stored one. *)
Lemma tri_returns s :
  exists s' o, TL.tri s = Ok s' o
    /\ TL.data s' = TL.data s /\ TL._pending s' = TL._pending s
    /\ (forall T, o = Some T -> s' = s /\ TL._tri s = Some T).
Proof.
  unfold TL.tri, bind, get. destruct (TL._tri s) as [T|] eqn:E.
  - exists s, (Some T). repeat split; try reflexivity; congruence.
  - destruct (length (TL.data s) <? 2)%nat.
    { exists s, None. repeat split; try reflexivity; discriminate. }
    destruct (find_initial_simplex (TL.points s) (TL.ndim s)).
    + eexists _, None. unfold modify, ret. split; [reflexivity|].
      repeat split; try reflexivity; discriminate.
    + exists s, None. repeat split; try reflexivity; discriminate.
Qed.

Section WithTri.
Variables (d : dict point value) (p : list point).
Local Abbreviation total := (returns (has_tri d p)).

Ltac keep_tri :=
  lazymatch goal with
  | |- returns _ (modify _) =>
      apply returns_modify; intros ? (? & ? & ?); repeat split; simpl; assumption
  end.

Lemma total_tri : total TL.tri.
Proof.
  constructor. intros s (HT & Hd & Hp). destruct HT as [T HT].
  exists s, (Some T). split; [apply tri_existing, HT|].
  repeat split; [exists T; exact HT | exact Hd | exact Hp].
Qed.

Lemma total_the_tri : total TL.the_tri.
Proof.
  constructor. intros s (HT & Hd & Hp). destruct HT as [T HT].
  exists s, T. unfold TL.the_tri, bind. rewrite (tri_existing s T HT).
  split; [reflexivity|]. repeat split; [exists T; exact HT | exact Hd | exact Hp].
Qed.

Lemma total_place_pending point simpl : total (TL.place_pending point simpl).
Proof.
  unfold TL.place_pending.
  repeat first [returns_step | keep_tri | apply total_the_tri].
Qed.

End WithTri.

(** [_tell_pending] returns; it adds the point to [_pending] and leaves
    [data] alone. *)
Lemma _tell_pending_returns point simplex s :
  exists s', TL._tell_pending point simplex s = Ok s' tt
    /\ TL.data s' = TL.data s
    /\ TL._pending s' = set_add point (TL._pending s).
Proof.
  unfold TL._tell_pending. unfold bind at 1. unfold modify at 1.
  set (s1 := TL.set__pending (set_add point (TL._pending s)) s).
  unfold bind at 1.
  destruct (tri_returns s1) as [s2 [o [E [Hd [Hp HT]]]]]. rewrite E.
  destruct o as [T|].
  - destruct (HT T eq_refl) as [-> HT']. clear HT.
    match goal with
    | |- exists s', ?m s1 = _ /\ _ =>
        assert (Hm : returns (has_tri (TL.data s1) (TL._pending s1)) m)
    end.
    { repeat first
        [ returns_step | apply total_the_tri | apply total_place_pending ]. }
    destruct (returns_run Hm s1) as [s3 [[] [E3 (_ & Hd3 & Hp3)]]].
    { repeat split; try reflexivity. exists T. exact HT'. }
    exists s3. split; [exact E3|]. split; [rewrite Hd3 | rewrite Hp3]; reflexivity.
  - exists s2. split; [reflexivity|]. split; [rewrite Hd | rewrite Hp]; reflexivity.
Qed.

Lemma bounds_to_do_not_done s c rest :
  bounds_to_do s = c :: rest -> TL.bounds_are_done s = false.
Proof.
  intros H. unfold TL.bounds_are_done.
  assert (Hc : In c (bounds_to_do s)) by (rewrite H; left; reflexivity).
  unfold bounds_to_do in Hc. apply filter_In in Hc as [Hin Hc].
  apply andb_prop in Hc as [Hc _]. apply negb_true_iff in Hc.
  destruct (forallb _ _) eqn:E; [|reflexivity].
  rewrite forallb_forall in E. rewrite (E c Hin) in Hc. discriminate.
Qed.

(** While a corner is left, [_ask] returns the first one, with loss
    improvement [inf], and marks it as pending. *)
Lemma _ask_corner s c rest :
  bounds_to_do s = c :: rest ->
  exists s', TL._ask s = Ok s' (c, inf)
    /\ TL.data s' = TL.data s
    /\ TL._pending s' = set_add c (TL._pending s).
Proof.
  intros H. unfold TL._ask. unfold bind at 1. unfold get at 1.
  rewrite (bounds_to_do_not_done s c rest H). simpl negb. cbv iota.
  fold (bounds_to_do s). rewrite H. simpl take. unfold bind at 1. simpl for_each.
  unfold bind at 1. unfold bind at 1.
  destruct (_tell_pending_returns c None s) as [s' [E [Hd Hp]]]. rewrite E.
  exists s'. split; [reflexivity|]. split; assumption.
Qed.

Lemma ask_corner s c rest :
  bounds_to_do s = c :: rest ->
  exists s', TL.ask 1 s = Ok s' ([c], [inf])
    /\ TL.data s' = TL.data s
    /\ TL._pending s' = set_add c (TL._pending s).
Proof.
  intros H. destruct (_ask_corner s c rest H) as [s' [E [Hd Hp]]].
  exists s'. split; [|split; assumption].
  unfold TL.ask. simpl. unfold bind. rewrite E. reflexivity.
Qed.

(** Some corner is left exactly when [bounds_to_do] is not empty. *)
Lemma corner_left s c :
  In c (TL._bounds_points s) -> dict_mem c (TL.data s) = false ->
  set_mem c (TL._pending s) = false ->
  exists c' rest, bounds_to_do s = c' :: rest.
Proof.
  intros Hin Hd Hp.
  assert (Hc : In c (bounds_to_do s)).
  { unfold bounds_to_do. apply filter_In. split; [exact Hin|]. rewrite Hd, Hp. reflexivity. }
  destruct (bounds_to_do s) as [|c' rest]; [inversion Hc|]. exists c', rest. reflexivity.
Qed.

End TriangulatorTri.

(** ** The triangulator: what [ask] adds to [_pending] *)

Section TriangulatorAsk.
Context {PR : Primitive} {NP : Numpy} {RN : Random}.

Section From.
Variables (d : dict point value) (p : list point).
Local Abbreviation kept := (stable (keeps_data d p)).
Local Abbreviation asks := (yields (keeps_data d p) (asked d p)).

Ltac frame :=
  repeat first
    [ stable_step
    | apply data_kept_tri | apply data_kept_the_tri | apply data_kept__simplex_exists
    | apply data_kept_losses | apply data_kept_random_point
    | apply stable_modify; intros ? [? ?]; split; simpl; assumption ].

Lemma asked__tell_pending x simplex (l : float) :
  asks (TL._tell_pending x simplex ;; ret (x, l)).
Proof.
  constructor. intros s [Hd Hp]. unfold bind, ret.
  destruct (_tell_pending_returns x simplex s) as [s' [E [Hd' Hp']]].
  rewrite E. split; [congruence|]. right. simpl. congruence.
Qed.

Ltac ask_step :=
  first [ apply asked__tell_pending | yields_step; [frame|] | yields_step ].

Lemma asked_sample_simplex loss simplex pending_losses :
  asks (TL.sample_simplex loss simplex pending_losses).
Proof. unfold TL.sample_simplex. repeat ask_step. Qed.

Lemma asked_ask_loop fuel losses pending_losses :
  asks (TL.ask_loop fuel losses pending_losses).
Proof.
  revert losses pending_losses.
  induction fuel as [|fuel IH]; intros losses pending_losses; simpl;
    repeat first [apply asked_sample_simplex | apply IH | ask_step].
Qed.

(** The part of [_ask] that follows the corners. *)
Lemma asked_no_corner :
  asks (let* ls := TL.losses in
        let losses := map (fun kv => ((- kv.2)%float, kv.1)) ls in
        match losses with
        | [] => let* p := TL.random_point in ret (p, inf)
        | _ => TL.ask_loop (length losses) losses []
        end).
Proof.
  cbv zeta. ask_step. ask_step.
  - ask_step. apply yields_ret. intros s [Hd Hp]. split; [exact Hd | left; exact Hp].
  - apply asked_ask_loop.
Qed.

End From.

Lemma asked__ask s :
  match TL._ask s with
  | Ok s' r => asked (TL.data s) (TL._pending s) r s'
  | _ => True
  end.
Proof.
  destruct (bounds_to_do s) as [|c rest] eqn:H.
  - unfold TL._ask. unfold bind at 1. unfold get at 1.
    fold (bounds_to_do s). rewrite H.
    assert (E : forall b : bool,
              (if b then for_each (take 1 []) (fun p : point => TL._tell_pending p None) ;;
                         ret (take 1 [])
               else ret (S:=TL.t) (@nil point)) s = Ok s []).
    { intros []; reflexivity. }
    unfold bind at 1. rewrite E.
    exact (yields_run (asked_no_corner (TL.data s) (TL._pending s)) s (conj eq_refl eq_refl)).
  - destruct (_ask_corner s c rest H) as [s' [E [Hd Hp]]]. rewrite E.
    split; [exact Hd | right; exact Hp].
Qed.

(** [ask(n)] leaves [data] as it was, and every point of [_pending] was
    pending before or is one of the returned points. *)
Lemma asked_ask n s :
  match TL.ask n s with
  | Ok s' r =>
      TL.data s' = TL.data s
      /\ forall x, x ∈ TL._pending s' -> x ∈ TL._pending s \/ x ∈ r.1
  | _ => True
  end.
Proof.
  unfold TL.ask. unfold bind at 1.
  assert (H : match map_m (fun _ : nat => TL._ask) (seq 0 n) s with
              | Ok s' rs =>
                  TL.data s' = TL.data s
                  /\ forall x, x ∈ TL._pending s' -> x ∈ TL._pending s \/ x ∈ rs.*1
              | _ => True
              end).
  { generalize (seq 0 n). intros l. revert s.
    induction l as [|i l IH]; intros s; simpl.
    - split; [reflexivity | intros x Hx; left; exact Hx].
    - unfold bind at 1. pose proof (asked__ask s) as Ha.
      destruct (TL._ask s) as [s1 r| |]; [|exact I|exact I].
      unfold bind at 1. specialize (IH s1).
      destruct (map_m _ l s1) as [s2 rs| |]; [|exact I|exact I].
      unfold ret. destruct Ha as [Hd Hp], IH as [Hd' Hp'].
      split; [congruence|]. intros x Hx. simpl.
      destruct (Hp' x Hx) as [Hx1|Hx1]; [|right; right; exact Hx1].
      destruct Hp as [Hp|Hp]; rewrite Hp in Hx1; [left; exact Hx1|].
      apply set_add_elem in Hx1 as [Hx1| ->]; [left; exact Hx1 | right; left]. }
  destruct (map_m _ _ s) as [s' rs| |]; [|exact I|exact I].
  destruct rs as [|r rs]; [exact I|]. exact H.
Qed.

End TriangulatorAsk.

(** ** The integrator: the reports change the cache only *)

Section IntegratorReportsFrame.
Context {CO : Coeffs} {LA : LinAlg}.

Lemma same_but_cache_complete_branches s0 : stable (same_but_cache s0) IL.complete_branches.
Proof.
  unfold IL.complete_branches.
  repeat first
    [ stable_step
    | apply stable_modify; intros s Hs;
      unfold same_but_cache, IL.set__complete_branches in *; simpl in *; exact Hs ].
Qed.

Lemma same_but_cache_igral s0 : stable (same_but_cache s0) IL.igral.
Proof.
  unfold IL.igral. repeat first [stable_step | apply same_but_cache_complete_branches].
Qed.

Lemma same_but_cache_err s0 : stable (same_but_cache s0) IL.err.
Proof.
  unfold IL.err. repeat first [stable_step | apply same_but_cache_complete_branches].
Qed.

Lemma same_but_cache_reports s0 c :
  match c with
  | Trace.ILoss | Trace.IDone | Trace.IIgral | Trace.IErr => True
  | _ => False
  end ->
  stable (same_but_cache s0) (Trace.integrator_step c).
Proof.
  destruct c; intros []; unfold Trace.integrator_step, Trace.and_then, IL.loss, IL.done;
    repeat first [stable_step | apply same_but_cache_igral | apply same_but_cache_err].
Qed.

End IntegratorReportsFrame.

(** ** Pre- and postconditions *)

Section TripleRules.
Context {S : Type} (F : Prop).
Implicit Types (P E : S -> Prop).

Lemma triple_ret {A} P (Q : A -> S -> Prop) E (x : A) :
  (forall s, P s -> Q x s) -> triple F P (ret x) Q E.
Proof. intros H. constructor. exact H. Qed.

Lemma triple_raise {A} P (Q : A -> S -> Prop) E (e : exn) :
  (forall s, P s -> E s) -> triple F P (raise e) Q E.
Proof. intros H. constructor. exact H. Qed.

Lemma triple_out_of_fuel {A} P (Q : A -> S -> Prop) E : F -> triple F P out_of_fuel Q E.
Proof. intros HF. constructor. intros s _. exact HF. Qed.

Lemma triple_gets {A} P E (f : S -> A) :
  triple F P (gets f) (fun x s => P s /\ x = f s) E.
Proof. constructor. intros s Hs. split; [exact Hs | reflexivity]. Qed.

Lemma triple_gets_drop {A} P E (f : S -> A) : triple F P (gets f) (fun _ => P) E.
Proof. constructor. intros s Hs. exact Hs. Qed.

Lemma triple_get_drop P E : triple F P get (fun _ => P) E.
Proof. constructor. intros s Hs. exact Hs. Qed.

Lemma triple_get P E : triple F P get (fun x s => P s /\ x = s) E.
Proof. constructor. intros s Hs. split; [exact Hs | reflexivity]. Qed.

Lemma triple_modify P (Q : unit -> S -> Prop) E (f : S -> S) :
  (forall s, P s -> Q tt (f s)) -> triple F P (modify f) Q E.
Proof. intros H. constructor. exact H. Qed.

Lemma triple_bind {A B} P (R : A -> S -> Prop) (Q : B -> S -> Prop) E
    (m : M S A) (k : A -> M S B) :
  triple F P m R E -> (forall x, triple F (R x) (k x) Q E) -> triple F P (bind m k) Q E.
Proof.
  intros Hm Hk. constructor. intros s Hs. unfold bind.
  pose proof (triple_run Hm s Hs) as H.
  destruct (m s) as [s' x|s' e|]; [exact (triple_run (Hk x) s' H) | exact H | exact H].
Qed.

(** The two ways of nesting three steps run alike. *)
Lemma triple_bind_assoc {A B C} P (Q : C -> S -> Prop) E
    (m : M S A) (f : A -> M S B) (g : B -> M S C) :
  triple F P (bind (bind m f) g) Q E -> triple F P (bind m (fun x => bind (f x) g)) Q E.
Proof.
  intros H. constructor. intros s Hs. pose proof (triple_run H s Hs) as Hr.
  unfold bind in *. destruct (m s) as [s' x|s' e|]; exact Hr.
Qed.

Lemma triple_pre {A} P P' (Q : A -> S -> Prop) E (m : M S A) :
  triple F P m Q E -> (forall s, P' s -> P s) -> triple F P' m Q E.
Proof.
  intros Hm HP. constructor. intros s Hs. exact (triple_run Hm s (HP s Hs)).
Qed.

Lemma triple_post {A} P (Q Q' : A -> S -> Prop) E (m : M S A) :
  triple F P m Q E -> (forall x s, Q x s -> Q' x s) -> triple F P m Q' E.
Proof.
  intros Hm HQ. constructor. intros s Hs.
  pose proof (triple_run Hm s Hs) as H.
  destruct (m s) as [s' x|s' e|]; [exact (HQ x s' H) | exact H | exact H].
Qed.

Lemma triple_exn {A} P (Q : A -> S -> Prop) E E' (m : M S A) :
  triple F P m Q E -> (forall s, E s -> E' s) -> triple F P m Q E'.
Proof.
  intros Hm HE. constructor. intros s Hs.
  pose proof (triple_run Hm s Hs) as H.
  destruct (m s) as [s' x|s' e|]; [exact H | exact (HE s' H) | exact H].
Qed.

(** A fact that does not depend on the state. *)
Lemma triple_pure {A} P (G : Prop) (Q : A -> S -> Prop) E (m : M S A) :
  (G -> triple F P m Q E) -> triple F (fun s => P s /\ G) m Q E.
Proof.
  intros Hm. constructor. intros s [Hs HG]. exact (triple_run (Hm HG) s Hs).
Qed.

(** A loop with the invariant [I]. *)
Lemma triple_for_each {A} (I : S -> Prop) E (l : list A) (body : A -> M S unit) :
  (forall x, x ∈ l -> triple F I (body x) (fun _ => I) E) ->
  triple F I (for_each l body) (fun _ => I) E.
Proof.
  induction l as [|x l IH]; intros Hb; simpl.
  - apply triple_ret. intros s Hs. exact Hs.
  - eapply triple_bind; [apply Hb; apply elem_of_cons; left; reflexivity|].
    intros u. apply IH. intros y Hy. apply Hb. apply elem_of_cons. right. exact Hy.
Qed.

Lemma triple_map_m {A B} (I : S -> Prop) E (f : A -> M S B) (l : list A) :
  (forall x, triple F I (f x) (fun _ => I) E) ->
  triple F I (map_m f l) (fun _ => I) E.
Proof.
  intros Hf. induction l as [|x l IH]; simpl.
  - apply triple_ret. intros s Hs. exact Hs.
  - eapply triple_bind; [apply Hf|]. intros y.
    eapply triple_bind; [exact IH|]. intros ys. apply triple_ret. intros s Hs. exact Hs.
Qed.

End TripleRules.

(** A run that is shown to end is a run of which nothing is claimed when
    it does not. *)
Lemma triple_total {S A} (F : Prop) (P : S -> Prop) (m : M S A) Q E :
  triple False P m Q E -> triple F P m Q E.
Proof.
  intros H. constructor. intros s Hs. pose proof (triple_run H s Hs) as Hr.
  destruct (m s); [exact Hr | exact Hr | destruct Hr].
Qed.

(** A computation that keeps [I] whether it returns or raises. *)
Lemma stable_triple {S A} (I : S -> Prop) (m : M S A) :
  triple True I m (fun _ => I) I -> stable I m.
Proof. intros H. constructor. exact (triple_run H). Qed.

(** ** The store of intervals *)

Lemma links_ok_at (hp : list Interval.t) h iv :
  links_ok hp -> hp !! h = Some iv ->
  (forall k, k ∈ Interval.children iv -> h < k < length hp)
  /\ (forall p, Interval.parent iv = Some p -> p < h).
Proof. intros [Ht Hp] E. split; [exact (Ht h iv E) | exact (Hp h iv E)]. Qed.

Lemma links_ok_pointwise (hp : list Interval.t) :
  (forall h iv, hp !! h = Some iv ->
     (forall k, k ∈ Interval.children iv -> h < k < length hp)
     /\ (forall p, Interval.parent iv = Some p -> p < h)) ->
  links_ok hp.
Proof.
  intros H. split; intros h iv E; [exact (proj1 (H h iv E)) | exact (proj2 (H h iv E))].
Qed.

Lemma lookup_alter (f : Interval.t -> Interval.t) (h k : nat) (hp : list Interval.t) :
  Interval.lookup (alter f h hp) k
  = if decide (k = h /\ h < length hp) then f (Interval.lookup hp h)
    else Interval.lookup hp k.
Proof.
  unfold Interval.lookup, Interval.heap. rewrite list_lookup_alter.
  destruct (decide (h = k)) as [->|Hne].
  - destruct (hp !! k) as [i|] eqn:E; simpl.
    + rewrite decide_True; [reflexivity|]. split; [reflexivity|].
      apply lookup_lt_is_Some. exists i. exact E.
    + rewrite decide_False; [reflexivity|]. intros [_ Hlt].
      apply lookup_ge_None in E. lia.
  - rewrite decide_False; [reflexivity|]. intros [-> _]. congruence.
Qed.

Lemma lookup_app_old (hp : list Interval.t) (i : Interval.t) (k : nat) :
  Interval.discard i = false ->
  Interval.discard (Interval.lookup (hp ++ [i]) k) = Interval.discard (Interval.lookup hp k).
Proof.
  intros Hi. unfold Interval.lookup, Interval.heap.
  destruct (decide (k < length hp)) as [Hlt|Hge].
  - rewrite lookup_app_l by exact Hlt. reflexivity.
  - rewrite lookup_app_r by lia. rewrite (proj2 (lookup_ge_None hp k)) by lia. simpl.
    destruct (k - length hp) as [|j]; simpl; [exact Hi | reflexivity].
Qed.

Lemma links_ok_alter (f : Interval.t -> Interval.t) (h : nat) (hp : list Interval.t) :
  links_ok hp ->
  (forall i, hp !! h = Some i ->
     (forall k, k ∈ Interval.children (f i) -> h < k < length hp)
     /\ Interval.parent (f i) = Interval.parent i) ->
  links_ok (alter f h hp).
Proof.
  intros Hok Hf. apply links_ok_pointwise. intros k iv Hk.
  rewrite length_alter. rewrite list_lookup_alter in Hk.
  destruct (decide (h = k)) as [->|Hne].
  - destruct (hp !! k) as [i|] eqn:E; simpl in Hk; [|discriminate].
    inversion Hk; subst. destruct (Hf i eq_refl) as [Hc Hp]. split; [exact Hc|].
    rewrite Hp. exact (proj2 (links_ok_at hp k i Hok E)).
  - exact (links_ok_at hp k iv Hok Hk).
Qed.

Lemma links_ok_app (hp : list Interval.t) (i : Interval.t) :
  links_ok hp ->
  Interval.children i = [] ->
  (forall p, Interval.parent i = Some p -> p < length hp) ->
  links_ok (hp ++ [i]).
Proof.
  intros Hok Hc Hp. apply links_ok_pointwise. intros k iv Hk. rewrite length_app. simpl.
  destruct (decide (k < length hp)) as [Hlt|Hge].
  - rewrite lookup_app_l in Hk by exact Hlt.
    destruct (links_ok_at hp k iv Hok Hk) as [H1 H2].
    split; [|exact H2]. intros j Hj. specialize (H1 j Hj). lia.
  - rewrite lookup_app_r in Hk by lia.
    destruct (k - length hp) as [|j] eqn:Ej; simpl in Hk; [|discriminate].
    inversion Hk; subst. split.
    + rewrite Hc. intros j Hj. inversion Hj.
    + intros p Hpp. specialize (Hp p Hpp). lia.
Qed.

(** ** Membership in the containers *)

Lemma sorted_insert_elem {K} (lt : K -> K -> bool) (key : nat -> K) (h k : nat) l :
  k ∈ sorted_insert lt key h l -> k ∈ l \/ k = h.
Proof.
  induction l as [|j l IH]; simpl.
  - intros Hk. apply list_elem_of_singleton in Hk. right. exact Hk.
  - destruct (lt (key h) (key j)).
    + intros Hk. apply elem_of_cons in Hk as [->|Hk]; [right; reflexivity | left; exact Hk].
    + intros Hk. apply elem_of_cons in Hk as [->|Hk].
      * left. apply elem_of_cons. left. reflexivity.
      * destruct (IH Hk) as [H|H]; [left; apply elem_of_cons; right; exact H | right; exact H].
Qed.

Lemma sorted_add_elem {K} (lt : K -> K -> bool) (key : nat -> K) (h k : nat) l :
  k ∈ sorted_add lt key h l -> k ∈ l \/ k = h.
Proof.
  unfold sorted_add. destruct (obj_mem h l); [left; assumption | apply sorted_insert_elem].
Qed.

Lemma obj_discard_elem (h k : nat) l : k ∈ obj_discard h l -> k ∈ l /\ k <> h.
Proof.
  unfold obj_discard. rewrite !list_elem_of_In, filter_In. intros [H Hn].
  split; [exact H|]. intros ->. rewrite Nat.eqb_refl in Hn. discriminate.
Qed.

Lemma obj_mem_elem (h : nat) l : obj_mem h l = true -> h ∈ l.
Proof.
  unfold obj_mem. rewrite existsb_exists. intros (k & Hk & E).
  apply Nat.eqb_eq in E as ->. apply list_elem_of_In. exact Hk.
Qed.

Lemma dict_set_elem {K V} `{PyEq K} (k k' : K) (v v' : V) (d : dict K V) :
  (k', v') ∈ dict_set k v d -> (k', v') ∈ d \/ v' = v.
Proof.
  induction d as [|[k0 v0] d IH]; simpl.
  - intros Hk. apply list_elem_of_singleton in Hk. inversion Hk. right. reflexivity.
  - destruct (py_eqb k0 k).
    + intros Hk. apply elem_of_cons in Hk as [Hk|Hk].
      * inversion Hk. right. reflexivity.
      * left. apply elem_of_cons. right. exact Hk.
    + intros Hk. apply elem_of_cons in Hk as [Hk|Hk].
      * left. apply elem_of_cons. left. exact Hk.
      * destruct (IH Hk) as [H'|H']; [left; apply elem_of_cons; right; exact H' | right; exact H'].
Qed.

Lemma dict_get_elem {K V} `{PyEq K} (k : K) (v : V) (d : dict K V) :
  dict_get k d = Some v -> exists k', (k', v) ∈ d.
Proof.
  unfold dict_get. induction d as [|[k0 v0] d IH]; simpl; [discriminate|].
  destruct (py_eqb k0 k); simpl.
  - intros [= ->]. exists k0. apply elem_of_cons. left. reflexivity.
  - intros Hd. destruct (IH Hd) as [k' Hk']. exists k'. apply elem_of_cons. right. exact Hk'.
Qed.

(** ** The integrator: the interval tree stays well formed *)

Section WellFormed.
Context {CO : Coeffs} {LA : LinAlg} (F : Prop).
Implicit Types (R : list nat) (D : list (nat * bool)) (s : IL.t).

Lemma well_formed_with_weaken R D R' D' s :
  (forall h, h ∈ R -> h ∈ R') -> (forall h, h ∈ D -> h ∈ D') ->
  well_formed_with R' D' s -> well_formed_with R D s.
Proof.
  intros HR HD (Hw & Hr & Hd). split; [exact Hw|]. split.
  - intros h Hh. exact (Hr h (HR h Hh)).
  - intros k b Hh. exact (Hd k b (HD (k, b) Hh)).
Qed.

Lemma well_formed_with_well_formed R D s : well_formed_with R D s -> well_formed s.
Proof. intros H. exact (proj1 H). Qed.

Lemma well_formed_with_nil s : well_formed s -> well_formed_with [] [] s.
Proof.
  intros H. split; [exact H|]. split; [intros h Hh | intros k b Hh]; inversion Hh.
Qed.

(** [well_formed] reads the store, [ivals], [priority_split] and
    [x_mapping] only. *)
Lemma well_formed_with_ext R D s s' :
  IL.heap s' = IL.heap s -> IL.ivals s' = IL.ivals s ->
  IL.priority_split s' = IL.priority_split s -> IL.x_mapping s' = IL.x_mapping s ->
  well_formed_with R D s -> well_formed_with R D s'.
Proof.
  intros Hh Hi Hp Hx.
  unfold well_formed_with, well_formed, not_discarded, discard_is, referred.
  rewrite Hh, Hi, Hp, Hx. exact id.
Qed.

Lemma wf_modify R D (f : IL.t -> IL.t) :
  (forall s, IL.heap (f s) = IL.heap s /\ IL.ivals (f s) = IL.ivals s
             /\ IL.priority_split (f s) = IL.priority_split s
             /\ IL.x_mapping (f s) = IL.x_mapping s) ->
  triple F (well_formed_with R D) (modify f) (fun _ => well_formed_with R D) (well_formed_with [] D).
Proof.
  intros Hf. apply triple_modify. intros s Hs. destruct (Hf s) as (H1 & H2 & H3 & H4).
  exact (well_formed_with_ext R D s (f s) H1 H2 H3 H4 Hs).
Qed.

(** A new store with well-formed links, at least as large, in which the
    same intervals are discarded. *)
Lemma well_formed_with_heap R D s (hp' : list Interval.t) :
  links_ok hp' -> length (IL.heap s) <= length hp' ->
  (forall k, Interval.discard (Interval.lookup hp' k)
             = Interval.discard (Interval.lookup (IL.heap s) k)) ->
  well_formed_with R D s -> well_formed_with R D (IL.set_heap hp' s).
Proof.
  intros Hl' Hlen Hk ((Hl & Hr & Hi) & HR & HD).
  unfold well_formed_with, well_formed, not_discarded, discard_is, referred in *. simpl.
  split; [split; [|split]|split].
  - exact Hl'.
  - intros k Hk'. specialize (Hr k Hk'). lia.
  - intros k Hk'. rewrite Hk. exact (Hi k Hk').
  - intros k Hk'. specialize (HR k Hk'). lia.
  - intros k b Hk'. rewrite Hk. exact (HD k b Hk').
Qed.

(** An update of an interval that leaves its links and [discard] alone. *)
Lemma wf_upd_ival R D h (f : Interval.t -> Interval.t) :
  triple F (fun s => well_formed_with R D s
                   /\ same_links (f (Interval.lookup (IL.heap s) h))
                                 (Interval.lookup (IL.heap s) h))
         (IL.upd_ival h f) (fun _ => well_formed_with R D) (well_formed_with [] D).
Proof.
  apply triple_modify. intros s (Hs & (Hc & Hp & Hd)).
  apply well_formed_with_heap; [| |intros k|exact Hs].
  - apply links_ok_alter; [exact (proj1 (proj1 Hs))|]. intros i Ei.
    assert (Interval.lookup (IL.heap s) h = i) as Hi'.
    { unfold Interval.lookup. unfold Interval.heap in *. rewrite Ei. reflexivity. }
    rewrite Hi' in Hc, Hp. rewrite Hc, Hp. split; [|reflexivity].
    exact (proj1 (links_ok_at _ h i (proj1 (proj1 Hs)) Ei)).
  - unfold Interval.heap. rewrite length_alter. lia.
  - rewrite lookup_alter. destruct (decide _) as [[-> _]|_]; [exact Hd | reflexivity].
Qed.

Lemma wf_ivals_discard R D h :
  triple F (well_formed_with R D) (IL.ivals_discard h) (fun _ => well_formed_with R D)
         (well_formed_with [] D).
Proof.
  apply triple_modify. intros s ((Hl & Hr & Hi) & HR & HD).
  unfold well_formed_with, well_formed, not_discarded, discard_is, referred in *. simpl.
  split; [split; [|split]|split]; try assumption.
  - intros k [Hk|Hk]; apply Hr; [left; exact (proj1 (obj_discard_elem _ _ _ Hk)) | right; exact Hk].
  - intros k Hk. apply Hi. exact (proj1 (obj_discard_elem _ _ _ Hk)).
Qed.

Lemma wf_ivals_add R D h :
  h ∈ R -> (h, false) ∈ D ->
  triple F (well_formed_with R D) (IL.ivals_add h) (fun _ => well_formed_with R D)
         (well_formed_with [] D).
Proof.
  intros HhR HhD. apply triple_modify. intros s ((Hl & Hr & Hi) & HR & HD).
  unfold well_formed_with, well_formed, not_discarded, discard_is, referred in *. simpl.
  split; [split; [|split]|split]; try assumption.
  - intros k [Hk|Hk]; [|apply Hr; right; exact Hk].
    apply sorted_add_elem in Hk as [Hk| ->]; [apply Hr; left; exact Hk | exact (HR h HhR)].
  - intros k Hk. apply sorted_add_elem in Hk as [Hk| ->]; [exact (Hi k Hk) | exact (HD h false HhD)].
Qed.

Lemma well_formed_with_x_mapping R D s (xm' : dict float (list nat)) :
  (forall x ivs h, (x, ivs) ∈ xm' -> h ∈ ivs -> h < length (IL.heap s)) ->
  well_formed_with R D s -> well_formed_with R D (IL.set_x_mapping xm' s).
Proof.
  intros Hx ((Hl & Hr & Hi) & HR & HD).
  unfold well_formed_with, well_formed, not_discarded, discard_is, referred in *. simpl.
  split; [split; [|split]|split]; try assumption.
  intros k [Hk|[Hk|(x & ivs & Hk & Hk')]].
  - apply Hr. left. exact Hk.
  - apply Hr. right. left. exact Hk.
  - exact (Hx x ivs k Hk Hk').
Qed.

Lemma well_formed_with_cons R D s k :
  k < length (IL.heap s) -> well_formed_with R D s -> well_formed_with (k :: R) D s.
Proof.
  intros Hk (Hw & HR & HD). split; [exact Hw|]. split; [|exact HD].
  intros h Hh. apply elem_of_cons in Hh as [->|Hh]; [exact Hk | exact (HR h Hh)].
Qed.

Lemma well_formed_with_app R D s ks :
  (forall k, k ∈ ks -> k < length (IL.heap s)) ->
  well_formed_with R D s -> well_formed_with (ks ++ R) D s.
Proof.
  intros Hk (Hw & HR & HD). split; [exact Hw|]. split; [|exact HD].
  intros h Hh. apply elem_of_app in Hh as [Hh|Hh]; [exact (Hk h Hh) | exact (HR h Hh)].
Qed.

Lemma well_formed_with_referred R D s x ivs h :
  well_formed_with R D s -> (x, ivs) ∈ IL.x_mapping s -> h ∈ ivs ->
  h < length (IL.heap s).
Proof.
  intros ((_ & Hr & _) & _) Hx Hh. apply Hr. right. right. exists x, ivs. split; assumption.
Qed.

(** [x_mapping[x]] holds intervals of the store. *)
Lemma wf_x_mapping_get R D x :
  triple F (well_formed_with R D) (IL.x_mapping_get x)
         (fun ivs => well_formed_with (ivs ++ R) D) (well_formed_with [] D).
Proof.
  constructor. intros s Hs. unfold IL.x_mapping_get, bind, gets.
  destruct (dict_get x (IL.x_mapping s)) as [ivs|] eqn:E; simpl.
  - apply well_formed_with_app; [|exact Hs]. intros k Hk.
    destruct (dict_get_elem x ivs _ E) as [x' Hx'].
    exact (well_formed_with_referred R D s x' ivs k Hs Hx' Hk).
  - apply well_formed_with_x_mapping; [|exact Hs].
    intros x' ivs h Hx' Hh. apply dict_set_elem in Hx' as [Hx'| ->].
    + exact (well_formed_with_referred R D s x' ivs h Hs Hx' Hh).
    + inversion Hh.
Qed.

Lemma wf_x_mapping_add R D x h :
  h ∈ R ->
  triple F (well_formed_with R D) (IL.x_mapping_add x h) (fun _ => well_formed_with R D)
         (well_formed_with [] D).
Proof.
  intros HhR. unfold IL.x_mapping_add.
  eapply triple_bind; [apply wf_x_mapping_get|]. intros ivs.
  apply triple_modify. intros s Hs.
  apply (well_formed_with_weaken R D (ivs ++ R) D);
    [intros k Hk; apply elem_of_app; right; exact Hk | intros k Hk; exact Hk |].
  apply well_formed_with_x_mapping; [|exact Hs].
  intros x' ivs' k Hx' Hk. apply dict_set_elem in Hx' as [Hx'| ->].
  - exact (well_formed_with_referred _ _ s x' ivs' k Hs Hx' Hk).
  - destruct Hs as (_ & HR & _). apply HR. apply elem_of_app.
    apply sorted_add_elem in Hk as [Hk| ->]; [left; exact Hk | right; exact HhR].
Qed.

(** A new interval without children that is not discarded, with its
    parent in the store. *)
Lemma wf_new_ival R D (i : Interval.t) :
  Interval.children i = [] -> Interval.discard i = false ->
  (forall p, Interval.parent i = Some p -> p ∈ R) ->
  triple F (well_formed_with R D) (IL.new_ival i)
         (fun k s => well_formed_with (k :: R) D s /\ forall h, h ∈ R -> h < k)
         (well_formed_with [] D).
Proof.
  intros Hc Hd Hp. constructor. intros s Hs. unfold IL.new_ival, Interval.alloc.
  split; [|exact (proj1 (proj2 Hs))].
  apply well_formed_with_cons; [simpl; rewrite length_app; simpl; lia|].
  apply well_formed_with_heap; [| |intros k|exact Hs].
  - apply links_ok_app; [exact (proj1 (proj1 Hs)) | exact Hc |].
    intros p Hpp. exact (proj1 (proj2 Hs) p (Hp p Hpp)).
  - rewrite length_app. lia.
  - apply lookup_app_old, Hd.
Qed.

(** The children of an interval are assigned: they are younger intervals
    of the store. *)
Lemma wf_set_children R D h ks :
  (forall k, k ∈ ks -> h < k /\ k ∈ R) ->
  triple F (well_formed_with R D) (IL.upd_ival h (Interval.set_children ks))
         (fun _ => well_formed_with R D) (well_formed_with [] D).
Proof.
  intros Hks. apply triple_modify. intros s Hs.
  apply well_formed_with_heap; [| |intros k|exact Hs].
  - apply links_ok_alter; [exact (proj1 (proj1 Hs))|]. intros i Ei. simpl.
    split; [|reflexivity]. intros k Hk. destruct (Hks k Hk) as [H1 H2].
    split; [exact H1 | exact (proj1 (proj2 Hs) k H2)].
  - unfold Interval.heap. rewrite length_alter. lia.
  - rewrite lookup_alter. destruct (decide _) as [[-> _]|_]; reflexivity.
Qed.

Lemma wf_set_priority_split R D l :
  triple F (fun s => well_formed_with R D s /\ forall h, h ∈ l -> h ∈ IL.priority_split s)
         (modify (IL.set_priority_split l)) (fun _ => well_formed_with R D) (well_formed_with [] D).
Proof.
  apply triple_modify. intros s (((Hl & Hr & Hi) & HR & HD) & Hsub).
  unfold well_formed_with, well_formed, not_discarded, discard_is, referred in *. simpl.
  split; [split; [|split]|split]; try assumption.
  intros k [Hk|[Hk|Hk]]; apply Hr; [left; exact Hk | right; left; exact (Hsub k Hk)
                                    | right; right; exact Hk].
Qed.

Lemma wf_priority_split_append R D h :
  h ∈ R ->
  triple F (well_formed_with R D)
         (modify (fun s => IL.set_priority_split (IL.priority_split s ++ [h]) s))
         (fun _ => well_formed_with R D) (well_formed_with [] D).
Proof.
  intros HhR. apply triple_modify. intros s ((Hl & Hr & Hi) & HR & HD).
  unfold well_formed_with, well_formed, not_discarded, discard_is, referred in *. simpl.
  split; [split; [|split]|split]; try assumption.
  intros k [Hk|[Hk|Hk]]; [apply Hr; left; exact Hk | | apply Hr; right; right; exact Hk].
  apply elem_of_app in Hk as [Hk|Hk]; [apply Hr; right; left; exact Hk|].
  apply list_elem_of_singleton in Hk as ->. exact (HR h HhR).
Qed.

Lemma wf_set_ivals R D l :
  triple F (fun s => well_formed_with R D s /\ forall h, h ∈ l -> h ∈ IL.ivals s)
         (modify (IL.set_ivals l)) (fun _ => well_formed_with R D) (well_formed_with [] D).
Proof.
  apply triple_modify. intros s (((Hl & Hr & Hi) & HR & HD) & Hsub).
  unfold well_formed_with, well_formed, not_discarded, discard_is, referred in *. simpl.
  split; [split; [|split]|split]; try assumption.
  - intros k [Hk|Hk]; apply Hr; [left; exact (Hsub k Hk) | right; exact Hk].
  - intros k Hk. exact (Hi k (Hsub k Hk)).
Qed.

Lemma wf_x_mapping_read R D x :
  triple F (well_formed_with R D) (IL.x_mapping_get x) (fun _ => well_formed_with R D)
         (well_formed_with [] D).
Proof.
  eapply triple_post; [apply wf_x_mapping_get|]. intros ivs s.
  apply well_formed_with_weaken; [intros k Hk; apply elem_of_app; right; exact Hk|].
  intros k Hk. exact Hk.
Qed.

Lemma wf_upd_ival_same R D h (f : Interval.t -> Interval.t) :
  (forall i, same_links (f i) i) ->
  triple F (well_formed_with R D) (IL.upd_ival h f) (fun _ => well_formed_with R D)
         (well_formed_with [] D).
Proof.
  intros Hf. eapply triple_pre; [apply wf_upd_ival|]. intros s Hs. split; [exact Hs|apply Hf].
Qed.

Lemma well_formed_with_not_discarded R D s h :
  Interval.discard (Interval.lookup (IL.heap s) h) = false ->
  well_formed_with R D s -> well_formed_with R ((h, false) :: D) s.
Proof.
  intros Hh (Hw & HR & HD). split; [exact Hw|]. split; [exact HR|].
  intros k b Hk. apply elem_of_cons in Hk as [Hk|Hk]; [|exact (HD k b Hk)].
  inversion Hk; subst. exact Hh.
Qed.

Lemma same_links_process_make_first (i : Interval.t) :
  same_links (Interval.process_make_first i).1 i.
Proof.
  unfold Interval.process_make_first. destruct (_zero_nans _) as [nans fx].
  destruct (_ =? _)%float; [repeat split|].
  match goal with |- context [if ?b then _ else _] => destruct b end; repeat split.
Qed.

Lemma same_links_process_split h (p i : Interval.t) :
  same_links (Interval.process_split h p i).1 i.
Proof.
  unfold Interval.process_split. destruct (_calc_coeffs _ _) as [c_new fx].
  destruct (Interval.T _ _); [|repeat split].
  match goal with |- context [if ?b then _ else _] => destruct b end; repeat split.
Qed.

Lemma same_links_process_refine (i : Interval.t) :
  same_links (Interval.process_refine i).1 i.
Proof.
  unfold Interval.process_refine. destruct (_calc_coeffs _ _) as [c_new fx].
  repeat split.
Qed.

End WellFormed.

(** The routine steps of a proof of [triple]. *)
Ltac wf_field := apply wf_modify; intros ?; repeat split.
Tactic Notation "drop_read" ident(x) :=
  eapply triple_bind; [apply triple_gets_drop | intros x].
Tactic Notation "keep_read" ident(x) :=
  eapply triple_bind; [apply triple_gets | intros x].
Tactic Notation "step" uconstr(lem) :=
  eapply triple_bind; [apply lem | intros ?].
Ltac wf_ret :=
  apply triple_ret; intros ? ?; cbv beta in *;
  repeat match goal with H : _ /\ _ |- _ => destruct H end;
  assumption.
Ltac wf_raise :=
  apply triple_raise; intros ? ?; cbv beta in *;
  repeat match goal with H : _ /\ _ |- _ => destruct H end;
  eapply well_formed_with_weaken; [| |eassumption];
  [intros ? Hnil; inversion Hnil | intros ? Hin; exact Hin].

Section WellFormedCalls.
Context {CO : Coeffs} {LA : LinAlg} (F : Prop).
Implicit Types (R : list nat) (D : list (nat * bool)) (s : IL.t).

(** The parent of an interval of a well-formed store is older. *)
Lemma parent_older R D s h p :
  well_formed_with R D s ->
  Interval.parent (Interval.lookup (IL.heap s) h) = Some p -> p < h.
Proof.
  intros ((Hl & _) & _). unfold Interval.lookup.
  destruct (IL.heap s !! h) as [i|] eqn:E; simpl; [|discriminate].
  intros Hp. exact (proj2 (links_ok_at _ h i Hl E) p Hp).
Qed.

(** The loop over the ancestors ends: the handles of the parents
    decrease. *)
Lemma wf_update_ancestors R D fuel o :
  (forall p, o = Some p -> p < fuel) ->
  triple F (well_formed_with R D) (IL.update_ancestors fuel o)
         (fun _ => well_formed_with R D) (well_formed_with [] D).
Proof.
  revert o. induction fuel as [|fuel IH]; intros [p|] Hb; simpl; try wf_ret.
  - specialize (Hb p eq_refl). lia.
  - unfold IL.get_ival. keep_read pv. drop_read hp.
    apply triple_pre with (P := fun s => well_formed_with R D s
                                  /\ forall q, Interval.parent pv = Some q -> q < fuel).
    2:{ intros s [Hs ->]. split; [exact Hs|]. intros q Hq.
        pose proof (parent_older R D s p q Hs Hq). specialize (Hb p eq_refl). lia. }
    apply triple_pure. intros Hq.
    destruct (isfinite _); [|wf_ret].
    eapply triple_bind; [apply wf_upd_ival_same; intros i; repeat split|]. intros ?.
    apply IH. exact Hq.
Qed.

(** [complete_process] of an interval of the store. *)
Lemma wf_complete_process R D h :
  h ∈ R ->
  triple F (well_formed_with R D) (IL.complete_process h)
         (fun _ => well_formed_with R D) (well_formed_with [] D).
Proof.
  intros HhR. unfold IL.complete_process, IL.put_ival, IL.get_ival.
  keep_read iv.
  apply (triple_bind F _ (fun _ => well_formed_with R D)).
  - destruct (Interval.parent iv) as [p|].
    + drop_read pv. destruct (_ <? _)%nat.
      * destruct (Interval.process_split h pv iv) as [iv' e] eqn:E.
        eapply triple_bind; [eapply triple_pre; [apply wf_upd_ival|]|intros ?].
        { intros s [Hs ->]. split; [exact Hs|]. cbv beta.
          change iv' with (iv', e).1. rewrite <- E. apply same_links_process_split. }
        destruct e; [wf_raise | wf_ret].
      * destruct (Interval.process_refine iv) as [iv' fs] eqn:E.
        eapply triple_bind; [eapply triple_pre; [apply wf_upd_ival|]|intros ?].
        { intros s [Hs ->]. split; [exact Hs|]. cbv beta.
          change iv' with (iv', fs).1. rewrite <- E. apply same_links_process_refine. }
        wf_ret.
    + destruct (Interval.process_make_first iv) as [iv' e] eqn:E.
      eapply triple_bind; [eapply triple_pre; [apply wf_upd_ival|]|intros ?].
      { intros s [Hs ->]. split; [exact Hs|]. cbv beta.
        change iv' with (iv', e).1. rewrite <- E. apply same_links_process_make_first. }
      destruct e; [wf_raise | wf_ret].
  - intros force_split. keep_read iv2.
    apply triple_pre with (P := fun s => well_formed_with R D s
                                  /\ forall p, Interval.parent iv2 = Some p -> p < h).
    2:{ intros s [Hs ->]. split; [exact Hs|]. intros p. apply (parent_older R D s h p Hs). }
    apply triple_pure. intros Hp.
    apply (triple_bind F _ (fun _ => well_formed_with R D)).
    { destruct (isinf _); [apply wf_upd_ival_same; intros i; repeat split | wf_ret]. }
    intros ?. keep_read n.
    apply triple_pre with (P := fun s => well_formed_with R D s
                                  /\ forall p, Interval.parent iv2 = Some p -> p < n).
    2:{ intros s [Hs ->]. split; [exact Hs|]. intros p Hpp.
        pose proof (proj1 (proj2 Hs) h HhR). specialize (Hp p Hpp). lia. }
    apply triple_pure. intros Hn.
    step (wf_update_ancestors R D n _ Hn).
    drop_read iv3. destruct (Interval.igral iv3); [wf_ret | wf_raise].
Qed.

(** The body of the loop of [add_point], for an interval of the store. *)
Lemma wf_deposit R D point value h :
  h ∈ R ->
  triple F (well_formed_with R D) (IL.deposit point value h)
         (fun _ => well_formed_with R D) (well_formed_with [] D).
Proof.
  intros HhR. unfold IL.deposit, IL.get_ival.
  step (wf_upd_ival_same F R D h). { intros i. repeat split. }
  keep_read iv. destruct (_ && _ && negb (Interval.discard iv)) eqn:Ec; [|wf_ret].
  apply andb_prop in Ec as [_ Ed]. apply negb_true_iff in Ed.
  apply triple_pre with (P := well_formed_with R ((h, false) :: D)).
  2:{ intros s [Hs ->]. apply well_formed_with_not_discarded; assumption. }
  eapply triple_post with (Q := fun _ => well_formed_with R ((h, false) :: D)).
  2:{ intros _ s. apply well_formed_with_weaken; intros k Hk; [exact Hk|].
      apply elem_of_cons. right. exact Hk. }
  eapply triple_exn with (E := well_formed_with [] ((h, false) :: D)).
  2:{ intros s. apply well_formed_with_weaken; intros k Hk; [exact Hk|].
      apply elem_of_cons. right. exact Hk. }
  drop_read in_ivals.
  step wf_ivals_discard.
  eapply triple_bind; [apply wf_complete_process; exact HhR|]. intros [force_split remove].
  apply (triple_bind F _ (fun _ => well_formed_with R ((h, false) :: D))).
  - destruct remove.
    + drop_read iv2. step wf_modify. { intros ?. repeat split. }
      destruct (Interval.igral iv2); [wf_field | wf_raise].
    + destruct in_ivals; [|wf_ret].
      apply wf_ivals_add; [exact HhR | apply elem_of_cons; left; reflexivity].
  - intros ?. destruct force_split; [|wf_ret].
    apply wf_priority_split_append. exact HhR.
Qed.

(** [add_point] keeps the learner well formed, and it ends. *)
Lemma wf_add_point R D point value :
  triple F (well_formed_with R D) (IL.add_point point value)
         (fun _ => well_formed_with R D) (well_formed_with [] D).
Proof.
  unfold IL.add_point. drop_read xm. destruct (negb _); [wf_raise|].
  step wf_modify. { intros ?. repeat split. }
  eapply triple_bind; [apply wf_x_mapping_get|]. intros ivs.
  eapply triple_post with (Q := fun _ => well_formed_with (ivs ++ R) D).
  2:{ intros _ s. apply well_formed_with_weaken; intros k Hk; [|exact Hk].
      apply elem_of_app. right. exact Hk. }
  apply triple_for_each. intros h Hh. apply wf_deposit. apply elem_of_app. left. exact Hh.
Qed.

Lemma wf_register R D h x :
  h ∈ R ->
  triple F (well_formed_with R D) (IL.register h x)
         (fun _ => well_formed_with R D) (well_formed_with [] D).
Proof.
  intros HhR. unfold IL.register.
  step (wf_x_mapping_add F R D x h HhR).
  drop_read dp. destruct (dict_get x dp); [apply wf_add_point|].
  drop_read nd. destruct (set_mem x nd); [wf_ret | wf_field].
Qed.

(** [_update_ival] of an interval of the store. *)
Lemma wf__update_ival R D h points :
  h ∈ R ->
  triple F (well_formed_with R D) (IL._update_ival h points)
         (fun _ => well_formed_with R D) (well_formed_with [] D).
Proof.
  intros HhR. unfold IL._update_ival, IL.get_ival.
  keep_read iv. destruct (Interval.discard iv) eqn:Ed; [wf_raise|].
  apply triple_pre with (P := well_formed_with R ((h, false) :: D)).
  2:{ intros s [Hs ->]. apply well_formed_with_not_discarded; assumption. }
  eapply triple_post with (Q := fun _ => well_formed_with R ((h, false) :: D)).
  2:{ intros _ s. apply well_formed_with_weaken; intros k Hk; [exact Hk|].
      apply elem_of_cons. right. exact Hk. }
  eapply triple_exn with (E := well_formed_with [] ((h, false) :: D)).
  2:{ intros s. apply well_formed_with_weaken; intros k Hk; [exact Hk|].
      apply elem_of_cons. right. exact Hk. }
  eapply triple_bind; [|intros ?].
  - apply triple_for_each. intros x _. apply wf_register. exact HhR.
  - apply wf_ivals_add; [exact HhR | apply elem_of_cons; left; reflexivity].
Qed.

(** [refine] adds a child to an interval of the store. *)
Lemma wf_refine R D h :
  h ∈ R ->
  triple F (well_formed_with R D) (IL.refine h)
         (fun r => well_formed_with (r.1 :: R) D) (well_formed_with [] D).
Proof.
  intros HhR. unfold IL.refine, IL.get_ival. drop_read iv.
  eapply triple_bind.
  { apply (wf_new_ival F R D (Interval.refine_child h iv)); [reflexivity | reflexivity|].
    intros p [= <-]. exact HhR. }
  intros k. apply triple_pure. intros Hk.
  step (wf_set_children F (k :: R) D h [k]).
  { intros k' Hk'. apply list_elem_of_singleton in Hk' as ->.
    split; [exact (Hk h HhR) | apply elem_of_cons; left; reflexivity]. }
  apply triple_ret. intros s Hs. exact Hs.
Qed.

(** [split] adds two children to an interval of the store. *)
Lemma wf_split R D h :
  h ∈ R ->
  triple F (well_formed_with R D) (IL.split h)
         (fun ks => well_formed_with (ks ++ R) D) (well_formed_with [] D).
Proof.
  intros HhR. unfold IL.split, IL.get_ival. drop_read iv.
  assert (Hch : forall k1 k2 k', (forall h', h' ∈ R -> h' < k1) ->
                  (forall h', h' ∈ k1 :: R -> h' < k2) ->
                  k' ∈ [k1; k2] -> h < k' /\ k' ∈ k2 :: k1 :: R).
  { intros k1 k2 k' H1 H2 Hk'. apply elem_of_cons in Hk' as [->|Hk'].
    - split; [exact (H1 h HhR)|]. apply elem_of_cons. right. apply elem_of_cons. left.
      reflexivity.
    - apply list_elem_of_singleton in Hk' as ->.
      split; [apply H2; apply elem_of_cons; right; exact HhR|].
      apply elem_of_cons. left. reflexivity. }
  destruct (Interval.tol iv) as [tl|].
  - eapply triple_bind.
    { apply (wf_new_ival F R D); [reflexivity | reflexivity|]. intros p [= <-]. exact HhR. }
    intros k1. apply triple_pure. intros H1.
    eapply triple_bind.
    { apply (wf_new_ival F (k1 :: R) D); [reflexivity | reflexivity|].
      intros p [= <-]. apply elem_of_cons. right. exact HhR. }
    intros k2. apply triple_pure. intros H2.
    step (wf_set_children F (k2 :: k1 :: R) D h [k1; k2]).
    { intros k' Hk'. exact (Hch k1 k2 k' H1 H2 Hk'). }
    apply triple_ret. intros s. apply well_formed_with_weaken; [|intros k Hk; exact Hk].
    intros k Hk. rewrite !elem_of_cons in *. rewrite elem_of_app, !elem_of_cons in Hk.
    rewrite elem_of_nil in Hk. tauto.
  - eapply triple_bind.
    { apply (wf_new_ival F R D); [reflexivity | reflexivity|]. intros p [=]. }
    intros k1. apply triple_pure. intros H1.
    eapply triple_bind.
    { apply (wf_new_ival F (k1 :: R) D); [reflexivity | reflexivity|]. intros p [=]. }
    intros k2. apply triple_pure. intros H2.
    step (wf_set_children F (k2 :: k1 :: R) D h [k1; k2]).
    { intros k' Hk'. exact (Hch k1 k2 k' H1 H2 Hk'). }
    wf_raise.
Qed.

Lemma wf_pop_from_stack R D n :
  triple F (well_formed_with R D) (IL.pop_from_stack n)
         (fun _ => well_formed_with R D) (well_formed_with [] D).
Proof.
  unfold IL.pop_from_stack. drop_read st. step wf_modify. { intros ?. repeat split. }
  apply (triple_bind F _ (fun _ => well_formed_with R D)); [|intros ?; wf_ret].
  apply triple_map_m. intros x0. step wf_x_mapping_read.
  eapply triple_bind; [apply triple_get_drop|]. intros s0.
  destruct (max_of _); [wf_ret | wf_raise].
Qed.

End WellFormedCalls.

Lemma removelast_elem {A} (x : A) (l : list A) : x ∈ removelast l -> x ∈ l.
Proof.
  induction l as [|y l IH]; simpl; [intros H; exact H|].
  destruct l as [|z l]; [intros H; inversion H|].
  intros H. apply elem_of_cons in H as [->|H]; apply elem_of_cons; [left; reflexivity|].
  right. exact (IH H).
Qed.

Section WellFormedAsk.
Context {CO : Coeffs} {LA : LinAlg}.
Implicit Types (R : list nat) (D : list (nat * bool)) (s : IL.t).

Lemma wf_prune_stack R D fuel pos :
  triple True (well_formed_with R D) (IL.prune_stack fuel pos)
         (fun _ => well_formed_with R D) (well_formed_with [] D).
Proof.
  revert pos. induction fuel as [|fuel IH]; intros pos; simpl.
  - apply triple_out_of_fuel. exact I.
  - drop_read st. destruct (st !! pos); [|wf_ret].
    step wf_x_mapping_read. drop_read hp.
    apply (triple_bind True _ (fun _ => well_formed_with R D)); [|intros ?; apply IH].
    destruct (forallb _ _); [wf_field | wf_ret].
Qed.

(** An interval is marked as discarded and leaves [ivals]. *)
Lemma wf_mark_discarded R D h {A} (k : M IL.t A) (Q : A -> IL.t -> Prop) :
  (forall j b, (j, b) ∈ D -> b = true) ->
  triple True (well_formed_with R D) k Q (well_formed_with [] D) ->
  triple True (well_formed_with R D)
         (IL.upd_ival h (Interval.set_discard true) ;; IL.ivals_discard h ;; k)%py
         Q (well_formed_with [] D).
Proof.
  intros HDt Hk. constructor. intros s Hs.
  unfold bind, IL.upd_ival, IL.ivals_discard, modify. apply (triple_run Hk).
  destruct Hs as ((Hl & Hr & Hi) & HR & HD).
  unfold well_formed_with, well_formed, not_discarded, discard_is, referred in *. simpl.
  unfold Interval.heap in *. rewrite length_alter.
  split; [split; [|split]|split]; try assumption.
  - apply links_ok_alter; [exact Hl|]. intros i Ei. split; [|reflexivity].
    exact (proj1 (links_ok_at _ h i Hl Ei)).
  - intros k' [Hk'|Hk']; apply Hr;
      [left; exact (proj1 (obj_discard_elem _ _ _ Hk')) | right; exact Hk'].
  - intros k' Hk'. apply obj_discard_elem in Hk' as [Hk' Hne].
    rewrite lookup_alter. rewrite decide_False by (intros [? _]; contradiction).
    exact (Hi k' Hk').
  - intros k' b Hk'. rewrite lookup_alter. destruct (decide _) as [[-> _]|_].
    + simpl. symmetry. exact (HDt _ _ Hk').
    + exact (HD k' b Hk').
Qed.

Lemma wf__discard R D fuel h :
  (forall j b, (j, b) ∈ D -> b = true) ->
  triple True (well_formed_with R D) (IL._discard fuel h)
         (fun _ => well_formed_with R D) (well_formed_with [] D).
Proof.
  intros HDt. revert h. induction fuel as [|fuel IH]; intros h; simpl.
  - apply triple_out_of_fuel. exact I.
  - apply wf_mark_discarded; [exact HDt|].
    apply (triple_bind True _ (fun _ => well_formed_with R D)).
    { drop_read st. exact (wf_prune_stack R D (S (length st)) 0). }
    intros ?. unfold IL.get_ival. drop_read iv.
    apply triple_for_each. intros k _. apply IH.
Qed.

Lemma wf_set_discard R D h :
  (forall j b, (j, b) ∈ D -> b = true) ->
  triple True (well_formed_with R D) (IL.set_discard h)
         (fun _ => well_formed_with R D) (well_formed_with [] D).
Proof. intros HDt. unfold IL.set_discard. drop_read n. apply wf__discard, HDt. Qed.

Lemma wf__fill_stack D :
  (forall j b, (j, b) ∈ D -> b = true) ->
  triple True (well_formed_with [] D) IL._fill_stack
         (fun _ => well_formed_with [] D) (well_formed_with [] D).
Proof.
  intros HDt. unfold IL._fill_stack, IL.get_ival. keep_read ps.
  apply (triple_bind True _ (fun r => well_formed_with [r.1] D)).
  - destruct (last ps) as [h|] eqn:El.
    + apply triple_pre
        with (P := fun s => well_formed_with [h] D s
                            /\ forall k, k ∈ removelast ps -> k ∈ IL.priority_split s).
      2:{ intros s [Hs ->]. split; [|intros k; apply removelast_elem].
          apply well_formed_with_cons; [|exact Hs].
          apply (proj1 (proj2 (proj1 Hs))). right. left.
          apply last_Some_elem_of, El. }
      step wf_set_priority_split. drop_read iv.
      eapply triple_bind;
        [apply triple_for_each; intros k _; apply wf_set_discard, HDt | intros ?].
      apply triple_ret. intros s Hs. exact Hs.
    + keep_read ivs. destruct (last ivs) as [h|] eqn:El2; [|wf_raise].
      apply triple_pre with (P := well_formed_with [h] D).
      2:{ intros s [[Hs _] ->]. apply well_formed_with_cons; [|exact Hs].
          apply (proj1 (proj2 (proj1 Hs))). left. apply last_Some_elem_of, El2. }
      drop_read iv.
      destruct (Interval.children iv); [apply triple_ret; intros s Hs; exact Hs | wf_raise].
  - intros [h force_split]. cbn [fst].
    apply triple_post with (Q := fun _ => well_formed_with [h] D).
    2:{ intros _ s. apply well_formed_with_weaken; intros k Hk; [inversion Hk | exact Hk]. }
    step wf_ivals_discard. drop_read iv.
    apply (triple_bind True _ (fun _ => well_formed_with [h] D)).
    + destruct (negb _ && negb _); [|wf_ret].
      destruct (_ || _).
      * eapply triple_bind; [apply wf_split; apply elem_of_cons; left; reflexivity|].
        intros ks.
        apply triple_post with (Q := fun _ => well_formed_with (ks ++ [h]) D).
        2:{ intros _ s. apply well_formed_with_weaken; intros k Hk; [|exact Hk].
            apply elem_of_app. right. exact Hk. }
        apply triple_for_each. intros k Hk. drop_read kv.
        apply wf__update_ival. apply elem_of_app. left. exact Hk.
      * eapply triple_bind; [apply wf_refine; apply elem_of_cons; left; reflexivity|].
        intros [k pts]. cbn [fst].
        apply triple_post with (Q := fun _ => well_formed_with (k :: [h]) D).
        2:{ intros _ s. apply well_formed_with_weaken; intros k' Hk'; [|exact Hk'].
            apply elem_of_cons. right. exact Hk'. }
        apply wf__update_ival. apply elem_of_cons. left. reflexivity.
    + intros ?. keep_read ivs. destruct (_ <? _)%nat; [|wf_ret].
      eapply triple_pre; [apply wf_set_ivals|]. intros s [Hs ->].
      split; [exact Hs|]. intros k Hk. exact (subseteq_drop 1 _ k Hk).
Qed.

Lemma wf_choose_loop D fuel n acc :
  (forall j b, (j, b) ∈ D -> b = true) ->
  triple True (well_formed_with [] D) (IL.choose_loop fuel n acc)
         (fun _ => well_formed_with [] D) (well_formed_with [] D).
Proof.
  intros HDt. revert n acc.
  induction fuel as [|fuel IH]; intros [|n] acc; simpl; try wf_ret.
  - apply triple_out_of_fuel. exact I.
  - step (wf__fill_stack D HDt).
    eapply triple_bind; [apply wf_pop_from_stack|]. intros [np nl]. apply IH.
Qed.

Lemma wf_choose_points D fuel n :
  (forall j b, (j, b) ∈ D -> b = true) ->
  triple True (well_formed_with [] D) (IL.choose_points fuel n)
         (fun _ => well_formed_with [] D) (well_formed_with [] D).
Proof.
  intros HDt. unfold IL.choose_points.
  eapply triple_bind; [apply wf_pop_from_stack|]. intros [ps ls]. apply wf_choose_loop, HDt.
Qed.

(** The constructor, after the learner's own attributes are assigned. *)
Lemma wf_init_body D a b tl :
  triple True (well_formed_with [] D)
         (let* (h, points) := IL.make_first a b tl in
          IL._update_ival h points ;;
          modify (IL.set_first_ival h) ;;
          modify (IL.set__complete_branches []))%py
         (fun _ => well_formed_with [] D) (well_formed_with [] D).
Proof.
  apply (triple_bind True _ (fun r => well_formed_with [r.1] D)).
  - unfold IL.make_first. eapply triple_bind.
    { apply (wf_new_ival True [] D); [reflexivity | reflexivity | intros p [=]]. }
    intros k. apply triple_pure. intros _. apply triple_ret. intros s Hs. exact Hs.
  - intros [h points]. cbn [fst].
    apply triple_post with (Q := fun _ => well_formed_with [h] D).
    2:{ intros _ s. apply well_formed_with_weaken; intros k Hk; [inversion Hk | exact Hk]. }
    eapply triple_bind;
      [apply wf__update_ival; apply elem_of_cons; left; reflexivity | intros ?].
    eapply triple_bind; [wf_field | intros ?]. wf_field.
Qed.

Lemma well_formed_empty bounds tl rtol : well_formed (IL.empty bounds tl rtol).
Proof.
  split; [|split].
  - split; intros h iv Hh; discriminate.
  - intros h [Hh|[Hh|(x & ivs & Hh & _)]]; inversion Hh.
  - intros h Hh. inversion Hh.
Qed.

Lemma well_formed_init bounds tl rtol s :
  IL.init bounds tl rtol = Ok s tt -> well_formed s.
Proof.
  intros Hi.
  pose proof (triple_run (wf_init_body [] bounds.1 bounds.2 tl) (IL.empty bounds tl rtol)
                (well_formed_with_nil _ (well_formed_empty bounds tl rtol))) as H.
  unfold IL.init in Hi.
  destruct tl, rtol; try discriminate; rewrite Hi in H; exact (proj1 H).
Qed.

Lemma well_formed_same_but_cache D s0 s :
  same_but_cache s0 s -> well_formed_with [] D s0 -> well_formed_with [] D s.
Proof.
  unfold same_but_cache. intros H.
  apply (well_formed_with_ext [] D s0 s).
  - exact (f_equal IL.heap H).
  - exact (f_equal IL.ivals H).
  - exact (f_equal IL.priority_split H).
  - exact (f_equal IL.x_mapping H).
Qed.

(** Every call of the learner contract keeps the learner well formed,
    and the discarded intervals discarded. *)
Lemma well_formed_step D c s s' :
  (forall j b, (j, b) ∈ D -> b = true) ->
  well_formed_with [] D s -> Trace.final (Trace.integrator_step c s) = Some s' ->
  well_formed_with [] D s'.
Proof.
  intros HDt Hw Hf.
  assert (Ht : forall A B (f : A -> B) (m : M IL.t A),
            triple True (well_formed_with [] D) m (fun _ => well_formed_with [] D)
                   (well_formed_with [] D) ->
            Trace.final (Trace.and_then f m s) = Some s' -> well_formed_with [] D s').
  { intros A B f m Hm. unfold Trace.and_then, bind, ret.
    pose proof (triple_run Hm s Hw) as Hr.
    destruct (m s) as [s1 x|s1 e|]; simpl; intros [= <-]; exact Hr. }
  assert (Hc : forall c', c' = c ->
            match c' with
            | Trace.ILoss | Trace.IDone | Trace.IIgral | Trace.IErr => True
            | _ => False
            end -> well_formed_with [] D s').
  { intros c' -> Hc.
    pose proof (stable_run (same_but_cache_reports s c Hc) s eq_refl) as Hr.
    destruct (Trace.integrator_step c s) as [s1 x|s1 e|]; simpl in Hf; inversion Hf; subst;
      exact (well_formed_same_but_cache D s s' Hr Hw). }
  destruct c; try (apply (Hc _ eq_refl); exact I); unfold Trace.integrator_step in Hf.
  - exact (Ht _ _ _ _ (wf_choose_points D fuel n HDt) Hf).
  - exact (Ht _ _ _ _ (wf_add_point True [] D x y) Hf).
  - apply (Ht _ _ _ _ (triple_ret True _ _ _ tt (fun s0 H => H)) Hf).
Qed.

(** On a well-formed tree the property [complete_branches] returns, and
    it changes the cache only. *)
Lemma complete_branches_returns s :
  tree_ok (IL.heap s) ->
  exists brs s', IL.complete_branches s = Ok s' brs /\ same_but_cache s s'.
Proof.
  intros Hok.
  pose proof (stable_run (same_but_cache_complete_branches s) s eq_refl) as Hst.
  assert (Hr : exists brs s', IL.complete_branches s = Ok s' brs).
  { unfold IL.complete_branches. unfold bind at 1. unfold get at 1.
    destruct (negb _); [exists [], s; reflexivity|].
    unfold bind at 1.
    assert (Hc : exists s1, (match IL._complete_branches s with
                             | [] => modify (IL.set__complete_branches [IL.first_ival s])
                             | _ :: _ => ret tt
                             end) s = Ok s1 tt).
    { destruct (IL._complete_branches s); eexists; reflexivity. }
    destruct Hc as [s1 ->]. unfold bind at 1, gets at 1.
    destruct (branches_loop_total (IL.heap s) (IL.first_ival s)
                (IL._complete_branches s1) [] Hok) as [r [H1 _]].
    rewrite H1. eexists _, _. reflexivity. }
  destruct Hr as (brs & s' & E). rewrite E in Hst. exists brs, s'. split; assumption.
Qed.

Lemma reachable_well_formed tl s : reachable tl s -> well_formed s.
Proof.
  induction 1 as [bounds rtol s Hi|c s s' _ IH Hf].
  - exact (well_formed_init bounds tl rtol s Hi).
  - apply (well_formed_with_well_formed [] [] s').
    apply (well_formed_step [] c s s'); [|apply well_formed_with_nil, IH|exact Hf].
    intros j b Hj. inversion Hj.
Qed.

Lemma same_but_cache_heap s s' : same_but_cache s s' -> IL.heap s' = IL.heap s.
Proof. intros H. exact (f_equal IL.heap H). Qed.

(** On a well-formed tree the property [err] returns. *)
Lemma err_ends s :
  tree_ok (IL.heap s) -> exists s' e, IL.err s = Ok s' e /\ same_but_cache s s'.
Proof.
  intros Hok. destruct (complete_branches_returns s Hok) as (brs & s' & E & Hs).
  unfold IL.err, bind. rewrite E.
  destruct brs as [|b brs]; eexists _, _; (split; [reflexivity | exact Hs]).
Qed.

(** On a well-formed tree the property [igral] ends: it returns the sum
    of the integrals of the complete branches, or the sum raises
    [TypeError] at a branch whose integral is [None]. *)
Lemma igral_ends s :
  tree_ok (IL.heap s) ->
  exists brs s1,
    IL.complete_branches s = Ok s1 brs /\ same_but_cache s s1
    /\ ((exists l, mapM (igral_at (IL.heap s)) brs = Some l
                   /\ IL.igral s = Ok s1 (sum l))
        \/ (mapM (igral_at (IL.heap s)) brs = None
            /\ IL.igral s = Raise s1 TypeError)).
Proof.
  intros Hok. destruct (complete_branches_returns s Hok) as (brs & s1 & E & Hs).
  exists brs, s1. split; [exact E|]. split; [exact Hs|].
  unfold IL.igral, bind. rewrite E. unfold gets. rewrite (same_but_cache_heap s s1 Hs).
  fold (igral_at (IL.heap s)).
  destruct (mapM (igral_at (IL.heap s)) brs) as [l|];
    [left; exists l; split; reflexivity | right; split; reflexivity].
Qed.

End WellFormedAsk.

(** ** The integrator: [ask] and [tell] do not touch the cache *)

Section Commutes.
Context {CO : Coeffs} {LA : LinAlg}.
Variable f : IL.t -> IL.t.

Lemma commutes_ret {A} (x : A) : commutes f (ret x).
Proof. intros s. reflexivity. Qed.

Lemma commutes_raise {A} (e : exn) : commutes f (raise (A:=A) e).
Proof. intros s. reflexivity. Qed.

Lemma commutes_out_of_fuel {A} : commutes f (out_of_fuel (A:=A)).
Proof. intros s. reflexivity. Qed.

Lemma commutes_gets {A} (g : IL.t -> A) : (forall s, g (f s) = g s) -> commutes f (gets g).
Proof. intros Hg s. unfold gets. rewrite Hg. reflexivity. Qed.

Lemma commutes_modify (h : IL.t -> IL.t) :
  (forall s, h (f s) = f (h s)) -> commutes f (modify h).
Proof. intros Hh s. unfold modify. rewrite Hh. reflexivity. Qed.

Lemma commutes_bind {A B} (m : M IL.t A) (k : A -> M IL.t B) :
  commutes f m -> (forall x, commutes f (k x)) -> commutes f (bind m k).
Proof.
  intros Hm Hk s. unfold bind. rewrite Hm.
  destruct (m s) as [s' x|s' e|]; simpl; [apply Hk | reflexivity | reflexivity].
Qed.

(** A read of the whole learner of which [k] uses what [f] leaves alone. *)
Lemma commutes_get_bind {B} (k : IL.t -> M IL.t B) :
  (forall s0, commutes f (k s0)) -> (forall s0, k (f s0) = k s0) ->
  commutes f (bind get k).
Proof. intros Hk Hf s. unfold bind, get. rewrite Hf. apply Hk. Qed.

Lemma commutes_for_each {A} (l : list A) (body : A -> M IL.t unit) :
  (forall x, commutes f (body x)) -> commutes f (for_each l body).
Proof.
  intros Hb. induction l as [|x l IH]; simpl.
  - apply commutes_ret.
  - apply commutes_bind; [apply Hb | intros _; exact IH].
Qed.

Lemma commutes_map_m {A B} (g : A -> M IL.t B) (l : list A) :
  (forall x, commutes f (g x)) -> commutes f (map_m g l).
Proof.
  intros Hg. induction l as [|x l IH]; simpl.
  - apply commutes_ret.
  - apply commutes_bind; [apply Hg | intros y].
    apply commutes_bind; [exact IH | intros ys; apply commutes_ret].
Qed.

End Commutes.

Ltac commutes_step :=
  lazymatch goal with
  | |- commutes _ (ret _) => apply commutes_ret
  | |- commutes _ (raise _) => apply commutes_raise
  | |- commutes _ out_of_fuel => apply commutes_out_of_fuel
  | |- commutes _ (gets _) => apply commutes_gets; intros ?; reflexivity
  | |- commutes _ (modify _) => apply commutes_modify; intros ?; reflexivity
  | |- commutes _ (bind get _) => apply commutes_get_bind; [intros ?|intros ?; reflexivity]
  | |- commutes _ (bind _ _) => apply commutes_bind; [|intros ?]
  | |- commutes _ (for_each _ _) => apply commutes_for_each; intros ?
  | |- commutes _ (map_m _ _) => apply commutes_map_m; intros ?
  | |- commutes _ (match ?x with _ => _ end) => destruct x eqn:?
  end.

Section CacheFrame.
Context {CO : Coeffs} {LA : LinAlg}.
Variable x : list nat.
Local Abbreviation untouched := (commutes (IL.set__complete_branches x)).

Lemma cache_get_ival h : untouched (IL.get_ival h).
Proof. unfold IL.get_ival. commutes_step. Qed.

Lemma cache_upd_ival h g : untouched (IL.upd_ival h g).
Proof. unfold IL.upd_ival. commutes_step. Qed.

Lemma cache_new_ival i : untouched (IL.new_ival i).
Proof. intros s. reflexivity. Qed.

Lemma cache_ivals_add h : untouched (IL.ivals_add h).
Proof. unfold IL.ivals_add. commutes_step. Qed.

Lemma cache_ivals_discard h : untouched (IL.ivals_discard h).
Proof. unfold IL.ivals_discard. commutes_step. Qed.

Lemma cache_x_mapping_get y : untouched (IL.x_mapping_get y).
Proof. unfold IL.x_mapping_get. repeat commutes_step. Qed.

Lemma cache_x_mapping_add y h : untouched (IL.x_mapping_add y h).
Proof.
  unfold IL.x_mapping_add. repeat first [apply cache_x_mapping_get | commutes_step].
Qed.

Ltac cache :=
  repeat first
    [ apply cache_get_ival | apply cache_upd_ival | apply cache_new_ival
    | apply cache_ivals_add | apply cache_ivals_discard
    | apply cache_x_mapping_get | apply cache_x_mapping_add
    | commutes_step ].

Lemma cache_update_ancestors fuel o : untouched (IL.update_ancestors fuel o).
Proof.
  revert o. induction fuel as [|fuel IH]; intros [p|]; simpl;
    repeat first [apply IH | progress cache].
Qed.

Lemma cache_complete_process h : untouched (IL.complete_process h).
Proof.
  unfold IL.complete_process, IL.put_ival.
  repeat first [apply cache_update_ancestors | progress cache].
Qed.

Lemma cache_deposit point value h : untouched (IL.deposit point value h).
Proof.
  unfold IL.deposit. repeat first [apply cache_complete_process | progress cache].
Qed.

Lemma cache_add_point point value : untouched (IL.add_point point value).
Proof. unfold IL.add_point. repeat first [apply cache_deposit | progress cache]. Qed.

Lemma cache_register h y : untouched (IL.register h y).
Proof. unfold IL.register. repeat first [apply cache_add_point | progress cache]. Qed.

Lemma cache__update_ival h points : untouched (IL._update_ival h points).
Proof. unfold IL._update_ival. repeat first [apply cache_register | progress cache]. Qed.

Lemma cache_prune_stack fuel pos : untouched (IL.prune_stack fuel pos).
Proof.
  revert pos. induction fuel as [|fuel IH]; intros pos; simpl;
    repeat first [apply IH | progress cache].
Qed.

Lemma cache__discard fuel h : untouched (IL._discard fuel h).
Proof.
  revert h. induction fuel as [|fuel IH]; intros h;
    [apply commutes_out_of_fuel|].
  change (IL._discard (S fuel) h)
    with (IL.upd_ival h (Interval.set_discard true) ;;
          IL.ivals_discard h ;;
          (let* st := gets IL._stack in IL.prune_stack (S (length st)) 0) ;;
          let* iv := IL.get_ival h in
          for_each (Interval.children iv) (IL._discard fuel))%py.
  repeat first [apply IH | apply cache_prune_stack | progress cache].
Qed.

Lemma cache_set_discard h : untouched (IL.set_discard h).
Proof. unfold IL.set_discard. repeat first [apply cache__discard | progress cache]. Qed.

Lemma cache_pop_from_stack n : untouched (IL.pop_from_stack n).
Proof. unfold IL.pop_from_stack. cache. Qed.

Lemma cache_refine h : untouched (IL.refine h).
Proof. unfold IL.refine. cache. Qed.

Lemma cache_split h : untouched (IL.split h).
Proof. unfold IL.split. cache. Qed.

Lemma cache__fill_stack : untouched IL._fill_stack.
Proof.
  unfold IL._fill_stack.
  repeat first [ apply cache_set_discard | apply cache_split | apply cache_refine
               | apply cache__update_ival | progress cache ].
Qed.

Lemma cache_choose_loop fuel n acc : untouched (IL.choose_loop fuel n acc).
Proof.
  revert n acc. induction fuel as [|fuel IH]; intros [|n] acc; simpl;
    repeat first [apply IH | apply cache__fill_stack | apply cache_pop_from_stack
                 | progress cache].
Qed.

Lemma cache_choose_points fuel n : untouched (IL.choose_points fuel n).
Proof.
  unfold IL.choose_points.
  repeat first [apply cache_choose_loop | apply cache_pop_from_stack | progress cache].
Qed.

(** The calls of [ask], [tell] and [remove_unfinished] neither read nor
    write the cache [_complete_branches]. *)
Lemma cache_integrator_step c :
  is_report c = false -> untouched (Trace.integrator_step c).
Proof.
  destruct c; intros Hc; try discriminate; unfold Trace.integrator_step, Trace.and_then,
    IL.remove_unfinished;
    repeat first [apply cache_choose_points | apply cache_add_point | progress cache].
Qed.

End CacheFrame.

(** ** The integrator: a trace replayed without its reports *)

Section IntegratorReplay.
Context {CO : Coeffs} {LA : LinAlg}.

Lemma same_but_cache_tree_ok s s' :
  same_but_cache s s' -> tree_ok (IL.heap s) -> tree_ok (IL.heap s').
Proof. intros H. rewrite (same_but_cache_heap s s' H). exact id. Qed.

(** On a well-formed tree a report ends, and it changes the cache only. *)
Lemma report_ends c s :
  is_report c = true -> tree_ok (IL.heap s) ->
  exists s', Trace.final (Trace.integrator_step c s) = Some s' /\ same_but_cache s s'.
Proof.
  intros Hc Hok.
  assert (Hs : match c with
               | Trace.ILoss | Trace.IDone | Trace.IIgral | Trace.IErr => True
               | _ => False
               end) by (destruct c; try discriminate; exact I).
  pose proof (stable_run (same_but_cache_reports s c Hs) s eq_refl) as Hst.
  assert (He : Trace.final (Trace.integrator_step c s) <> None).
  { destruct c; try discriminate; unfold Trace.integrator_step, Trace.and_then.
    - unfold IL.loss. unfold bind at 1. unfold bind at 1.
      destruct (igral_ends s Hok) as (brs & s1 & _ & Hs1 & [(l & _ & E)|(_ & E)]);
        rewrite E; [|discriminate].
      unfold bind at 1, gets at 1. destruct (IL.tol s1); [|discriminate].
      destruct (err_ends s1 (same_but_cache_tree_ok s s1 Hs1 Hok)) as (s2 & e & E2 & _).
      unfold bind. rewrite E2. discriminate.
    - unfold IL.done. unfold bind at 1. unfold bind at 1.
      destruct (err_ends s Hok) as (s1 & e & E1 & Hs1). rewrite E1.
      unfold bind at 1.
      destruct (igral_ends s1 (same_but_cache_tree_ok s s1 Hs1 Hok))
        as (brs & s2 & _ & _ & [(l & _ & E)|(_ & E)]); rewrite E; discriminate.
    - unfold bind.
      destruct (igral_ends s Hok) as (brs & s1 & _ & _ & [(l & _ & E)|(_ & E)]);
        rewrite E; discriminate.
    - unfold bind. destruct (err_ends s Hok) as (s1 & e & E1 & _). rewrite E1.
      discriminate. }
  destruct (Trace.integrator_step c s) as [s' r|s' e|];
    [| |exfalso; apply He; reflexivity];
    exists s'; (split; [reflexivity | exact Hst]).
Qed.

Lemma cache_restored s : IL.set__complete_branches (IL._complete_branches s)
                           (IL.set__complete_branches [] s) = s.
Proof. destruct s; reflexivity. Qed.

(** A call of [ask], [tell] or [remove_unfinished] on two learners that
    differ in the cache only: the same reply, and ends that differ in the
    cache only. *)
Lemma step_up_to_cache c s1 s2 :
  is_report c = false -> same_but_cache s1 s2 ->
  Trace.observe (Trace.integrator_step c s2) = Trace.observe (Trace.integrator_step c s1)
  /\ same_end (Trace.final (Trace.integrator_step c s1))
              (Trace.final (Trace.integrator_step c s2)).
Proof.
  intros Hc Hs. unfold same_but_cache in Hs.
  rewrite <- (cache_restored s1), <- (cache_restored s2), Hs.
  rewrite !(cache_integrator_step _ c Hc). rewrite !observe_in_state.
  split; [reflexivity|].
  destruct (Trace.integrator_step c s1); simpl;
    [unfold same_but_cache; reflexivity | unfold same_but_cache; reflexivity | exact I].

Qed.

Lemma same_end_final s1 s2 : same_end (Some s1) (Some s2) -> same_but_cache s1 s2.
Proof. exact id. Qed.

(** Replaying a trace without its reports gives the same replies to the
    other calls, and the same end up to the cache. *)
Lemma replay_without_reports calls : forall s1 s2,
  well_formed s1 -> same_but_cache s1 s2 ->
  (Trace.replay Trace.integrator_step s2
     (List.filter (fun c => negb (is_report c)) calls)).1
  = kept_replies (fun c => negb (is_report c)) calls
      (Trace.replay Trace.integrator_step s1 calls).1
  /\ same_end (Trace.replay Trace.integrator_step s1 calls).2
              (Trace.replay Trace.integrator_step s2
                 (List.filter (fun c => negb (is_report c)) calls)).2.
Proof.
  induction calls as [|c calls IH]; intros s1 s2 Hw Hs; simpl.
  - split; [reflexivity | exact Hs].
  - destruct (is_report c) eqn:Hc; simpl.
    + destruct (report_ends c s1 Hc (proj1 (proj1 Hw))) as (s1' & Hf & Hs').
      rewrite Hf.
      assert (Hw' : well_formed s1').
      { apply (well_formed_with_well_formed [] []).
        apply (well_formed_same_but_cache [] s1 s1' Hs'), well_formed_with_nil, Hw. }
      assert (Hs2 : same_but_cache s1' s2).
      { unfold same_but_cache in Hs, Hs' |- *. rewrite Hs, Hs'. reflexivity. }
      destruct (IH s1' s2 Hw' Hs2) as [H1 H2].
      destruct (Trace.replay Trace.integrator_step s1' calls) as [rs o]. simpl in *.
      split; assumption.
    + destruct (step_up_to_cache c s1 s2 Hc Hs) as [Ho Hf]. rewrite Ho.
      destruct (Trace.final (Trace.integrator_step c s1)) as [s1'|] eqn:E1;
        destruct (Trace.final (Trace.integrator_step c s2)) as [s2'|] eqn:E2;
        simpl in Hf; try contradiction.
      * assert (Hw' : well_formed s1').
        { apply (well_formed_with_well_formed [] []).
          apply (well_formed_step [] c s1 s1');
            [intros j b Hj; inversion Hj | apply well_formed_with_nil, Hw | exact E1]. }
        destruct (IH s1' s2' Hw' Hf) as [H1 H2].
        destruct (Trace.replay Trace.integrator_step s1' calls) as [rs o].
        destruct (Trace.replay Trace.integrator_step s2' _) as [rs' o'].
        simpl in *. split; [f_equal; exact H1 | exact H2].
      * simpl. split; [destruct calls; reflexivity | exact I].
Qed.

Lemma same_end_trans o1 o2 o3 : same_end o1 o2 -> same_end o3 o2 -> same_end o1 o3.
Proof.
  destruct o1, o2, o3; simpl; try contradiction; try exact (fun _ _ => I).
  unfold same_but_cache. congruence.
Qed.

End IntegratorReplay.

(** ** The triangulator: an access to [tri] that changes nothing *)

Section Settled.
Context {PR : Primitive} {NP : Numpy} {RN : Random}.

Lemma settled_tri s : settled s -> TL.tri s = Ok s (TL._tri s).
Proof.
  unfold settled, TL.tri, bind, get. destruct (TL._tri s) as [T|]; [reflexivity|].
  intros [H|H].
  - rewrite H. reflexivity.
  - destruct (_ <? _)%nat; [reflexivity|]. rewrite H. reflexivity.
Qed.

(** After an access to [tri], an access to [tri] changes nothing. *)
Lemma tri_settles s :
  match TL.tri s with
  | Ok s' _ | Raise s' _ => settled s'
  | OutOfFuel => True
  end.
Proof.
  unfold TL.tri, bind, get. destruct (TL._tri s) as [T|] eqn:ET.
  - unfold ret, settled. rewrite ET. exact I.
  - destruct (_ <? _)%nat eqn:El.
    + unfold ret, settled. rewrite ET. left. exact El.
    + destruct (find_initial_simplex _ _) eqn:Ef.
      * unfold modify, ret, settled. simpl. exact I.
      * unfold ret, settled. rewrite ET. right. exact Ef.
Qed.

Lemma settled_kept_tri : stable settled TL.tri.
Proof. constructor. intros s _. exact (tri_settles s). Qed.

Ltac settle_modify :=
  lazymatch goal with
  | |- stable _ (modify _) =>
      apply stable_modify; intros ? ?; first [assumption | exact I]
  end.

Ltac settle :=
  repeat first [stable_step | settle_modify | apply settled_kept_tri].

Lemma settled_the_tri : stable settled TL.the_tri.
Proof. unfold TL.the_tri. settle. Qed.

Lemma settled__simplex_exists sx : stable settled (TL._simplex_exists sx).
Proof. unfold TL._simplex_exists. repeat first [apply settled_the_tri | progress settle]. Qed.

Lemma settled_place_pending point simpl : stable settled (TL.place_pending point simpl).
Proof. unfold TL.place_pending. repeat first [apply settled_the_tri | progress settle]. Qed.

Lemma settled__tell_pending point simplex : stable settled (TL._tell_pending point simplex).
Proof.
  unfold TL._tell_pending.
  repeat first [apply settled_the_tri | apply settled_place_pending | progress settle].
Qed.

Lemma settled_update_losses to_delete to_add :
  stable settled (TL.update_losses to_delete to_add).
Proof. unfold TL.update_losses. repeat first [apply settled_the_tri | progress settle]. Qed.

Lemma settled_losses : stable settled TL.losses.
Proof. unfold TL.losses. settle. Qed.

Lemma settled_loss : stable settled TL.loss.
Proof. unfold TL.loss. repeat first [apply settled_losses | progress settle]. Qed.

Lemma settled_remove_unfinished : stable settled TL.remove_unfinished.
Proof. unfold TL.remove_unfinished. settle. Qed.

Lemma settled_random_point : stable settled TL.random_point.
Proof. unfold TL.random_point. settle. Qed.

Lemma settled_sample_simplex loss simplex pending_losses :
  stable settled (TL.sample_simplex loss simplex pending_losses).
Proof.
  unfold TL.sample_simplex.
  repeat first [apply settled_the_tri | apply settled__tell_pending | progress settle].
Qed.

Lemma settled_ask_loop fuel losses pending_losses :
  stable settled (TL.ask_loop fuel losses pending_losses).
Proof.
  revert losses pending_losses. induction fuel as [|fuel IH]; intros losses pending_losses;
    simpl;
    repeat first [ apply IH | apply settled_the_tri | apply settled__simplex_exists
                 | apply settled_sample_simplex | progress settle ].
Qed.

Lemma settled__ask : stable settled TL._ask.
Proof.
  unfold TL._ask.
  repeat first [ apply settled_ask_loop | apply settled_losses | apply settled_random_point
               | apply settled__tell_pending | progress settle ].
Qed.

Lemma settled_ask n : stable settled (TL.ask n).
Proof. unfold TL.ask. repeat first [apply settled__ask | progress settle]. Qed.

(** [tell] records the value and then reads [tri]. *)
Lemma settled_tell point value : stable settled (TL.tell point value).
Proof.
  constructor. intros s Hs. unfold TL.tell. unfold bind at 1. unfold get at 1.
  destruct (dict_mem point (TL.data s)); [exact Hs|].
  destruct value as [v|]; [|exact (stable_run (settled__tell_pending point None) s Hs)].
  unfold bind at 1. unfold modify at 1. unfold bind at 1.
  pose proof (tri_settles (TL.record_value point v s)) as Ht.
  destruct (TL.tri (TL.record_value point v s)) as [s1 T|s1 e|]; [|exact Ht|exact I].
  match goal with
  | |- match ?k s1 with _ => _ end =>
      assert (Hk : stable settled k); [|exact (stable_run Hk s1 Ht)]
  end.
  repeat first [ apply settled__simplex_exists | apply settled_update_losses
               | progress settle ].
Qed.

Lemma settled_step c : stable settled (Trace.triangulator_step c).
Proof.
  destruct c; unfold Trace.triangulator_step, Trace.and_then;
    repeat first [ apply settled_ask | apply settled_tell | apply settled_remove_unfinished
                 | apply settled_loss | progress settle ].
Qed.

(** On such a learner [loss()] returns and changes nothing. *)
Lemma settled_loss_same s : settled s -> exists v, TL.loss s = Ok s v.
Proof.
  intros Hs. unfold TL.loss, TL.losses, bind. rewrite (settled_tri s Hs).
  destruct (TL._tri s); eexists; reflexivity.
Qed.

Lemma settled_init bounds loss_per_simplex s :
  TL.init bounds loss_per_simplex = inr s -> settled s.
Proof.
  unfold TL.init. destruct (linalg_inv _); intros [= <-]. left. reflexivity.
Qed.

(** Replaying a trace without its calls of [loss()] gives the same
    replies to the other calls and the same end. *)
Lemma replay_without_loss calls : forall s,
  settled s ->
  (Trace.replay Trace.triangulator_step s
     (List.filter (fun c => negb (is_loss c)) calls)).1
  = kept_replies (fun c => negb (is_loss c)) calls
      (Trace.replay Trace.triangulator_step s calls).1
  /\ (Trace.replay Trace.triangulator_step s
        (List.filter (fun c => negb (is_loss c)) calls)).2
     = (Trace.replay Trace.triangulator_step s calls).2.
Proof.
  induction calls as [|c calls IH]; intros s Hs; simpl; [split; reflexivity|].
  destruct (is_loss c) eqn:Hc; simpl.
  - destruct c; try discriminate.
    assert (E : exists r, Trace.triangulator_step Trace.TLoss s = Ok s r).
    { destruct (settled_loss_same s Hs) as [v Hv]. exists (Trace.TFloat v).
      unfold Trace.triangulator_step, Trace.and_then, bind. rewrite Hv. reflexivity. }
    destruct E as [r ->]. simpl.
    destruct (IH s Hs) as [H1 H2].
    destruct (Trace.replay Trace.triangulator_step s calls) as [rs o]. simpl in *.
    split; assumption.
  - pose proof (stable_run (settled_step c) s Hs) as Hs'.
    destruct (Trace.final (Trace.triangulator_step c s)) as [s'|] eqn:E.
    + assert (Hs1 : settled s').
      { destruct (Trace.triangulator_step c s); simpl in E; inversion E; subst; exact Hs'. }
      destruct (IH s' Hs1) as [H1 H2].
      destruct (Trace.replay Trace.triangulator_step s' calls) as [rs o].
      destruct (Trace.replay Trace.triangulator_step s' _) as [rs' o'].
      simpl in *. split; [f_equal; exact H1 | exact H2].
    + simpl. split; [destruct calls; reflexivity | reflexivity].
Qed.

End Settled.

(** * The claims *)

Import Sample.

(** C4.  A value told to the integrator for a point that is not a key of
    [x_mapping] is rejected: [add_point] raises the [ValueError] for an
    unknown point and the learner is as it was.  A value told to the
    triangulator for a point that is already a key of [data] is ignored:
    [tell] returns and the learner ([data], [_pending], the triangulation
    and all the rest) is as it was. *)
Theorem C4_tell_rejects_unknown_and_ignores_known :
  (forall (CO : Coeffs) (LA : LinAlg) (s : IL.t) (p v : float),
      dict_mem p (IL.x_mapping s) = false ->
      IL.add_point p v s = Raise s (ValueError_unknown_point p))
  /\ (forall (PR : Primitive) (NP : Numpy) (RN : Random) (s : TL.t)
             (p : point) (v : option value),
      dict_mem p (TL.data s) = true ->
      TL.tell p v s = Ok s tt).
Proof.
  split.
  - intros CO LA s p v H. unfold IL.add_point, bind, gets. rewrite H. reflexivity.
  - intros PR NP RN s p v H. unfold TL.tell, bind, get. rewrite H. reflexivity.
Qed.

Lemma C4_witness :
  IL.add_point (CO:=Sample.coeffs) (LA:=Sample.linalg) 0.25 1 Examples.waiting
    = Raise Examples.waiting (ValueError_unknown_point 0.25)
  /\ TL.tell (PR:=Sample.primitive) (NP:=Sample.numpy) (RN:=Sample.generator)
             [0; 1]%float (Some (Scalar 1)) Examples.two_corners
     = Ok Examples.two_corners tt.
Proof.
  split.
  - apply (proj1 C4_tell_rejects_unknown_and_ignores_known). reflexivity.
  - apply (proj2 C4_tell_rejects_unknown_and_ignores_known). reflexivity.
Defined.

(** C5, as the code has it.  [remove_unfinished] of the integrator does
    nothing: the learner, with its [not_done_points] and its [_stack], is
    as it was.  [remove_unfinished] of the triangulator empties [_pending],
    [_subtriangulations] and [_pending_to_simplex] and leaves [data], the
    triangulation and the losses as they were. *)
Theorem C5_remove_unfinished :
  (forall s : IL.t, IL.remove_unfinished s = Ok s tt)
  /\ (forall (PR : Primitive) (NP : Numpy) (RN : Random) (s : TL.t),
        exists s', TL.remove_unfinished s = Ok s' tt
          /\ TL._pending s' = [] /\ TL._subtriangulations s' = []
          /\ TL._pending_to_simplex s' = []
          /\ TL.data s' = TL.data s /\ TL._tri s' = TL._tri s
          /\ TL._losses s' = TL._losses s).
Proof.
  split.
  - intros s. reflexivity.
  - intros PR NP RN s. eexists. split; [reflexivity|]. repeat split.
Qed.

(** C5, as the claim has it, fails for the integrator: after
    [remove_unfinished] on a learner that waits for the values of dispensed
    points, [not_done_points] and [_stack] are not empty. *)
Lemma C5_integrator_keeps_pending :
  exists s', IL.remove_unfinished Examples.waiting = Ok s' tt
    /\ IL.not_done_points s' = [0; 0.5; 1]%float
    /\ IL._stack s' = [0.5; 1]%float.
Proof. eexists. split; [reflexivity|]. split; reflexivity. Qed.

(** C6.  Integrator: in every state of a learner (after its construction
    and after any sequence of calls that return or raise), and so after
    any [add_point], no abscissa of [not_done_points] equals a key of
    [done_points].  Triangulator: a fresh learner has no pending point that
    is a key of [data]; a [tell] from a state where no pending point is a
    key of [data] ends in such a state, so [tell] itself never puts a
    point in both; so does [remove_unfinished], and so does an [ask] that
    returns, unless one of the points it returns is a key of [data]
    already (the point that [_ask] computes from a simplex is made pending
    without a look at [data]). *)
Theorem C6_pending_sets_disjoint_from_known_data :
  (forall (CO : Coeffs) (LA : LinAlg) (tl : option float) (s s' : IL.t) (x y : float),
      reachable tl s ->
      Trace.final (IL.add_point x y s) = Some s' ->
      disjoint s')
  /\ (forall (PR : Primitive) (NP : Numpy) (RN : Random) (s s' : TL.t)
             (p : point) (v : option value),
      pending_disjoint s ->
      Trace.final (TL.tell p v s) = Some s' ->
      pending_disjoint s')
  /\ (forall (PR : Primitive) (NP : Numpy) (RN : Random) bounds loss_per_simplex s,
      TL.init bounds loss_per_simplex = inr s ->
      pending_disjoint s)
  /\ (forall (PR : Primitive) (NP : Numpy) (RN : Random) (s s' : TL.t),
      Trace.final (TL.remove_unfinished s) = Some s' ->
      pending_disjoint s')
  /\ (forall (PR : Primitive) (NP : Numpy) (RN : Random) (s s' : TL.t) (n : nat)
             (xs : list point) (ls : vec),
      pending_disjoint s ->
      TL.ask n s = Ok s' (xs, ls) ->
      (forall x, x ∈ xs -> dict_mem x (TL.data s) = false) ->
      pending_disjoint s').
Proof.
  split; [|split; [|split; [|split]]].
  - intros CO LA tl s s' x y Hr Hf.
    assert (Hs' : reachable tl s').
    { apply (reachable_step tl (Trace.ITell x y) s s' Hr).
      unfold Trace.integrator_step, Trace.and_then, bind, ret.
      destruct (IL.add_point x y s); exact Hf. }
    exact (proj1 (reachable_inv tl s' Hs')).
  - intros PR NP RN s s' p v Hs Hf.
    pose proof (stable_run (pending_disjoint_tell p v) s Hs) as H.
    destruct (TL.tell p v s); simpl in Hf; inversion Hf; subst; exact H.
  - intros PR NP RN bounds loss s Hi k r Hk. unfold TL.init in Hi.
    destruct (linalg_inv _); inversion Hi; subst. inversion Hk.
  - intros PR NP RN s s' Hf. inversion Hf. intros k r _ Hr. inversion Hr.
  - intros PR NP RN s s' n xs ls Hs E Hxs k r Hk Hr.
    pose proof (asked_ask n s) as H. rewrite E in H. destruct H as [Hd Hp].
    rewrite Hd in Hk. destruct (Hp r Hr) as [H|H].
    + exact (Hs k r Hk H).
    + exact (dict_mem_false r (TL.data s) (Hxs r H) k Hk).
Qed.

Lemma C6_witness :
  disjoint Examples.sample_fresh
  /\ pending_disjoint
       (TL.set_data [([0; 0]%float, Scalar 0)] Examples.square)
  /\ pending_disjoint (TL.set__pending [[0; 0]%float] Examples.square).
Proof.
  split; [|split].
  - apply (proj1 C6_pending_sets_disjoint_from_known_data
             Sample.coeffs Sample.linalg (Some 0x1p-20%float)
             Examples.sample_fresh Examples.sample_fresh 0.5%float 1%float).
    + apply (reachable_init _ (0, 1)%float None). reflexivity.
    + reflexivity.
  - apply (proj1 (proj2 C6_pending_sets_disjoint_from_known_data)
             Sample.primitive Sample.numpy Sample.generator
             Examples.square _ [0; 0]%float (Some (Scalar 0))).
    + intros k r Hk. inversion Hk.
    + reflexivity.
  - apply (proj2 (proj2 (proj2 (proj2 C6_pending_sets_disjoint_from_known_data)))
             Sample.primitive Sample.numpy Sample.generator
             Examples.square _ 1%nat [[0; 0]%float] [inf]).
    + intros k r Hk. inversion Hk.
    + reflexivity.
    + intros x _. reflexivity.
Defined.

(** C7.  Whenever some corner of the bounds is neither a key of [data] nor
    pending, [ask(1)] returns the first such corner in the order of
    [_bounds_points], with loss improvement +inf, and the corner is pending
    afterwards.  In particular the first four calls of [ask(1)] on a fresh
    learner with bounds [(0, 1), (0, 1)] return the four corners of the unit
    square, each with loss improvement +inf. *)
Theorem C7_corners_first (PR : Primitive) (NP : Numpy) (RN : Random) :
  (forall (s : TL.t) (c : point),
      In c (TL._bounds_points s) ->
      dict_mem c (TL.data s) = false ->
      set_mem c (TL._pending s) = false ->
      exists c' rest s',
        bounds_to_do s = c' :: rest
        /\ TL.ask 1 s = Ok s' ([c'], [inf])
        /\ TL.data s' = TL.data s
        /\ TL._pending s' = set_add c' (TL._pending s))
  /\ (forall s : TL.t,
        TL.init [(0, 1); (0, 1)]%float None = inr s ->
        (Trace.replay Trace.triangulator_step s
           [Trace.TAsk 1; Trace.TAsk 1; Trace.TAsk 1; Trace.TAsk 1]).1
        = [Trace.Returned (Trace.TPoints [[0; 0]%float] [inf]);
           Trace.Returned (Trace.TPoints [[0; 1]%float] [inf]);
           Trace.Returned (Trace.TPoints [[1; 0]%float] [inf]);
           Trace.Returned (Trace.TPoints [[1; 1]%float] [inf])]).
Proof.
  split.
  - intros s c Hin Hd Hp.
    destruct (corner_left s c Hin Hd Hp) as [c' [rest H]].
    destruct (ask_corner s c' rest H) as [s' [E [Hd' Hp']]].
    exists c', rest, s'. repeat split; assumption.
  - intros s Hi. unfold TL.init in Hi.
    destruct (linalg_inv _) as [tr|]; inversion Hi; subst. vm_compute. reflexivity.
Qed.

Lemma C7_witness :
  exists c' rest s',
    bounds_to_do Examples.two_corners = c' :: rest
    /\ TL.ask 1 Examples.two_corners = Ok s' ([c'], [inf])
    /\ TL.data s' = TL.data Examples.two_corners
    /\ TL._pending s' = set_add c' (TL._pending Examples.two_corners).
Proof.
  apply (proj1 (C7_corners_first Sample.primitive Sample.numpy Sample.generator)
           Examples.two_corners [1; 0]%float).
  - simpl. right. right. left. reflexivity.
  - reflexivity.
  - reflexivity.
Defined.

(** C9.  On the access to the property [tri] that builds the
    triangulation ([_tri] is [None], [data] has at least two points and
    [find_initial_simplex] finds a simplex, that is, the points are not all
    coplanar), the triangulation is stored in [_tri] but the value of the
    access is [None]; the next access returns the triangulation.  So the
    [tell] whose value makes the triangulation possible takes the branch
    for [tri is None]: it records the value, [tri] builds the triangulation
    from all of [data], and neither [add_point] with the hint of
    [_pending_to_simplex] nor [update_losses] runs: [_losses],
    [_subtriangulations] and [_pending_to_simplex] are as before. *)
Theorem C9_first_access_to_tri_is_None (PR : Primitive) (NP : Numpy) (RN : Random) :
  (forall (s : TL.t) (sx : simplex),
      TL._tri s = None ->
      2 <= length (TL.data s) ->
      find_initial_simplex (TL.points s) (TL.ndim s) = Some sx ->
      let s' := TL.set__tri (Some (built_tri s sx)) s in
      TL.tri s = Ok s' None
      /\ TL.tri s' = Ok s' (Some (built_tri s sx)))
  /\ (forall (s : TL.t) (p : point) (v : value) (sx : simplex),
      dict_mem p (TL.data s) = false ->
      TL._tri s = None ->
      let s1 := TL.record_value p v s in
      2 <= length (TL.data s1) ->
      find_initial_simplex (TL.points s1) (TL.ndim s1) = Some sx ->
      exists s',
        TL.tell p (Some v) s = Ok s' tt
        /\ s' = TL.set__tri (Some (built_tri s1 sx)) s1
        /\ TL._losses s' = TL._losses s
        /\ TL._subtriangulations s' = TL._subtriangulations s
        /\ TL._pending_to_simplex s' = TL._pending_to_simplex s).
Proof.
  assert (Hfirst : forall (s : TL.t) (sx : simplex),
             TL._tri s = None -> 2 <= length (TL.data s) ->
             find_initial_simplex (TL.points s) (TL.ndim s) = Some sx ->
             TL.tri s = Ok (TL.set__tri (Some (built_tri s sx)) s) None).
  { intros s sx Hn Hl Hf. unfold TL.tri, bind, get. rewrite Hn.
    destruct (Nat.ltb_spec (length (TL.data s)) 2) as [Hlt|_]; [lia|].
    rewrite Hf. reflexivity. }
  split.
  - intros s sx Hn Hl Hf s'. split; [exact (Hfirst s sx Hn Hl Hf)|].
    apply tri_existing. reflexivity.
  - intros s p v sx Hp Hn s1 Hl Hf. eexists. split; [|split; [reflexivity|]].
    + unfold TL.tell. unfold bind at 1. unfold get at 1. rewrite Hp.
      unfold bind at 1. unfold modify at 1. fold s1. unfold bind at 1.
      rewrite (Hfirst s1 sx Hn Hl Hf). reflexivity.
    + repeat split.
Qed.

Lemma C9_witness :
  let s := Examples.two_corners in
  let s1 := TL.record_value [1; 0]%float (Scalar 0) s in
  exists s',
    TL.tell [1; 0]%float (Some (Scalar 0)) s = Ok s' tt
    /\ s' = TL.set__tri (Some (built_tri s1 [0; 1; 2])) s1
    /\ TL._losses s' = TL._losses s
    /\ TL._subtriangulations s' = TL._subtriangulations s
    /\ TL._pending_to_simplex s' = TL._pending_to_simplex s.
Proof.
  apply (proj2 (C9_first_access_to_tri_is_None Sample.primitive Sample.numpy Sample.generator)
           Examples.two_corners [1; 0]%float (Scalar 0) [0; 1; 2]).
  - reflexivity.
  - reflexivity.
  - simpl. lia.
  - reflexivity.
Defined.

(** ** The default loss *)

Lemma removelast_lookups {A} (d : A) (l : list A) (n : nat) :
  length l = S n ->
  removelast l = map (fun i => default d (l !! i)) (seq 0 n)
  /\ last l = Some (default d (l !! n)).
Proof.
  revert n. induction l as [|x l IH]; intros n Hl; [discriminate|].
  destruct l as [|y l].
  - simpl in Hl. assert (n = 0) by lia. subst. split; reflexivity.
  - destruct n as [|n]; [simpl in Hl; lia|].
    destruct (IH n) as [H1 H2]; [simpl in *; lia|].
    split.
    + change (removelast (x :: y :: l)) with (x :: removelast (y :: l)).
      rewrite H1. simpl. f_equal. rewrite <- seq_shift, map_map. reflexivity.
    + change (last (x :: y :: l)) with (last (y :: l)). rewrite H2. reflexivity.
Qed.

Lemma well_shaped_of_lengths (NP : Numpy) (dim : nat) (simplex : list point) :
  1 <= dim -> length simplex = S dim -> Forall (fun v => length v = dim) simplex ->
  well_shaped simplex = true.
Proof.
  intros Hd Hl Hv. unfold well_shaped. rewrite Hl. simpl. rewrite Nat.sub_0_r.
  apply andb_true_intro. split.
  - apply Nat.ltb_lt. lia.
  - apply forallb_forall. intros v Hin. apply Nat.eqb_eq.
    rewrite Forall_forall in Hv. apply Hv. apply list_elem_of_In. exact Hin.
Qed.

(** C8.  For a simplex of [dim + 1] vertices with [dim] coordinates each
    ([dim >= 1]) and any list of values, [std_loss] returns
    [‖std(values, axis=0)‖₂ · volume^(1/dim) + volume] with
    [volume = |det(M)| / dim!], [M] being the matrix of the edge vectors
    from the last vertex: [volume] computes that volume, the array that
    [std_loss] returns has this number as its one entry, and [float()] of
    it, which [update_losses] stores, is this number. *)
Theorem C8_std_loss_formula (NP : Numpy) (dim : nat) (simplex : list point)
    (values : list value) :
  1 <= dim ->
  length simplex = S dim ->
  Forall (fun v => length v = dim) simplex ->
  volume simplex = Some (volume_spec dim simplex)
  /\ std_loss simplex values = Some (Vector [std_loss_spec dim simplex values])
  /\ (std_loss simplex values ≫= float_) = Some (std_loss_spec dim simplex values).
Proof.
  intros Hd Hl Hv.
  assert (Hvol : volume simplex = Some (volume_spec dim simplex)).
  { unfold volume. rewrite (well_shaped_of_lengths NP dim simplex Hd Hl Hv).
    destruct (removelast_lookups (A:=point) [] simplex dim Hl) as [H1 H2].
    rewrite H1, H2, Hl. simpl default. simpl Nat.sub. rewrite Nat.sub_0_r.
    unfold volume_spec, edge_matrix_spec. rewrite map_map. reflexivity. }
  split; [exact Hvol|].
  assert (Hstd : std_loss simplex values = Some (Vector [std_loss_spec dim simplex values])).
  { unfold std_loss. rewrite Hvol, Hl. simpl Nat.sub. rewrite Nat.sub_0_r. reflexivity. }
  split; [exact Hstd|]. rewrite Hstd. reflexivity.
Qed.

Lemma C8_witness :
  let simplex := [[0; 0]; [1; 0]; [0; 1]]%float in
  let values := [Scalar 0; Scalar 1; Scalar 0]%float in
  volume simplex = Some (volume_spec 2 simplex)
  /\ std_loss simplex values = Some (Vector [std_loss_spec 2 simplex values])
  /\ (std_loss simplex values ≫= float_) = Some (std_loss_spec 2 simplex values).
Proof.
  apply (C8_std_loss_formula Sample.numpy 2).
  - lia.
  - reflexivity.
  - repeat constructor.
Defined.

(** ** The divergence counter *)

(** C3, as the code has it.  When the assertion of the property [T] holds,
    [process_split] sets [ndiv] to the parent's [ndiv] plus one if
    [|parent.c[0,0]| > 0] and the signed quotient [c[0,0] / parent.c[0,0]]
    is above 2, and to the parent's [ndiv] otherwise, [c[0,0]] being the
    coefficient that the call has just computed; and it raises
    [DivergentIntegralError] carrying the interval exactly when afterwards
    [ndiv > 20] and [2 * ndiv > rdepth], returning otherwise.  (When the
    assertion fails, the call raises [AssertionError].) *)
Theorem C3_process_split_ndiv (CO : Coeffs) (LA : LinAlg) (self : nat) (p i : Interval.t) :
  let r := Interval.process_split self p i in
  let parent_c00 := at_ (row (Interval.c p) 0) 0 in
  let c00 := at_ (row (Interval.c r.1) 0) 0 in
  match Interval.T p i with
  | None => r.2 = Some AssertionError
  | Some _ =>
      Interval.ndiv r.1
      = Interval.ndiv p
        + (if gtb (PrimFloat.abs parent_c00) 0 && gtb (c00 / parent_c00) 2 then 1 else 0)
      /\ Interval.rdepth r.1 = Interval.rdepth i
      /\ (r.2 = Some (DivergentIntegralError self)
          <-> 20 < Interval.ndiv r.1 /\ Interval.rdepth r.1 < 2 * Interval.ndiv r.1)
      /\ (r.2 = None
          <-> ~ (20 < Interval.ndiv r.1 /\ Interval.rdepth r.1 < 2 * Interval.ndiv r.1))
  end.
Proof.
  cbv zeta.
  unfold Interval.process_split, Interval.ndiv_increment, Interval.ndiv_max.
  destruct (_calc_coeffs (Interval.done_points i).*2 (Interval.depth i)) as [c_new fx].
  change (Interval.T p (Interval.set_fx (Some fx) (Interval.set_c
            (<[Interval.depth i := set_prefix c_new (row (Interval.c i) (Interval.depth i))]>
               (Interval.c i)) i)))
    with (Interval.T p i).
  destruct (Interval.T p i) as [Tm|]; [|reflexivity].
  match goal with
  | |- context [if ?b then (_, Some _) else _] => destruct b eqn:E
  end;
    cbn [fst snd Interval.ndiv Interval.rdepth Interval.c Interval.a Interval.b
         Interval.depth Interval.set_ndiv Interval.set_igral Interval.set_err
         Interval.set_c_old Interval.set_fx Interval.set_c] in *.
  - apply andb_prop in E as [E1 E2].
    apply Nat.ltb_lt in E1. apply Nat.ltb_lt in E2.
    split; [reflexivity|]. split; [reflexivity|]. split; split.
    + intros _. split; [exact E1 | exact E2].
    + intros _. reflexivity.
    + discriminate.
    + intros Hn. exfalso. apply Hn. split; [exact E1 | exact E2].
  - split; [reflexivity|]. split; [reflexivity|]. split; split.
    + discriminate.
    + intros [H1 H2]. apply Nat.ltb_lt in H1. apply Nat.ltb_lt in H2.
      rewrite H1, H2 in E. discriminate.
    + intros _ [H1 H2]. apply Nat.ltb_lt in H1. apply Nat.ltb_lt in H2.
      rewrite H1, H2 in E. discriminate.
    + intros _. reflexivity.
Qed.

(** C3, as the claim has it, fails: with [parent.c[0,0] = 1] and
    [c[0,0] = -3] the quotient of the absolute values is 3, above 2, but the
    code compares the signed quotient -3 and does not increment [ndiv]. *)
Lemma C3_signed_quotient :
  let parent_c00 := 1%float in
  let c00 := (-3)%float in
  (gtb (PrimFloat.abs parent_c00) 0
   && gtb (PrimFloat.abs c00 / PrimFloat.abs parent_c00) 2) = true
  /\ Interval.ndiv_increment parent_c00 c00 = false.
Proof. split; reflexivity. Qed.

(** ** The reported integral and error, and the loss *)


Lemma retired_tree_ok : tree_ok (IL.heap Examples.retired).
Proof.
  intros h iv Hh k Hk. destruct h as [|h]; simpl in Hh; [|discriminate].
  inversion Hh; subst. inversion Hk.
Qed.

Lemma retired_igral_ready : igral_ready Examples.retired.
Proof.
  intros k H. destruct k as [|k]; [exists 1%float; reflexivity|].
  destruct H as [H|[H|[H _]]]; [discriminate H | inversion H | discriminate H].
Qed.



Section IntegratorConstruction.
Context {CO : Coeffs} {LA : LinAlg}.

Lemma register_fresh tl rtol h x : returns (fresh tl rtol) (IL.register h x).
Proof.
  constructor. intros s (Hs & Ht & Hr).
  unfold IL.register, IL.x_mapping_add, IL.x_mapping_get, bind, gets, modify, ret.
  destruct (dict_get x (IL.x_mapping s)); simpl; rewrite Hs; simpl;
    destruct (set_mem x (IL.not_done_points s)); simpl;
    eexists _, _; (split; [reflexivity | repeat split; simpl; assumption]).
Qed.

Lemma init_returns bounds tl rtol :
  (is_Some tl \/ is_Some rtol) ->
  exists s, IL.init bounds tl rtol = Ok s tt /\ IL.tol s = tl /\ IL.rtol s = rtol.
Proof.
  intros Hsome.
  assert (Hrun : exists s,
             (let* (h, points) := IL.make_first bounds.1 bounds.2 tl in
              IL._update_ival h points ;;
              modify (IL.set_first_ival h) ;;
              modify (IL.set__complete_branches [])) (IL.empty bounds tl rtol) = Ok s tt
             /\ IL.tol s = tl /\ IL.rtol s = rtol).
  { unfold IL.make_first, IL.new_ival. unfold bind at 1. unfold bind at 1.
    cbn [Interval.alloc IL.heap IL.empty length app]. unfold ret at 1.
    unfold IL._update_ival. unfold bind at 1. unfold bind at 1. unfold bind at 1.
    unfold IL.get_ival at 1, gets at 1.
    cbn [IL.heap IL.set_heap Interval.lookup lookup list_lookup default Interval.discard
         Interval.new].
    change (Interval.discard (id _)) with false.
    match goal with
    | |- context [for_each ?l (IL.register 0)] =>
        pose proof (returns_run (returns_for_each (fresh tl rtol) l (IL.register 0)
                                   (register_fresh tl rtol 0))) as Hl
    end.
    match goal with
    | |- context [(if false then _ else _) ?s0] =>
        destruct (Hl s0) as [s1 [[] [E1 (H1 & H2 & H3)]]];
          [repeat split|]
    end.
    cbv beta iota. rewrite E1.
    eexists. split; [reflexivity|]. split; simpl; assumption. }
  destruct Hrun as [s [E [H1 H2]]]. exists s. split; [|split; assumption].
  unfold IL.init. destruct tl, rtol; try exact E.
  destruct Hsome as [[? H]|[? H]]; discriminate.
Qed.
End IntegratorConstruction.



(** ** Determinism *)




(** * Further properties of the code *)

(** ** The numerical kernels *)

Section NumericsFacts.
Context {CO : Coeffs} {LA : LinAlg}.

Lemma zero_nans_from_spec (fx : vec) (k : nat) :
  let r := zero_nans_from k fx in
  length r.2 = length fx
  /\ Forall (fun x => isfinite x = true) r.2
  /\ (forall i x, fx !! i = Some x -> r.2 !! i = Some (if isfinite x then x else 0%float))
  /\ (forall j, j ∈ r.1 <->
                exists i x, j = k + i /\ fx !! i = Some x /\ isfinite x = false).
Proof.
  revert k. induction fx as [|y fx IH]; intros k; simpl.
  - repeat split; [constructor | intros i x H; inversion H | intros H; inversion H |].
    intros (i & x & _ & H & _). inversion H.
  - specialize (IH (S k)). destruct (zero_nans_from (S k) fx) as [nans out]. simpl in IH.
    destruct IH as (Hl & Hf & Hv & Hn).
    destruct (isfinite y) eqn:Ey; simpl.
    + split; [f_equal; exact Hl|]. split; [constructor; assumption|]. split.
      * intros [|i] x H; simpl in *; [inversion H; subst; rewrite Ey; reflexivity|].
        apply Hv, H.
      * intros j. rewrite Hn. split.
        -- intros (i & x & -> & H & E). exists (S i), x. split; [lia|]. split; assumption.
        -- intros (i & x & -> & H & E). destruct i as [|i]; simpl in H.
           ++ inversion H; subst. congruence.
           ++ exists i, x. split; [lia|]. split; assumption.
    + split; [f_equal; exact Hl|]. split; [constructor; [reflexivity | assumption]|]. split.
      * intros [|i] x H; simpl in *; [inversion H; subst; rewrite Ey; reflexivity|].
        apply Hv, H.
      * intros j. rewrite elem_of_cons, Hn. split.
        -- intros [->|(i & x & -> & H & E)].
           ++ exists 0, y. split; [lia|]. split; [reflexivity | exact Ey].
           ++ exists (S i), x. split; [lia|]. split; assumption.
        -- intros (i & x & -> & H & E). destruct i as [|i]; simpl in H.
           ++ left. lia.
           ++ right. exists i, x. split; [lia|]. split; assumption.
Qed.

(** X1.  [_zero_nans(fx)] leaves [fx] with the same length and finite
    entries only: a finite sample is kept, a non-finite one (NaN or an
    infinity) becomes 0; the indices it returns are exactly the positions
    of the non-finite samples. *)
Theorem zero_nans_zeroes_the_non_finite_samples (fx : vec) :
  let r := _zero_nans fx in
  length r.2 = length fx
  /\ Forall (fun x => isfinite x = true) r.2
  /\ (forall i x, fx !! i = Some x -> r.2 !! i = Some (if isfinite x then x else 0%float))
  /\ (forall i, i ∈ r.1 <-> exists x, fx !! i = Some x /\ isfinite x = false).
Proof.
  destruct (zero_nans_from_spec fx 0) as (Hl & Hf & Hv & Hn).
  unfold _zero_nans. cbv zeta. repeat split; try assumption.
  - intros H. apply Hn in H as (i' & x & -> & H & E). exists x. split; assumption.
  - intros (x & H & E). apply Hn. exists i, x. split; [reflexivity|]. split; assumption.
Qed.

Lemma set_nans_length fx nans : length (set_nans fx nans) = length fx.
Proof.
  unfold set_nans. revert fx. induction nans as [|i nans IH]; intros fx; simpl.
  - reflexivity.
  - rewrite IH. apply length_insert.
Qed.

Lemma set_nans_lookup (fx : vec) nans i x :
  fx !! i = Some x ->
  set_nans fx nans !! i = Some (if decide (i ∈ nans) then nan else x).
Proof.
  revert fx x. unfold set_nans, vec. induction nans as [|j nans IH]; intros fx x Hx; simpl.
  - destruct (decide (i ∈ [])) as [H|_]; [inversion H | exact Hx].
  - destruct (decide (i = j)) as [->|Hne].
    + rewrite (IH (<[j:=nan]> fx) nan).
      * rewrite (decide_True (P := j ∈ j :: nans)) by (apply elem_of_cons; left; reflexivity).
        destruct (decide (j ∈ nans)); reflexivity.
      * apply list_lookup_insert_eq. apply lookup_lt_is_Some. exists x. exact Hx.
    + assert (Hx' : <[j:=nan]> fx !! i = Some x).
      { rewrite list_lookup_insert_ne by congruence. exact Hx. }
      rewrite (IH (<[j:=nan]> fx) x Hx').
      destruct (decide (i ∈ nans)) as [Hin|Hin].
      * rewrite decide_True by (apply elem_of_cons; right; exact Hin). reflexivity.
      * rewrite decide_False; [reflexivity|].
        intros H. apply elem_of_cons in H as [H|H]; [congruence | exact (Hin H)].
Qed.

(** X2.  [_calc_coeffs(fx, depth)] leaves in [fx] the finite samples as
    they were and NaN at every position of a non-finite sample, so an
    infinite sample is stored as NaN; when every sample is finite, [fx] is
    unchanged and the coefficients are [V_inv[depth] @ fx]. *)
Theorem calc_coeffs_keeps_the_samples (fx : vec) (depth : nat) :
  let r := _calc_coeffs fx depth in
  length r.2 = length fx
  /\ (forall i x, fx !! i = Some x -> r.2 !! i = Some (if isfinite x then x else nan))
  /\ (Forall (fun x => isfinite x = true) fx -> r = (matvec (V_inv depth) fx, fx)).
Proof.
  cbv zeta. unfold _calc_coeffs.
  assert (H : let r := _zero_nans fx in
              length r.2 = length fx
              /\ Forall (fun x => isfinite x = true) r.2
              /\ (forall i x, fx !! i = Some x ->
                              r.2 !! i = Some (if isfinite x then x else 0%float))
              /\ (forall i, i ∈ r.1 <-> exists x, fx !! i = Some x /\ isfinite x = false)).
  { destruct (zero_nans_from_spec fx 0) as (Hl & Hf & Hv & Hn).
    unfold _zero_nans. cbv zeta. repeat split; try assumption.
    - intros H. apply Hn in H as (i' & x & -> & H & E). exists x. split; assumption.
    - intros (x & H & E). apply Hn. exists i, x. split; [reflexivity|]. split; assumption. }
  cbv zeta in H.
  destruct (_zero_nans fx) as [nans fx0]. simpl in H. destruct H as (Hl & Hf & Hv & Hn).
  assert (Hfin : nans = [] -> forall i x, fx !! i = Some x -> isfinite x = true).
  { intros -> i x Hx. destruct (isfinite x) eqn:E; [reflexivity|].
    assert (Hin : i ∈ @nil nat) by (apply Hn; exists x; split; assumption). inversion Hin. }
  assert (Hall : nans = [] -> fx0 = fx).
  { intros E. unfold vec in *. apply list_eq. intros i. destruct (fx !! i) as [x|] eqn:Hx.
    - rewrite (Hv i x Hx), (Hfin E i x Hx). reflexivity.
    - apply lookup_ge_None. apply lookup_ge_None in Hx. lia. }
  split; [|split].
  - destruct nans; cbn [snd]; [exact Hl | rewrite set_nans_length; exact Hl].
  - intros i x Hx. destruct nans as [|n nans']; cbn [snd].
    + rewrite (Hall eq_refl), (Hfin eq_refl i x Hx). exact Hx.
    + rewrite (set_nans_lookup fx0 (n :: nans') i _ (Hv i x Hx)).
      destruct (isfinite x) eqn:E.
      * rewrite decide_False; [reflexivity|]. intros Hin. apply Hn in Hin as (y & Hy & Ey).
        congruence.
      * rewrite decide_True; [reflexivity|]. apply Hn. exists x. split; assumption.
  - intros Hfx. assert (E : nans = []).
    { destruct nans as [|n nans']; [reflexivity|].
      assert (Hin : n ∈ n :: nans') by (apply elem_of_cons; left; reflexivity).
      apply Hn in Hin as (y & Hy & Ey). rewrite Forall_forall in Hfx.
      rewrite (Hfx y) in Ey; [discriminate|]. apply list_elem_of_lookup. exists n. exact Hy. }
    subst nans. rewrite (Hall eq_refl). reflexivity.
Qed.

Lemma downdate_step_downdated n depth st i :
  st.2 < n -> downdated n st ->
  downdated n (downdate_step depth st i) /\ (downdate_step depth st i).2 = st.2 - 1.
Proof.
  destruct st as [[c b] m]. simpl. intros Hm [Hl Hz]. simpl in *.
  split; [|reflexivity]. split; simpl; unfold vec in *.
  - rewrite length_insert, length_imap. exact Hl.
  - intros j Hj. destruct (decide (j = m)) as [->|Hne].
    + apply list_lookup_insert_eq. rewrite length_imap. lia.
    + rewrite list_lookup_insert_ne by congruence. rewrite list_lookup_imap.
      rewrite (Hz j) by lia. simpl.
      destruct (Nat.ltb_spec j m); [lia | reflexivity].
Qed.

Lemma downdate_steps_downdated n depth nans st :
  st.2 < n -> downdated n st ->
  downdated n (foldl (downdate_step depth) st nans)
  /\ (foldl (downdate_step depth) st nans).2 = st.2 - length nans.
Proof.
  revert st. induction nans as [|i nans IH]; intros st Hm Hd; simpl.
  - split; [exact Hd | lia].
  - destruct (downdate_step_downdated n depth st i Hm Hd) as [Hd' Hm'].
    destruct (IH (downdate_step depth st i)) as [H1 H2]; [lia | exact Hd' |].
    split; [exact H1 | lia].
Qed.

(** X3.  [_downdate(c, nans, depth)] on [ns[depth]] coefficients, for fewer
    non-finite samples than coefficients, keeps the number of coefficients
    and leaves the [len(nans)] highest ones equal to zero: each pass sets
    [c[m] = 0] and later passes only touch [c[:m]]. *)
Theorem downdate_zeroes_the_highest_coefficients (c : vec) (nans : list nat) (depth : nat) :
  length c = ns_at depth ->
  length nans < ns_at depth ->
  length (_downdate c nans depth) = ns_at depth
  /\ forall j, ns_at depth - length nans <= j < ns_at depth ->
               _downdate c nans depth !! j = Some 0%float.
Proof.
  intros Hc Hn. unfold _downdate.
  destruct (downdate_steps_downdated (ns_at depth) depth nans (c, b_def depth, ns_at depth - 1))
    as [[Hl Hz] Hm]; simpl in *.
  - lia.
  - split; [exact Hc|]. simpl. intros j Hj. lia.
  - split; [exact Hl|]. intros j Hj. apply Hz. lia.
Qed.

End NumericsFacts.

Lemma downdate_zeroes_the_highest_coefficients_witness :
  length (_downdate (CO:=Sample.coeffs) [1; 2; 3; 4; 5]%float [2] 0) = ns_at 0
  /\ forall j, ns_at 0 - 1 <= j < ns_at 0 ->
               _downdate (CO:=Sample.coeffs) [1; 2; 3; 4; 5]%float [2] 0 !! j = Some 0%float.
Proof.
  apply (downdate_zeroes_the_highest_coefficients (CO:=Sample.coeffs) [1; 2; 3; 4; 5]%float [2] 0).
  - reflexivity.
  - simpl. unfold ns_at. simpl. lia.
Defined.

(** ** Floats and containers *)

Lemma SFeqb_refl_r (x y : spec_float) : SFeqb x y = true -> SFeqb y y = true.
Proof.
  intros H. assert (Hy : y <> S754_nan).
  { intros ->. destruct x as [sx|sx| |sx mx ex]; try discriminate H;
      destruct sx; discriminate H. }
  clear H. unfold SFeqb, SFcompare.
  destruct y as [sy|sy| |sy my ey]; try reflexivity; try (destruct sy; reflexivity);
    [congruence|].
  rewrite Z.compare_refl.
  change (Pos.compare_cont Eq my my) with (Pos.compare my my).
  rewrite Pos.compare_refl. destruct sy; reflexivity.
Qed.

(** A float that is [==] to some float is [==] to itself: it is no NaN. *)
Lemma float_eqb_refl_r (x y : float) : (x =? y)%float = true -> (y =? y)%float = true.
Proof. rewrite !FloatAxioms.eqb_spec. apply SFeqb_refl_r. Qed.

Section MoreDictFacts.
Context {K V : Type} `{PyEq K}.
Implicit Types (d : dict K V) (k : K).

Lemma dict_mem_get k d : dict_mem k d = true -> is_Some (dict_get k d).
Proof.
  unfold dict_get, dict_mem. induction d as [|[k0 v0] d IH]; simpl; [discriminate|].
  destruct (py_eqb k0 k); simpl; [intros _; eexists; reflexivity | exact IH].
Qed.

(** [d[k] = v] and then [d[k]]. *)
Lemma dict_get_set k v d :
  (dict_mem k d = true \/ py_eqb k k = true) -> dict_get k (dict_set k v d) = Some v.
Proof.
  unfold dict_get, dict_mem. induction d as [|[k0 v0] d IH]; simpl.
  - intros [Hd|Hk]; [discriminate|]. rewrite Hk. reflexivity.
  - destruct (py_eqb k0 k) eqn:E; simpl; rewrite E; simpl; [reflexivity|exact IH].
Qed.

(** [d[k] = v] adds an entry exactly when [k] is no key yet. *)
Lemma dict_set_length k v d :
  length (dict_set k v d) = length d + (if dict_mem k d then 0 else 1).
Proof.
  unfold dict_mem. induction d as [|[k0 v0] d IH]; simpl; [reflexivity|].
  destruct (py_eqb k0 k); simpl; [lia | rewrite IH; lia].
Qed.

(** Storing the value that a key has changes nothing. *)
Lemma dict_set_same k v d : dict_get k d = Some v -> dict_set k v d = d.
Proof.
  unfold dict_get. induction d as [|[k0 v0] d IH]; simpl; [discriminate|].
  destruct (py_eqb k0 k); simpl; [intros [= ->]; reflexivity|].
  intros Hd. rewrite (IH Hd). reflexivity.
Qed.

Lemma set_mem_discard (x : K) (s : list K) : set_mem x (set_discard x s) = false.
Proof.
  unfold set_mem, set_discard. induction s as [|y s IH]; simpl; [reflexivity|].
  destruct (py_eqb y x) eqn:E; simpl; [exact IH | rewrite E; exact IH].
Qed.

(** [d[k] = v] for a new key appends the entry. *)
Lemma dict_set_new k v d : dict_mem k d = false -> dict_set k v d = d ++ [(k, v)].
Proof.
  unfold dict_mem. induction d as [|[k0 v0] d IH]; simpl; [reflexivity|].
  destruct (py_eqb k0 k); simpl; [discriminate|]. intros Hd. rewrite (IH Hd). reflexivity.
Qed.
End MoreDictFacts.


Lemma map_m_length {S A B} (f : A -> M S B) (l : list A) s s' r :
  map_m f l s = Ok s' r -> length r = length l.
Proof.
  revert s s' r. induction l as [|x l IH]; intros s s' r; simpl.
  - unfold ret. intros [= _ <-]. reflexivity.
  - unfold bind at 1. destruct (f x s) as [s1 y| |]; [|discriminate|discriminate].
    unfold bind at 1. destruct (map_m f l s1) as [s2 ys| |] eqn:E; [|discriminate|discriminate].
    unfold ret. intros [= _ <-]. simpl. f_equal. exact (IH s1 s2 ys E).
Qed.

(** ** The integrator: construction *)





Section IntegratorConstruction2.
Context {CO : Coeffs} {LA : LinAlg}.

Lemma register_initial bounds tl rtol nd x s :
  initial bounds tl rtol [] nd s ->
  exists s', IL.register 0 x s = Ok s' tt /\ initial bounds tl rtol [] (set_add x nd) s'.
Proof.
  intros (Hb & Ht & Hr & Hd & Hn & Hs & Hh & Hi & Hp & He & Hg).
  unfold IL.register, IL.x_mapping_add, IL.x_mapping_get, bind, gets, modify, ret.
  destruct (dict_get x (IL.x_mapping s)); simpl; rewrite Hd; simpl; rewrite Hn;
    unfold set_add; destruct (set_mem x nd) eqn:E; simpl;
    (eexists; split; [reflexivity|]);
    repeat split; simpl; try assumption; try (rewrite Hs; reflexivity);
    try (rewrite Hn; unfold set_add; rewrite E; reflexivity).
Qed.

Lemma registers_initial bounds tl rtol pts nd s :
  initial bounds tl rtol [] nd s ->
  exists s', for_each pts (IL.register 0) s = Ok s' tt
             /\ initial bounds tl rtol [] (set_update nd pts) s'.
Proof.
  revert nd s. induction pts as [|x pts IH]; intros nd s Hs; simpl.
  - exists s. split; [reflexivity | exact Hs].
  - destruct (register_initial bounds tl rtol nd x s Hs) as (s1 & E1 & H1).
    destruct (IH (set_add x nd) s1 H1) as (s2 & E2 & H2).
    exists s2. split; [|exact H2]. unfold bind. rewrite E1. exact E2.
Qed.

(** X4.  [IntegratorLearner(function, bounds, tol, rtol)] raises the
    [ValueError] for a missing tolerance when [tol] and [rtol] are both
    [None].  With a tolerance it returns a learner that knows no value
    ([nr_points = 0]), whose only interval is the first one, of depth 3 on
    the bounds, in [ivals]; [_stack] and [not_done_points] both hold the
    abscissae of that interval, each once, in their order. *)
Theorem the_constructor_of_the_integrator (bounds : float * float)
    (tl rtol : option float) :
  (tl = None -> rtol = None ->
   exists s, IL.init bounds tl rtol = Raise s ValueError_no_tolerance)
  /\ (is_Some tl \/ is_Some rtol ->
      exists s,
        IL.init bounds tl rtol = Ok s tt
        /\ initial bounds tl rtol [0]
             (set_update [] (Interval.points (first_interval bounds tl) 3)) s
        /\ IL.first_ival s = 0 /\ IL._complete_branches s = []
        /\ IL.nr_points s = 0).
Proof.
  split.
  - intros -> ->. eexists. reflexivity.
  - intros Hsome.
    assert (H0 : initial bounds tl rtol [] []
                   (IL.set_heap [first_interval bounds tl] (IL.empty bounds tl rtol))).
    { repeat split. }
    destruct (registers_initial bounds tl rtol
                (Interval.points (first_interval bounds tl) 3) [] _ H0) as (s1 & E1 & H1).
    exists (IL.set__complete_branches [] (IL.set_first_ival 0 (IL.set_ivals [0] s1))).
    split; [|split].
    + assert (E : (let* (h, points) := IL.make_first bounds.1 bounds.2 tl in
                   IL._update_ival h points ;;
                   modify (IL.set_first_ival h) ;;
                   modify (IL.set__complete_branches [])) (IL.empty bounds tl rtol)
                  = Ok (IL.set__complete_branches []
                          (IL.set_first_ival 0 (IL.set_ivals [0] s1))) tt).
      { unfold IL.make_first, IL.new_ival. unfold bind at 1. unfold bind at 1.
        cbn [Interval.alloc IL.heap IL.empty length app]. unfold ret at 1.
        unfold IL._update_ival. unfold bind at 1. unfold bind at 1. unfold bind at 1.
        unfold IL.get_ival at 1, gets at 1.
        cbn [IL.heap IL.set_heap Interval.lookup lookup list_lookup default Interval.discard
             Interval.new].
        change (Interval.discard (id _)) with false. cbv beta iota.
        fold (first_interval bounds tl) in *.
        rewrite E1.
        destruct H1 as (_ & _ & _ & _ & _ & _ & _ & Hi & _).
        unfold bind, IL.ivals_add, modify, ret, sorted_add. rewrite Hi. reflexivity. }
      unfold IL.init. destruct tl, rtol; try exact E.
      destruct Hsome as [[? H]|[? H]]; discriminate.
    + destruct H1 as (Hb & Ht & Hr & Hd & Hn & Hs & Hh & Hi & Hp & He & Hg).
      repeat split; simpl; try assumption; reflexivity.
    + destruct H1 as (Hb & Ht & Hr & Hd & Hn & Hs & Hh & Hi & Hp & He & Hg).
      repeat split; simpl; try reflexivity. unfold IL.nr_points. simpl. rewrite Hd.
      reflexivity.
Qed.

End IntegratorConstruction2.

Lemma the_constructor_of_the_integrator_witness :
  exists s,
    IL.init (CO:=Sample.coeffs) (LA:=Sample.linalg) (0, 1)%float (Some 0x1p-20%float) None
    = Ok s tt
    /\ initial (0, 1)%float (Some 0x1p-20%float) None [0]
         (set_update []
            (Interval.points (CO:=Sample.coeffs)
               (first_interval (0, 1)%float (Some 0x1p-20%float)) 3)) s
    /\ IL.first_ival s = 0 /\ IL._complete_branches s = []
    /\ IL.nr_points s = 0.
Proof.
  apply (proj2 (the_constructor_of_the_integrator (CO:=Sample.coeffs) (LA:=Sample.linalg)
                  (0, 1)%float (Some 0x1p-20%float) None)).
  left. eexists. reflexivity.
Defined.

(** ** The integrator: [tell] *)

Section IntegratorTell.
Context {CO : Coeffs} {LA : LinAlg}.

(** [add_point] for a point of [x_mapping]: the value is recorded, then
    the intervals of the point are visited. *)
Lemma add_point_known s x y :
  dict_mem x (IL.x_mapping s) = true ->
  IL.add_point x y s
  = (let* ivs := IL.x_mapping_get x in for_each ivs (IL.deposit x y))
      (IL.record_point x y s).
Proof.
  intros Hx. unfold IL.add_point. unfold bind at 1. unfold gets at 1. rewrite Hx.
  reflexivity.
Qed.

Lemma add_point_final s x y s' :
  dict_mem x (IL.x_mapping s) = true ->
  Trace.final (IL.add_point x y s) = Some s' ->
  IL.done_points s' = dict_set x y (IL.done_points s)
  /\ IL.not_done_points s' = set_discard x (IL.not_done_points s)
  /\ IL.tol s' = IL.tol s.
Proof.
  intros Hx Hf. rewrite (add_point_known s x y Hx) in Hf.
  set (s1 := IL.record_point x y s) in *.
  match type of Hf with
  | Trace.final (?m s1) = _ =>
      assert (Hm : stable (keeps_points (IL.done_points s1) (IL.not_done_points s1) (IL.tol s1)) m);
        [|pose proof (stable_run Hm s1 (conj eq_refl (conj eq_refl eq_refl))) as Hk;
          destruct (m s1) as [s2 []|s2 e|]; simpl in Hf; inversion Hf; subst; exact Hk]
  end.
  repeat first [stable_step | apply keeps_x_mapping_get | apply keeps_deposit].
Qed.

Lemma x_mapping_key_refl (x : float) (xm : dict float (list nat)) :
  dict_mem x xm = true -> py_eqb x x = true.
Proof.
  unfold dict_mem. intros H. apply existsb_exists in H as [[k v] [_ Hk]].
  exact (float_eqb_refl_r k x Hk).
Qed.

(** X5.  [add_point(x, y)] for a point of [x_mapping] records the value
    whether the call returns or raises (a [DivergentIntegralError], a
    failed assertion): afterwards [done_points[x]] is [y], [x] is not in
    [not_done_points], and [nr_points] has grown by one exactly when [x]
    had no value yet. *)
Theorem add_point_records_the_value (s s' : IL.t) (x y : float) :
  dict_mem x (IL.x_mapping s) = true ->
  Trace.final (IL.add_point x y s) = Some s' ->
  IL.done_points s' = dict_set x y (IL.done_points s)
  /\ dict_get x (IL.done_points s') = Some y
  /\ set_mem x (IL.not_done_points s') = false
  /\ IL.nr_points s' = IL.nr_points s + (if dict_mem x (IL.done_points s) then 0 else 1).
Proof.
  intros Hx Hf. destruct (add_point_final s x y s' Hx Hf) as (Hd & Hn & _).
  split; [exact Hd|]. split; [|split].
  - rewrite Hd. apply dict_get_set. right. exact (x_mapping_key_refl x _ Hx).
  - rewrite Hn. apply set_mem_discard.
  - unfold IL.nr_points. rewrite Hd. apply dict_set_length.
Qed.

End IntegratorTell.

Lemma add_point_records_the_value_witness :
  match Trace.final (IL.add_point (CO:=Sample.coeffs) (LA:=Sample.linalg)
                       0.5 1 Examples.waiting) with
  | Some s' =>
      IL.done_points s' = dict_set 0.5%float 1%float (IL.done_points Examples.waiting)
      /\ dict_get 0.5%float (IL.done_points s') = Some 1%float
      /\ set_mem 0.5%float (IL.not_done_points s') = false
      /\ IL.nr_points s'
         = IL.nr_points Examples.waiting
           + (if dict_mem 0.5%float (IL.done_points Examples.waiting) then 0 else 1)
  | None => False
  end.
Proof.
  destruct (Trace.final (IL.add_point (CO:=Sample.coeffs) (LA:=Sample.linalg)
                           0.5 1 Examples.waiting)) as [s'|] eqn:E.
  - apply (add_point_records_the_value (CO:=Sample.coeffs) (LA:=Sample.linalg)
             Examples.waiting s' 0.5 1); [reflexivity | exact E].
  - vm_compute in E. discriminate E.
Defined.

(** ** The integrator: [ask] *)



Section IntegratorAsk.
Context {CO : Coeffs} {LA : LinAlg}.

(** What [pop_from_stack(n)] returns when it returns. *)
Lemma pop_from_stack_ok n s s' ps ls :
  IL.pop_from_stack n s = Ok s' (ps, ls) ->
  ps = take n (IL._stack s) /\ length ls = length ps.
Proof.
  unfold IL.pop_from_stack. unfold bind at 1. unfold gets at 1.
  unfold bind at 1. unfold modify at 1. unfold bind at 1.
  match goal with |- context [map_m ?f ?l ?s1] => destruct (map_m f l s1) as [s2 r| |] eqn:E end;
    [|discriminate|discriminate].
  unfold ret. intros [= _ <- <-]. split; [reflexivity|]. exact (map_m_length _ _ _ _ _ E).
Qed.

Lemma choose_loop_ok fuel n_left acc s s' ps ls :
  IL.choose_loop fuel n_left acc s = Ok s' (ps, ls) ->
  length acc.2 = length acc.1 ->
  length ps = length acc.1 + n_left /\ length ls = length ps.
Proof.
  revert n_left acc s. induction fuel as [|fuel IH]; intros n_left acc s;
    destruct n_left as [|n]; simpl.
  - unfold ret. intros [= _ ->] H. simpl in *. split; [lia | congruence].
  - discriminate.
  - unfold ret. intros [= _ ->] H. simpl in *. split; [lia | congruence].
  - unfold bind at 1. destruct (IL._fill_stack s) as [s1 []| |]; [|discriminate|discriminate].
    unfold bind at 1.
    destruct (IL.pop_from_stack (S n) s1) as [s2 [np nl]| |] eqn:E; [|discriminate|discriminate].
    apply pop_from_stack_ok in E as [-> Hl]. intros H Hacc.
    apply IH in H; simpl; [|rewrite !length_app; lia].
    simpl in H. rewrite length_app in H.
    pose proof (firstn_le_length (S n) (IL._stack s1)). lia.
Qed.

(** X7.  When [choose_points(n)] returns, it returns exactly [n] points and
    [n] loss improvements. *)
Theorem choose_points_returns_n_points (fuel n : nat) (s s' : IL.t) (ps ls : vec) :
  IL.choose_points fuel n s = Ok s' (ps, ls) ->
  length ps = n /\ length ls = n.
Proof.
  unfold IL.choose_points. unfold bind at 1.
  destruct (IL.pop_from_stack n s) as [s1 [p0 l0]| |] eqn:E; [|discriminate|discriminate].
  apply pop_from_stack_ok in E as [-> Hl]. intros H.
  apply choose_loop_ok in H; simpl; [|exact Hl]. simpl in H.
  pose proof (firstn_le_length n (IL._stack s)). lia.
Qed.

(** The loss improvement that [pop_from_stack] reports for a point whose
    entry of [x_mapping] is not empty. *)
Lemma pop_entry_ok (s : IL.t) (x : float) ivs :
  dict_get x (IL.x_mapping s) = Some ivs -> ivs <> [] ->
  exists l, (let* ivs := IL.x_mapping_get x in
             let* s := get in
             match max_of (map (IL.err_of s) ivs) with
             | Some m => ret m
             | None => raise ValueError_empty_max
             end) s = Ok s l
            /\ max_of (map (IL.err_of s) ivs) = Some l.
Proof.
  intros Hx Hne. unfold IL.x_mapping_get, bind, gets, get, ret. rewrite Hx.
  destruct ivs as [|h ivs]; [congruence|]. simpl. eexists. split; reflexivity.
Qed.

Lemma pop_entries_ok (s : IL.t) (l : vec) :
  Forall (fun x => exists ivs, dict_get x (IL.x_mapping s) = Some ivs /\ ivs <> []) l ->
  exists ls,
    map_m (fun x => let* ivs := IL.x_mapping_get x in
                    let* s := get in
                    match max_of (map (IL.err_of s) ivs) with
                    | Some m => ret m
                    | None => raise ValueError_empty_max
                    end) l s = Ok s ls
    /\ Forall2 (fun x m => exists ivs, dict_get x (IL.x_mapping s) = Some ivs
                                       /\ max_of (map (IL.err_of s) ivs) = Some m) l ls.
Proof.
  induction 1 as [|x l (ivs & Hx & Hne) _ (ls & E & Hls)]; simpl.
  - exists []. split; [reflexivity | constructor].
  - destruct (pop_entry_ok s x ivs Hx Hne) as (m & Em & Hm).
    exists (m :: ls). split.
    + unfold bind at 1. rewrite Em. unfold bind at 1. rewrite E. reflexivity.
    + constructor; [exists ivs; split; assumption | exact Hls].
Qed.

(** X6.  When [_stack] holds at least [n] points (each with an interval in
    [x_mapping]), [choose_points(n)] returns the first [n] points of the
    stack, each with the largest [err] of its intervals, and removes them
    from the stack; nothing else changes: no interval is split or
    refined. *)
Theorem choose_points_serves_from_the_stack (fuel n : nat) (s : IL.t) :
  n <= length (IL._stack s) ->
  Forall (fun x => exists ivs, dict_get x (IL.x_mapping s) = Some ivs /\ ivs <> [])
         (take n (IL._stack s)) ->
  exists ls,
    IL.choose_points fuel n s
    = Ok (IL.set__stack (drop n (IL._stack s)) s) (take n (IL._stack s), ls)
    /\ Forall2 (fun x m => exists ivs, dict_get x (IL.x_mapping s) = Some ivs
                                       /\ max_of (map (IL.err_of s) ivs) = Some m)
               (take n (IL._stack s)) ls.
Proof.
  intros Hn Hx.
  set (s1 := IL.set__stack (drop n (IL._stack s)) s).
  destruct (pop_entries_ok s1 (take n (IL._stack s)) Hx) as (ls & E & Hls).
  exists ls. split; [|exact Hls].
  unfold IL.choose_points, IL.pop_from_stack.
  unfold bind at 1. unfold bind at 1. unfold gets at 1.
  unfold bind at 1. unfold modify at 1. fold s1.
  unfold bind at 1. rewrite E. unfold ret at 1. cbv beta iota.
  rewrite length_take_le by exact Hn. rewrite Nat.sub_diag.
  destruct fuel; reflexivity.
Qed.

(** X8.  When the stack is empty and no interval is left ([ivals] and
    [priority_split] are empty, as after the last interval has been
    retired), [choose_points(n)] for [n > 0] raises [IndexError] at
    [self.ivals[-1]] and leaves the learner as it was. *)
Theorem choose_points_raises_when_no_interval_is_left (fuel n : nat) (s : IL.t) :
  0 < n ->
  IL._stack s = [] -> IL.priority_split s = [] -> IL.ivals s = [] ->
  IL.choose_points (S fuel) n s = Raise s IndexError.
Proof.
  intros Hn Hst Hps Hiv. destruct n as [|n]; [lia|].
  destruct s; simpl in *; subst.
  reflexivity.
Qed.

End IntegratorAsk.

Lemma choose_points_returns_n_points_witness :
  length [0.5%float] = 1 /\ length [inf] = 1.
Proof.
  apply (choose_points_returns_n_points (CO:=Sample.coeffs) (LA:=Sample.linalg)
           3 1 Examples.waiting (IL.set__stack [1%float] Examples.waiting)
           [0.5%float] [inf]).
  reflexivity.
Defined.

Lemma choose_points_serves_from_the_stack_witness :
  exists ls,
    IL.choose_points (CO:=Sample.coeffs) (LA:=Sample.linalg) 3 2 Examples.waiting
    = Ok (IL.set__stack (drop 2 (IL._stack Examples.waiting)) Examples.waiting)
         (take 2 (IL._stack Examples.waiting), ls)
    /\ Forall2 (fun x m => exists ivs,
                   dict_get x (IL.x_mapping Examples.waiting) = Some ivs
                   /\ max_of (map (IL.err_of Examples.waiting) ivs) = Some m)
               (take 2 (IL._stack Examples.waiting)) ls.
Proof.
  apply (choose_points_serves_from_the_stack (CO:=Sample.coeffs) (LA:=Sample.linalg)
           3 2 Examples.waiting).
  - simpl. lia.
  - simpl. repeat constructor; exists [0]; (split; [reflexivity | discriminate]).
Defined.

Lemma choose_points_raises_when_no_interval_is_left_witness :
  IL.choose_points (CO:=Sample.coeffs) (LA:=Sample.linalg) 1 1 Examples.retired
  = Raise Examples.retired IndexError.
Proof.
  apply (choose_points_raises_when_no_interval_is_left
           (CO:=Sample.coeffs) (LA:=Sample.linalg) 0 1 Examples.retired).
  - lia.
  - reflexivity.
  - reflexivity.
  - reflexivity.
Defined.

(** ** The integrator: [ask] leaves the values alone *)

Section IntegratorAskFrame.
Context {CO : Coeffs} {LA : LinAlg}.

(** A property of the learner that the calls which leave [done_points],
    [not_done_points] and [tol] alone keep, and that [register] keeps, is
    kept by [choose_points]. *)
Section Kept.
Variable P : IL.t -> Prop.
Hypothesis P_frame : forall A (m : M IL.t A),
  (forall d nd tl, stable (keeps_points d nd tl) m) -> stable P m.
Hypothesis P_register : forall h x, stable P (IL.register h x).

Ltac keep :=
  apply P_frame; intros;
  first [ apply keeps_get_ival | apply keeps_ivals_add | apply keeps_ivals_discard
        | apply keeps_set_discard
        | apply keeps_split | apply keeps_refine | apply keeps_pop_from_stack
        | apply stable_modify; intros ? (? & ? & ?); repeat split; simpl; assumption ].

Lemma kept__update_ival h points : stable P (IL._update_ival h points).
Proof using P_frame P_register. unfold IL._update_ival. repeat first [stable_step | apply P_register | keep]. Qed.

Lemma kept__fill_stack : stable P IL._fill_stack.
Proof using P_frame P_register.
  unfold IL._fill_stack. repeat first [stable_step | apply kept__update_ival | keep].
Qed.

Lemma kept_choose_loop fuel n acc : stable P (IL.choose_loop fuel n acc).
Proof using P_frame P_register.
  revert n acc. induction fuel as [|fuel IH]; intros n acc; simpl;
    repeat first [stable_step | apply IH | apply kept__fill_stack | keep].
Qed.

Lemma kept_choose_points fuel n : stable P (IL.choose_points fuel n).
Proof using P_frame P_register.
  unfold IL.choose_points. repeat first [stable_step | apply kept_choose_loop | keep].
Qed.

End Kept.

Lemma frame_done_points d {A} (m : M IL.t A) :
  (forall d nd tl, stable (keeps_points d nd tl) m) ->
  stable (fun s => IL.done_points s = d) m.
Proof.
  intros H. constructor. intros s Hs.
  pose proof (stable_run (H d (IL.not_done_points s) (IL.tol s)) s
                (conj Hs (conj eq_refl eq_refl))) as Hk.
  destruct (m s) as [s' x|s' e|]; [| |exact I]; exact (proj1 Hk).
Qed.

(** [register] tells again the value that a point has: [done_points] is
    as before. *)
Lemma register_done_points d h x : stable (fun s => IL.done_points s = d) (IL.register h x).
Proof.
  constructor. intros s Hs. unfold IL.register, bind at 1.
  pose proof (stable_run (frame_done_points d _ (fun d nd tl => keeps_x_mapping_add d nd tl x h))
                s Hs) as H1.
  destruct (IL.x_mapping_add x h s) as [s1 []|s1 e|]; [|exact H1|exact I].
  simpl in H1. unfold bind at 1, gets at 1. rewrite H1.
  destruct (dict_get x d) as [v|] eqn:Hg.
  - unfold IL.add_point. unfold bind at 1, gets at 1.
    destruct (negb (dict_mem x (IL.x_mapping s1))); [exact H1|].
    unfold bind at 1, modify at 1.
    match goal with
    | |- match ?m ?s2 with _ => _ end =>
        assert (Hm : stable (fun s => IL.done_points s = d) m); [|apply (stable_run Hm)]
    end.
    + repeat first
        [ stable_step
        | apply frame_done_points; intros;
          first [apply keeps_x_mapping_get | apply keeps_deposit] ].
    + simpl. rewrite H1. apply dict_set_same, Hg.
  - unfold bind, gets. destruct (set_mem x (IL.not_done_points s1)); simpl; exact H1.
Qed.

(** X10.  [choose_points] never changes the values that were told:
    [done_points] is the same after the call, whether it returns or
    raises.  (When a new interval shares an abscissa with a known value,
    [_update_ival] tells that value again, which stores what is stored.) *)
Theorem choose_points_keeps_the_values (fuel n : nat) (s s' : IL.t) :
  Trace.final (IL.choose_points fuel n s) = Some s' ->
  IL.done_points s' = IL.done_points s.
Proof.
  intros Hf.
  pose proof (stable_run (kept_choose_points (fun s0 => IL.done_points s0 = IL.done_points s)
                            (fun A m => frame_done_points _ m)
                            (register_done_points _) fuel n) s eq_refl) as H.
  destruct (IL.choose_points fuel n s); simpl in Hf; inversion Hf; subst; exact H.
Qed.

End IntegratorAskFrame.

Lemma choose_points_keeps_the_values_witness :
  IL.done_points (IL.set__stack [1%float] Examples.waiting)
  = IL.done_points Examples.waiting.
Proof.
  apply (choose_points_keeps_the_values (CO:=Sample.coeffs) (LA:=Sample.linalg)
           3 1 Examples.waiting).
  reflexivity.
Defined.

(** ** Interval nodes *)

(** X12.  The property [branch_complete] of an interval without children is
    [True] whether or not the interval is complete ([sum] of no error
    estimate is 0, which is finite); for an interval with children it is
    the finiteness of the sum of the children's [est_err], whatever the
    interval's own samples are. *)
Theorem branch_complete_ignores_the_samples (hp : Interval.heap) (i : Interval.t) :
  (Interval.children i = [] -> Interval.branch_complete hp i = true)
  /\ (Interval.children i <> [] ->
      Interval.branch_complete hp i
      = isfinite (sum (map (fun k => Interval.est_err (Interval.lookup hp k))
                           (Interval.children i)))).
Proof.
  unfold Interval.branch_complete. split.
  - intros ->. destruct (Interval.complete i); reflexivity.
  - intros H. destruct (Interval.children i); [congruence | reflexivity].
Qed.

(** ** The integrator: the reports *)



Section IntegratorReports.
Context {CO : Coeffs} {LA : LinAlg}.

Lemma complete_branches_ivals s s' brs :
  tree_ok (IL.heap s) -> igral_ready s ->
  IL.complete_branches s = Ok s' brs -> IL.ivals s' = IL.ivals s.
Proof.
  intros Hok Hr E.
  destruct (complete_branches_total s Hok Hr) as [brs' [s'' [H1 [H2 _]]]].
  rewrite H1 in E. inversion E; subst. destruct H2 as [-> | ->]; reflexivity.
Qed.


(** X11.  The reports [loss()], [done()], [igral] and [err] change nothing
    of the learner but the cache [_complete_branches], whether they return
    or raise. *)
Theorem reports_change_the_cache_only (c : Trace.integrator_call) (s s' : IL.t) :
  match c with
  | Trace.ILoss | Trace.IDone | Trace.IIgral | Trace.IErr => True
  | _ => False
  end ->
  Trace.final (Trace.integrator_step c s) = Some s' ->
  same_but_cache s s'.
Proof.
  intros Hc Hf.
  pose proof (stable_run (same_but_cache_reports s c Hc) s eq_refl) as H.
  destruct (Trace.integrator_step c s); simpl in Hf; inversion Hf; subst; exact H.
Qed.

End IntegratorReports.


Lemma reports_change_the_cache_only_witness :
  same_but_cache Examples.retired (IL.set__complete_branches [0] Examples.retired).
Proof.
  apply (reports_change_the_cache_only (CO:=Sample.coeffs) (LA:=Sample.linalg)
           Trace.ILoss Examples.retired).
  - exact I.
  - reflexivity.
Defined.

(** ** The triangulator *)





Section TriangulatorTell.
Context {PR : Primitive} {NP : Numpy} {RN : Random}.

(** X13.  [tell(point, None)] for a point that is no key of [data] returns,
    adds the point to [_pending] and leaves [data] as it was. *)
Theorem tell_without_a_value_marks_the_point_pending (s : TL.t) (p : point) :
  dict_mem p (TL.data s) = false ->
  exists s', TL.tell p None s = Ok s' tt
             /\ TL.data s' = TL.data s
             /\ TL._pending s' = set_add p (TL._pending s).
Proof.
  intros Hp. unfold TL.tell. unfold bind at 1. unfold get at 1. rewrite Hp.
  exact (_tell_pending_returns p None s).
Qed.

(** After the value is recorded, [tell] leaves [data] and [_pending]
    alone. *)
Lemma tell_final s p v s' :
  dict_mem p (TL.data s) = false ->
  Trace.final (TL.tell p (Some v) s) = Some s' ->
  TL.data s' = dict_set p v (TL.data s)
  /\ TL._pending s' = set_discard p (TL._pending s).
Proof.
  intros Hp Hf. unfold TL.tell in Hf. unfold bind at 1 in Hf. unfold get at 1 in Hf.
  rewrite Hp in Hf. unfold bind at 1 in Hf. unfold modify at 1 in Hf.
  set (s1 := TL.record_value p v s) in *.
  match type of Hf with
  | Trace.final (?m s1) = _ =>
      assert (Hm : stable (keeps_data (TL.data s1) (TL._pending s1)) m);
        [|pose proof (stable_run Hm s1 (conj eq_refl eq_refl)) as Hk;
          destruct (m s1) as [s2 []|s2 e|]; simpl in Hf; inversion Hf; subst; exact Hk]
  end.
  repeat first
    [ stable_step
    | apply data_kept_tri | apply data_kept__simplex_exists | apply data_kept_update_losses
    | apply stable_modify; intros ? [? ?]; split; simpl; assumption ].
Qed.

(** X14.  [tell(point, value)] for a new point (of coordinates that are
    no NaN) appends the point to [data] with that value and removes it
    from [_pending], whether the call returns or raises; [npoints] grows
    by one; and a second [tell] for the same point, with any value, is
    ignored: the first value stays. *)
Theorem tell_records_the_first_value (s s1 : TL.t) (p : point) (v v' : value) :
  py_eqb p p = true ->
  dict_mem p (TL.data s) = false ->
  Trace.final (TL.tell p (Some v) s) = Some s1 ->
  TL.data s1 = TL.data s ++ [(p, v)]
  /\ dict_get p (TL.data s1) = Some v
  /\ set_mem p (TL._pending s1) = false
  /\ TL.npoints s1 = S (TL.npoints s)
  /\ TL.tell p (Some v') s1 = Ok s1 tt.
Proof.
  intros Hpp Hp Hf. destruct (tell_final s p v s1 Hp Hf) as [Hd Hn].
  assert (Hg : dict_get p (TL.data s1) = Some v).
  { rewrite Hd. apply dict_get_set. right. exact Hpp. }
  split; [rewrite Hd; apply dict_set_new, Hp|]. split; [exact Hg|]. split; [|split].
  - rewrite Hn. apply set_mem_discard.
  - unfold TL.npoints. rewrite Hd, (dict_set_new p v _ Hp), length_app. simpl. lia.
  - unfold TL.tell, bind, get. rewrite (dict_get_Some p _ v Hg). reflexivity.
Qed.

(** X15.  While [_losses] is empty ([loss()] is called before the
    triangulation exists, or right after the property [tri] has built it,
    which computes no loss), [loss()] returns +inf and leaves [data] as it
    was. *)
Theorem loss_is_infinite_without_losses (s : TL.t) :
  TL._losses s = [] ->
  exists s', TL.loss s = Ok s' inf /\ TL.data s' = TL.data s.
Proof.
  intros Hl. destruct (tri_returns s) as (s' & o & E & Hd & _ & HT).
  exists s'. split; [|exact Hd].
  unfold TL.loss, TL.losses. unfold bind at 1. unfold bind at 1. rewrite E.
  destruct o as [T|].
  - destruct (HT T eq_refl) as [-> _]. unfold gets, ret. rewrite Hl. reflexivity.
  - reflexivity.
Qed.

Lemma frame_data d {A} (m : M TL.t A) :
  (forall d p, stable (keeps_data d p) m) -> stable (fun s => TL.data s = d) m.
Proof.
  intros H. constructor. intros s Hs.
  pose proof (stable_run (H d (TL._pending s)) s (conj Hs eq_refl)) as Hk.
  destruct (m s) as [s' x|s' e|]; [| |exact I]; exact (proj1 Hk).
Qed.

Ltac data_frame :=
  repeat first
    [ stable_step
    | apply frame_data; intros;
      first [ apply data_kept_tri | apply data_kept_the_tri | apply data_kept__simplex_exists
            | apply data_kept_place_pending | apply data_kept_losses
            | apply data_kept_random_point ]
    | apply stable_modify; intros ? ?; simpl; assumption ].

Lemma data__tell_pending d x sx : stable (fun s => TL.data s = d) (TL._tell_pending x sx).
Proof. unfold TL._tell_pending. data_frame. Qed.

Lemma data_sample_simplex d loss sx pl :
  stable (fun s => TL.data s = d) (TL.sample_simplex loss sx pl).
Proof.
  unfold TL.sample_simplex. repeat first [apply data__tell_pending | data_frame].
Qed.

Lemma data_ask_loop d fuel losses pl :
  stable (fun s => TL.data s = d) (TL.ask_loop fuel losses pl).
Proof.
  revert losses pl. induction fuel as [|fuel IH]; intros losses pl; simpl;
    repeat first [apply data_sample_simplex | apply IH | data_frame].
Qed.

Lemma data__ask d : stable (fun s => TL.data s = d) TL._ask.
Proof.
  unfold TL._ask.
  repeat first [apply data__tell_pending | apply data_ask_loop | data_frame].
Qed.

Lemma data_ask d n : stable (fun s => TL.data s = d) (TL.ask n).
Proof. unfold TL.ask. repeat first [apply data__ask | data_frame]. Qed.

(** X16.  [ask(n)] never changes [data], whether it returns or raises;
    when it returns, [n] is positive and it returns [n] points and [n]
    loss improvements. *)
Theorem ask_leaves_data_alone (n : nat) (s s' : TL.t) :
  Trace.final (TL.ask n s) = Some s' ->
  TL.data s' = TL.data s
  /\ (forall xs ls, TL.ask n s = Ok s' (xs, ls) -> 0 < n /\ length xs = n /\ length ls = n).
Proof.
  intros Hf. split.
  - pose proof (stable_run (data_ask (TL.data s) n) s eq_refl) as H.
    destruct (TL.ask n s); simpl in Hf; inversion Hf; subst; exact H.
  - intros xs ls E. unfold TL.ask in E. unfold bind at 1 in E.
    destruct (map_m _ (seq 0 n) s) as [s1 rs| |] eqn:Em; [|discriminate|discriminate].
    apply map_m_length in Em. rewrite length_seq in Em.
    destruct rs as [|r rs]; [discriminate|]. unfold ret in E. inversion E; subst.
    change (list_fmap (point * float)%type point fst rs) with (rs.*1).
    change (list_fmap (point * float)%type float snd rs) with (rs.*2).
    simpl. rewrite !length_fmap. lia.
Qed.

(** X17.  After [remove_unfinished()], [ask(1)] returns the first corner
    of the bounds that is no key of [data], also when that corner was
    pending before: a corner that was asked and dropped is asked again,
    and it is then the only pending point. *)
Theorem ask_after_remove_unfinished (s : TL.t) (c : point) :
  In c (TL._bounds_points s) ->
  dict_mem c (TL.data s) = false ->
  exists c' rest s1 s2,
    TL.remove_unfinished s = Ok s1 tt
    /\ List.filter (fun p => negb (dict_mem p (TL.data s))) (TL._bounds_points s) = c' :: rest
    /\ TL.ask 1 s1 = Ok s2 ([c'], [inf])
    /\ TL._pending s2 = [c'].
Proof.
  intros Hin Hd.
  set (s1 := TL.set__pending_to_simplex []
               (TL.set__subtriangulations [] (TL.set__pending [] s))).
  assert (Hb : bounds_to_do s1
               = List.filter (fun p => negb (dict_mem p (TL.data s))) (TL._bounds_points s)).
  { unfold bounds_to_do. simpl. apply filter_ext. intros p. apply andb_true_r. }
  destruct (corner_left s1 c Hin Hd eq_refl) as (c' & rest & Hc).
  destruct (ask_corner s1 c' rest Hc) as (s2 & E & _ & Hp).
  exists c', rest, s1, s2. split; [reflexivity|]. split; [rewrite <- Hb; exact Hc|].
  split; [exact E | exact Hp].
Qed.

End TriangulatorTell.

(** ** The corners of the bounds *)

Lemma product_length (ls : list (list float)) :
  Forall (fun l => length l = 2) ls -> length (TL.product ls) = 2 ^ length ls.
Proof.
  induction 1 as [|l ls Hl _ IH]; simpl; [reflexivity|].
  destruct l as [|x [|y [|z l]]]; simpl in Hl; try discriminate. simpl.
  rewrite app_nil_r, length_app, !length_map. unfold point in *. lia.
Qed.

Lemma product_entries (ls : list (list float)) (c : point) :
  c ∈ TL.product ls -> Forall2 (fun x l => x ∈ l) c ls.
Proof.
  revert c. induction ls as [|l ls IH]; intros c; simpl.
  - intros Hc. apply list_elem_of_singleton in Hc. subst. constructor.
  - intros Hc. apply list_elem_of_In, in_flat_map in Hc as (x & Hx & Hc).
    apply in_map_iff in Hc as (c' & <- & Hc').
    constructor; [apply list_elem_of_In, Hx | apply IH, list_elem_of_In, Hc'].
Qed.

Section TriangulatorConstruction.
Context {PR : Primitive} {NP : Numpy} {RN : Random}.

(** X18.  When [np.linalg.inv] returns the inverse of the diagonal matrix
    of the widths of the bounds, the constructor returns a learner with
    that [_transform], with [ndim = len(bounds)] and [2 ** ndim] corners in
    [_bounds_points], each with one coordinate per dimension taken from
    the two ends of that dimension's bounds; it has no data, no pending
    point, no triangulation and no loss, and its bounds are not done.
    When [np.linalg.inv] raises (a dimension of width zero makes the matrix
    singular), the constructor raises [LinAlgError] and there is no
    learner. *)
Theorem the_constructor_of_the_triangulator (bounds : list (float * float))
    (loss_per_simplex : option (list point -> list value -> option value)) :
  (forall transform,
      linalg_inv (TL.diag_of_widths bounds) = Some transform ->
      exists s,
        TL.init bounds loss_per_simplex = inr s
        /\ TL._transform s = transform
        /\ TL.ndim s = length bounds
        /\ length (TL._bounds_points s) = 2 ^ TL.ndim s
        /\ Forall (fun c => Forall2 (fun x b => x = b.1 \/ x = b.2) c bounds)
                  (TL._bounds_points s)
        /\ TL.data s = [] /\ TL._pending s = [] /\ TL._tri s = None /\ TL._losses s = []
        /\ TL.bounds_are_done s = false)
  /\ (linalg_inv (TL.diag_of_widths bounds) = None ->
      TL.init bounds loss_per_simplex = inl LinAlgError).
Proof.
  unfold TL.init. split; [|intros ->; reflexivity].
  intros transform ->. eexists. split; [reflexivity|]. simpl.
  split; [reflexivity|]. split; [reflexivity|].
  assert (Hl : length (TL.product (map (fun b : float * float => [b.1; b.2]) bounds))
               = 2 ^ length bounds).
  { rewrite product_length, length_map; [reflexivity|].
    apply Forall_forall. intros l Hl. apply list_elem_of_fmap in Hl as (b & -> & _).
    reflexivity. }
  split; [exact Hl|]. split; [|repeat split].
  - apply Forall_forall. intros c Hc. apply product_entries in Hc.
    change (Forall2 (fun x l => x ∈ l) c
              ((fun b : float * float => [b.1; b.2]) <$> bounds)) in Hc.
    rewrite Forall2_fmap_r in Hc. eapply Forall2_impl; [exact Hc|].
    intros x b Hx. simpl in Hx. apply elem_of_cons in Hx as [->|Hx]; [left; reflexivity|].
    apply list_elem_of_singleton in Hx. right. exact Hx.
  - unfold TL.bounds_are_done. simpl.
    destruct (TL.product (map (fun b : float * float => [b.1; b.2]) bounds)) as [|c cs];
      [|reflexivity].
    simpl in Hl. pose proof (Nat.pow_nonzero 2 (length bounds)). lia.
Qed.

End TriangulatorConstruction.

Lemma the_constructor_of_the_triangulator_witness :
  (exists s,
      TL.init (PR:=Sample.primitive) (NP:=Sample.numpy) (RN:=Sample.generator)
        [(0, 1); (0, 1)]%float None = inr s
      /\ TL._transform s = [[1; 0]; [0; 1]]%float
      /\ TL.ndim s = 2
      /\ length (TL._bounds_points s) = 2 ^ TL.ndim s
      /\ Forall (fun c => Forall2 (fun x b => x = b.1 \/ x = b.2) c [(0, 1); (0, 1)]%float)
                (TL._bounds_points s)
      /\ TL.data s = [] /\ TL._pending s = [] /\ TL._tri s = None /\ TL._losses s = []
      /\ TL.bounds_are_done s = false)
  /\ TL.init (PR:=Sample.primitive) (NP:=Sample.numpy) (RN:=Sample.generator)
       [(0, 1); (2, 2)]%float None = inl LinAlgError.
Proof.
  split.
  - apply (proj1 (the_constructor_of_the_triangulator
                    (PR:=Sample.primitive) (NP:=Sample.numpy) (RN:=Sample.generator)
                    [(0, 1); (0, 1)]%float None)).
    reflexivity.
  - apply (proj2 (the_constructor_of_the_triangulator
                    (PR:=Sample.primitive) (NP:=Sample.numpy) (RN:=Sample.generator)
                    [(0, 1); (2, 2)]%float None)).
    reflexivity.
Defined.

Lemma tell_without_a_value_marks_the_point_pending_witness :
  exists s', TL.tell (PR:=Sample.primitive) (NP:=Sample.numpy) (RN:=Sample.generator)
               [0.5; 0.5]%float None Examples.square = Ok s' tt
             /\ TL.data s' = TL.data Examples.square
             /\ TL._pending s' = set_add [0.5; 0.5]%float (TL._pending Examples.square).
Proof.
  apply (tell_without_a_value_marks_the_point_pending
           (PR:=Sample.primitive) (NP:=Sample.numpy) (RN:=Sample.generator)
           Examples.square [0.5; 0.5]%float).
  reflexivity.
Defined.

Lemma tell_records_the_first_value_witness :
  let s1 := TL.set_data [([0; 0]%float, Scalar 0)] Examples.square in
  TL.data s1 = TL.data Examples.square ++ [([0; 0]%float, Scalar 0)]
  /\ dict_get [0; 0]%float (TL.data s1) = Some (Scalar 0)
  /\ set_mem [0; 0]%float (TL._pending s1) = false
  /\ TL.npoints s1 = S (TL.npoints Examples.square)
  /\ TL.tell (PR:=Sample.primitive) (NP:=Sample.numpy) (RN:=Sample.generator)
       [0; 0]%float (Some (Scalar 1)) s1 = Ok s1 tt.
Proof.
  apply (tell_records_the_first_value
           (PR:=Sample.primitive) (NP:=Sample.numpy) (RN:=Sample.generator)
           Examples.square _ [0; 0]%float (Scalar 0) (Scalar 1)).
  - reflexivity.
  - reflexivity.
  - reflexivity.
Defined.

Lemma loss_is_infinite_without_losses_witness :
  exists s', TL.loss (PR:=Sample.primitive) (NP:=Sample.numpy) (RN:=Sample.generator)
               Examples.two_corners = Ok s' inf
             /\ TL.data s' = TL.data Examples.two_corners.
Proof.
  apply (loss_is_infinite_without_losses
           (PR:=Sample.primitive) (NP:=Sample.numpy) (RN:=Sample.generator)
           Examples.two_corners).
  reflexivity.
Defined.

Lemma ask_leaves_data_alone_witness :
  let s' := TL.set__pending [[0; 0]%float] Examples.square in
  TL.data s' = TL.data Examples.square
  /\ (forall xs ls,
        TL.ask (PR:=Sample.primitive) (NP:=Sample.numpy) (RN:=Sample.generator)
          1 Examples.square = Ok s' (xs, ls) ->
        0 < 1 /\ length xs = 1 /\ length ls = 1).
Proof.
  apply (ask_leaves_data_alone
           (PR:=Sample.primitive) (NP:=Sample.numpy) (RN:=Sample.generator)
           1 Examples.square).
  reflexivity.
Defined.

Lemma ask_after_remove_unfinished_witness :
  exists c' rest s1 s2,
    TL.remove_unfinished (PR:=Sample.primitive) Examples.two_corners = Ok s1 tt
    /\ List.filter (fun p => negb (dict_mem p (TL.data Examples.two_corners)))
         (TL._bounds_points Examples.two_corners) = c' :: rest
    /\ TL.ask (PR:=Sample.primitive) (NP:=Sample.numpy) (RN:=Sample.generator) 1 s1
       = Ok s2 ([c'], [inf])
    /\ TL._pending s2 = [c'].
Proof.
  apply (ask_after_remove_unfinished
           (PR:=Sample.primitive) (NP:=Sample.numpy) (RN:=Sample.generator)
           Examples.two_corners [1; 0]%float).
  - simpl. right. right. left. reflexivity.
  - reflexivity.
Defined.

(** ** The integrator: well-formed learners *)

Section WellFormedLearners.
Context {CO : Coeffs} {LA : LinAlg}.

(** X19. Every learner that the constructor returns, and every learner
    in the state in which a call of the learner contract ends, is well
    formed: the children of an interval are younger intervals of the
    store and its parent is older, the intervals of [ivals], of
    [priority_split] and of [x_mapping] are in the store, and no interval
    of [ivals] is discarded. *)
Theorem reachable_learners_are_well_formed (tl : option float) (s : IL.t) :
  reachable tl s -> well_formed s.
Proof.
  induction 1 as [bounds rtol s Hi|c s s' _ IH Hf].
  - exact (well_formed_init bounds tl rtol s Hi).
  - apply (well_formed_with_well_formed [] [] s').
    apply (well_formed_step [] c s s'); [|apply well_formed_with_nil, IH|exact Hf].
    intros j b Hj. inversion Hj.
Qed.

(** X20. [add_point] on a well-formed learner ends, returning or
    raising: the loop of [complete_process] over the ancestors of an
    interval ends because the parent of an interval is an older interval.
    It leaves the learner well formed, and it discards no interval and
    revives none. *)
Theorem add_point_ends (s : IL.t) (x y : float) :
  well_formed s ->
  exists s',
    Trace.final (IL.add_point x y s) = Some s'
    /\ well_formed s'
    /\ forall k, Interval.discard (Interval.lookup (IL.heap s') k)
                 = Interval.discard (Interval.lookup (IL.heap s) k).
Proof.
  intros Hw.
  assert (H : forall k,
            match IL.add_point x y s with
            | Ok s' _ | Raise s' _ =>
                well_formed s'
                /\ Interval.discard (Interval.lookup (IL.heap s') k)
                   = Interval.discard (Interval.lookup (IL.heap s) k)
            | OutOfFuel => False
            end).
  { intros k.
    set (D := [(k, Interval.discard (Interval.lookup (IL.heap s) k))]).
    assert (HD : well_formed_with [] D s).
    { split; [exact Hw|]. split; [intros h Hh; inversion Hh|].
      intros j b Hj. apply list_elem_of_singleton in Hj. inversion Hj. reflexivity. }
    pose proof (triple_run (wf_add_point False [] D x y) s HD) as Hr.
    destruct (IL.add_point x y s) as [s1 r|s1 e|]; [| |exact Hr];
      (split; [exact (proj1 Hr)|]);
      apply (proj2 (proj2 Hr)); apply list_elem_of_singleton; reflexivity. }
  destruct (IL.add_point x y s) as [s1 r|s1 e|]; [| |destruct (H 0)];
    exists s1; (split; [reflexivity|]);
    (split; [exact (proj1 (H 0)) | intros k; exact (proj2 (H k))]).
Qed.

(** X22. An interval that is discarded stays discarded through every
    call of the learner contract on a well-formed learner, whether the
    call returns or raises. *)
Theorem discarded_intervals_stay_discarded (c : Trace.integrator_call) (s s' : IL.t)
    (k : nat) :
  well_formed s ->
  Interval.discard (Interval.lookup (IL.heap s) k) = true ->
  Trace.final (Trace.integrator_step c s) = Some s' ->
  well_formed s' /\ Interval.discard (Interval.lookup (IL.heap s') k) = true.
Proof.
  intros Hw Hk Hf.
  assert (HDt : forall j b, (j, b) ∈ [(k, true)] -> b = true).
  { intros j b Hj. apply list_elem_of_singleton in Hj. inversion Hj. reflexivity. }
  assert (HD : well_formed_with [] [(k, true)] s).
  { split; [exact Hw|]. split; [intros h Hh; inversion Hh|].
    intros j b Hj. apply list_elem_of_singleton in Hj. inversion Hj; subst. exact Hk. }
  pose proof (well_formed_step [(k, true)] c s s' HDt HD Hf) as (Hw' & _ & Hd).
  split; [exact Hw'|]. apply Hd. apply list_elem_of_singleton. reflexivity.
Qed.

(** X21. On a well-formed interval tree, and so on every learner that
    can be reached, [err] returns: it neither raises nor runs without
    end, and it changes the cache [_complete_branches] only. *)
Theorem err_returns (s : IL.t) :
  tree_ok (IL.heap s) ->
  exists s' e, IL.err s = Ok s' e /\ same_but_cache s s'.
Proof.
  intros Hok. destruct (complete_branches_returns s Hok) as (brs & s' & E & Hs).
  unfold IL.err, bind. rewrite E.
  destruct brs as [|b brs]; eexists _, _; (split; [reflexivity | exact Hs]).
Qed.

End WellFormedLearners.

Lemma waiting_well_formed : well_formed Examples.waiting.
Proof.
  split; [split|split].
  - intros h iv Hh k Hk. destruct h as [|h]; [|discriminate].
    inversion Hh; subst. inversion Hk.
  - intros h iv Hh p Hp. destruct h as [|h]; [|discriminate].
    inversion Hh; subst. discriminate.
  - intros h Hh.
    assert (h = 0) as ->; [|simpl; lia].
    destruct Hh as [Hh|[Hh|(x & ivs & Hx & Hh)]].
    + apply list_elem_of_singleton in Hh. exact Hh.
    + inversion Hh.
    + simpl in Hx. rewrite !elem_of_cons in Hx. rewrite elem_of_nil in Hx.
      destruct Hx as [Hx|[Hx|[Hx|[]]]]; inversion Hx; subst;
        apply list_elem_of_singleton in Hh; exact Hh.
  - intros h Hh. apply list_elem_of_singleton in Hh as ->. reflexivity.
Qed.

Lemma reachable_learners_are_well_formed_witness : well_formed Examples.sample_fresh.
Proof.
  apply (reachable_learners_are_well_formed (CO:=Sample.coeffs) (LA:=Sample.linalg)
           (Some 0x1p-20%float) Examples.sample_fresh).
  apply (reachable_init _ (0, 1)%float None). reflexivity.
Defined.

Lemma add_point_ends_witness :
  exists s',
    Trace.final (IL.add_point (CO:=Sample.coeffs) (LA:=Sample.linalg)
                   0.5%float 1%float Examples.waiting) = Some s'
    /\ well_formed s'
    /\ forall k, Interval.discard (Interval.lookup (IL.heap s') k)
                 = Interval.discard (Interval.lookup (IL.heap Examples.waiting) k).
Proof.
  apply (add_point_ends (CO:=Sample.coeffs) (LA:=Sample.linalg) Examples.waiting).
  exact waiting_well_formed.
Defined.

Lemma err_returns_witness :
  exists s' e, IL.err Examples.retired = Ok s' e /\ same_but_cache Examples.retired s'.
Proof.
  apply (err_returns Examples.retired). exact retired_tree_ok.
Defined.

Lemma abandoned_well_formed : well_formed abandoned.
Proof.
  split; [split|split].
  - intros h iv Hh k Hk. destruct h as [|h]; [|discriminate].
    inversion Hh; subst. inversion Hk.
  - intros h iv Hh p Hp. destruct h as [|h]; [|discriminate].
    inversion Hh; subst. discriminate.
  - intros h Hh.
    assert (h = 0) as ->; [|simpl; lia].
    destruct Hh as [Hh|[Hh|(x & ivs & Hx & Hh)]].
    + inversion Hh.
    + inversion Hh.
    + simpl in Hx. rewrite !elem_of_cons in Hx. rewrite elem_of_nil in Hx.
      destruct Hx as [Hx|[Hx|[Hx|[]]]]; inversion Hx; subst;
        apply list_elem_of_singleton in Hh; exact Hh.
  - intros h Hh. inversion Hh.
Qed.

Lemma discarded_intervals_stay_discarded_witness :
  well_formed abandoned_told
  /\ Interval.discard (Interval.lookup (IL.heap abandoned_told) 0) = true.
Proof.
  apply (discarded_intervals_stay_discarded (CO:=Sample.coeffs) (LA:=Sample.linalg)
           (Trace.ITell 0.5 1) abandoned abandoned_told 0).
  - exact abandoned_well_formed.
  - reflexivity.
  - reflexivity.
Defined.
